(** * ydc-agent: streaming re-framer, conversation store, key rotation

    A shallow embedding of the gateway's core: the prompt assembler
    ([lib/api-client.js], [lib/openai-mapper.js]), the API-key rotation and
    the custom-agent failure tracking of [index.js], the bearer-token
    middleware ([lib/auth-middleware.js]), the conversation store
    ([lib/conversation-store.js] and the in-memory copy of [index.js]) and the
    two streaming routes ([lib/routes/chat.js], [lib/routes/anthropic-messages.js])
    with the event constructors of [lib/anthropic-mapper.js]. Around this
    core: the status report on the keys, the housekeeping of the store
    (cleanup, sweep, deletion), the prompt of the Anthropic mapper and the
    merge of a request with the stored history, the replies that are not
    streamed, the conversation routes and the readers of the custom-agent
    list.

    JavaScript strings are modelled by [string]: one character of the model
    stands for one UTF-16 code unit, so [String.length] is [.length]. *)

From Stdlib Require Import ZArith Lia Ascii.
From stdpp Require Import base list strings gmap.

Local Open Scope Z_scope.

(** ** JavaScript string and array primitives used by the sources *)

Module Js.

(** The line feed, written ['\n'] in the sources. *)
Definition LF : ascii := "010"%char.
Definition nl : string := String LF "".

(** Sources are full of JSON text; [qq] turns every apostrophe of a literal
    into a double quote so that such text can be written down. *)
Fixpoint qq (s : string) : string :=
  match s with
  | EmptyString => EmptyString
  | String c r =>
      String (if Ascii.eqb c "039"%char then "034"%char else c) (qq r)
  end.

(** Truthiness of a string value: only [''] is falsy. *)
Definition truthy (s : string) : bool :=
  match s with EmptyString => false | String _ _ => true end.

(** Truthiness of a possibly [undefined]/[null] string. *)
Definition truthy_opt (o : option string) : bool :=
  match o with Some s => truthy s | None => false end.

(** [s.startsWith(p)] *)
Fixpoint startsWith (s p : string) {struct p} : bool :=
  match p with
  | EmptyString => true
  | String c p' =>
      match s with
      | EmptyString => false
      | String d s' => Ascii.eqb c d && startsWith s' p'
      end
  end.

(** [s.slice(n)] for a non-negative [n]. *)
Fixpoint slice (s : string) (n : nat) {struct n} : string :=
  match n with
  | O => s
  | S n' => match s with
            | EmptyString => EmptyString
            | String _ r => slice r n'
            end
  end.

(** [s.split('\n')]: never empty, the last element is what follows the
    last line feed. *)
Fixpoint split_nl (s : string) : list string :=
  match s with
  | EmptyString => [EmptyString]
  | String c r =>
      if Ascii.eqb c LF then EmptyString :: split_nl r
      else match split_nl r with
           | [] => [String c EmptyString]
           | l :: ls => String c l :: ls
           end
  end.

(** [parts.join(sep)] *)
Fixpoint join (sep : string) (parts : list string) : string :=
  match parts with
  | [] => ""
  | [p] => p
  | p :: ps => p +:+ sep +:+ join sep ps
  end.

(** Concatenation of a list of strings, left to right. *)
Definition concat (parts : list string) : string :=
  foldr String.app "" parts.

(** [arr.pop()]: the array without its last element, and that element
    ([undefined] on an empty array). *)
Definition pop {A} (l : list A) : list A * option A :=
  (removelast l, last l).

(** [arr.slice(start)], with JavaScript's treatment of a negative or
    too large [start]. *)
Definition arr_slice {A} (l : list A) (start : Z) : list A :=
  let len := Z.of_nat (length l) in
  let k := if start <? 0 then Z.max (len + start) 0 else Z.min start len in
  drop (Z.to_nat k) l.

(** [arr.find(p)] *)
Definition find {A} (p : A → bool) (l : list A) : option A :=
  List.find p l.

End Js.

(** * Bearer-token middleware ([lib/auth-middleware.js]) *)

Module Auth.
Import Js.

(** What the middleware does with a request: answer it with an error
    status and body, or hand it to the route ([next()]). *)
Inductive Outcome :=
| Rejected (status : Z) (message type code : string)
| Next.

Definition status_of (o : Outcome) : option Z :=
  match o with Rejected st _ _ _ => Some st | Next => None end.

(** [ACCESS_TOKENS.includes(token)] *)
Definition includes (tokens : list string) (token : string) : bool :=
  bool_decide (token ∈ tokens).

Section Middleware.
(** The module constant [ACCESS_TOKENS]: the entries of
    [YDC_OPENAI_ACCESS_TOKENS], trimmed, empty ones dropped. *)
Variable ACCESS_TOKENS : list string.

Definition REQUIRE_TOKEN_AUTH : bool := (0 <? length ACCESS_TOKENS)%nat.

(** [authenticate(req, res, next)]; [authorization] is
    [req.headers.authorization], [None] when the header is absent. *)
Definition authenticate (authorization : option string) : Outcome :=
  match authorization with
  | None =>
      Rejected 401 "Invalid authentication credentials"
               "invalid_request_error" "invalid_api_key"
  | Some authHeader =>
      if negb (truthy authHeader) || negb (startsWith authHeader "Bearer ")
      then Rejected 401 "Invalid authentication credentials"
                    "invalid_request_error" "invalid_api_key"
      else if REQUIRE_TOKEN_AUTH then
        let token := slice authHeader 7 in
        if negb (includes ACCESS_TOKENS token)
        then Rejected 401 "Invalid access token"
                      "invalid_request_error" "invalid_access_token"
        else Next
      else Next
  end.
End Middleware.

End Auth.

(** * API-key rotation ([index.js], "MULTI-KEY CONFIGURATION") *)

Module Keys.

(** A key as the code holds it: [API_KEYS[i]] is [undefined] ([None]) when
    [i] is out of range, and a JavaScript [Map] takes [undefined] as a key
    like any other value. *)
Definition Key : Type := option string.

(** The mutable module state: [currentKeyIndex], [keyUsageCount],
    [keyErrorCount]. *)
Record State := mkState {
  currentKeyIndex : nat;
  keyUsageCount : gmap Key nat;
  keyErrorCount : gmap Key nat
}.

Definition initial : State :=
  {| currentKeyIndex := 0; keyUsageCount := ∅; keyErrorCount := ∅ |}.

(** [map.set(key, (map.get(key) || 0) + 1)] *)
Definition bump (key : Key) (m : gmap Key nat) : gmap Key nat :=
  <[key := (default 0 (m !! key) + 1)%nat]> m.

Section Rotation.
(** [API_KEYS] and [KEY_MODE], fixed when the process starts. *)
Variable API_KEYS : list string.
Variable KEY_MODE : string.

(** [getNextApiKey()]. [rnd] is the value of
    [Math.floor(Math.random() * API_KEYS.length)] for this call.
    [None] is the thrown [Error('No API keys configured')]. *)
Definition getNextApiKey (rnd : nat) (s : State) : option (Key * State) :=
  if (length API_KEYS =? 0)%nat then None
  else
    let '(key, idx) :=
      if (length API_KEYS =? 1)%nat then
        (API_KEYS !! 0%nat, currentKeyIndex s)
      else if String.eqb KEY_MODE "sequential" then
        (API_KEYS !! currentKeyIndex s, currentKeyIndex s)
      else if String.eqb KEY_MODE "random" then
        (API_KEYS !! rnd, currentKeyIndex s)
      else (* round-robin *)
        (API_KEYS !! currentKeyIndex s,
         ((currentKeyIndex s + 1) mod length API_KEYS)%nat)
    in
    Some (key, {| currentKeyIndex := idx;
                  keyUsageCount := bump key (keyUsageCount s);
                  keyErrorCount := keyErrorCount s |}).

(** [markKeyError(key)] *)
Definition markKeyError (key : Key) (s : State) : State :=
  {| currentKeyIndex :=
       if String.eqb KEY_MODE "sequential"
       then ((currentKeyIndex s + 1) mod length API_KEYS)%nat
       else currentKeyIndex s;
     keyUsageCount := keyUsageCount s;
     keyErrorCount := bump key (keyErrorCount s) |}.

(** A run of the rotator: each step is a call of [getNextApiKey] (with
    its random draw) or of [markKeyError] on the key returned last. *)
Inductive Op := Get (rnd : nat) | MarkLast.

Fixpoint run (ops : list Op) (last : Key) (s : State)
  : option (list Key * State) :=
  match ops with
  | [] => Some ([], s)
  | Get rnd :: ops' =>
      match getNextApiKey rnd s with
      | None => None
      | Some (k, s') =>
          match run ops' k s' with
          | None => None
          | Some (ks, s'') => Some (k :: ks, s'')
          end
      end
  | MarkLast :: ops' => run ops' last (markKeyError last s)
  end.
End Rotation.

End Keys.

(** * Custom-agent failure tracking ([index.js], "YOU_AGENT FAILURE TRACKING") *)

Module Breaker.

(** [parseInt(process.env.YDC_AGENT_FAILURE_THRESHOLD) || 3]; [parsed] is
    the result of [parseInt], [None] for [NaN]. *)
Definition threshold_of (parsed : option Z) : Z :=
  match parsed with
  | Some n => if n =? 0 then 3 else n
  | None => 3
  end.

(** [youAgentFailureCount] and [youAgentDisabled]. *)
Record State := mkState {
  youAgentFailureCount : Z;
  youAgentDisabled : bool
}.

Definition initial : State :=
  {| youAgentFailureCount := 0; youAgentDisabled := false |}.

Section Tracking.
Variable YOU_AGENT_FAILURE_THRESHOLD : Z.

(** [recordYouAgentFailure()]: the new state and the returned
    [{ count, disabled }]. *)
Definition recordYouAgentFailure (s : State) : State * (Z * bool) :=
  let count := youAgentFailureCount s + 1 in
  let disabled :=
    if YOU_AGENT_FAILURE_THRESHOLD <=? count then true
    else youAgentDisabled s in
  ({| youAgentFailureCount := count; youAgentDisabled := disabled |},
   (count, disabled)).

(** [resetYouAgentFailures()] *)
Definition resetYouAgentFailures (s : State) : State :=
  {| youAgentFailureCount := 0; youAgentDisabled := false |}.

(** [getYouAgentStatus()]: [{ failure_count, threshold, disabled }]. *)
Definition getYouAgentStatus (s : State) : Z * Z * bool :=
  (youAgentFailureCount s, YOU_AGENT_FAILURE_THRESHOLD, youAgentDisabled s).
End Tracking.

(** The states the two operations of the tracker can produce. *)
Inductive reachable (T : Z) : State → Prop :=
| reach_initial : reachable T initial
| reach_record s :
    reachable T s → reachable T (fst (recordYouAgentFailure T s))
| reach_reset s :
    reachable T s → reachable T (resetYouAgentFailures s).

End Breaker.

(** * The [you_agent] tool ([index.js], [callCustomAgent]) *)

Module CustomAgent.

(** The outcome of one upstream call: [callYouApi], [response.json()] and
    [extractText] giving a text, or any of them throwing. *)
Inductive Upstream := Ok (text : string) | Failed (message : string).

(** The request body handed to [callYouApi] ([stream] is always false
    here). *)
Record Request := mkRequest { agent : string; input : string }.

(** [knowledgeInfo]: [null], the probed cutoff, or the skipped probe. *)
Inductive KnowledgeInfo :=
| NoInfo
| Cutoff (cutoff_date : string) (months_old : Z) (is_outdated : bool)
| ProbeSkipped (error : string).

(** The [failure_tracking] object of a reply. [threshold_reached] tells
    which of the two [suggestion] texts is reported. *)
Record FailureTracking := mkTracking {
  current_failures : Z;
  threshold : Z;
  threshold_reached : bool
}.

(** One entry of [results] in the multi-call reply. *)
Record CallResult := mkResult {
  index : Z;
  success : bool;
  payload : string  (* [result] on success, [error] otherwise *)
}.

(** The JSON text returned to the MCP client. *)
Inductive Reply :=
| SingleOk (agent_id : string) (info : KnowledgeInfo)
           (prompt_enhanced : bool) (result : string)
| SingleFailed (agent_id : string) (info : KnowledgeInfo) (error : string)
               (tracking : FailureTracking)
| Multi (total_calls successful failed : Z) (agent_id : string)
        (info : KnowledgeInfo) (prompt_enhanced : bool)
        (summary : option string) (results : option (list CallResult))
        (tracking : option FailureTracking).

Record Args := mkArgs {
  arg_input : string;
  arg_agent_id : string;
  auto_enhance : bool;
  call_count : Z;
  want_summary : bool;
  language : string;
  show_results : bool
}.

(** The module state the tool reads and writes, and the upstream calls it
    has issued so far. *)
Record World := mkWorld {
  keys : Keys.State;
  breaker : Breaker.State;
  gets : nat;               (* calls of [getNextApiKey] so far *)
  issued : list Request
}.

Section Tool.
Variable API_KEYS : list string.
Variable KEY_MODE : string.
Variable YOU_AGENT_FAILURE_THRESHOLD : Z.
(** The random draw of the n-th [getNextApiKey], the outcome of the n-th
    upstream call (in order of issue). *)
Variable rand : nat → nat.
Variable upstream : nat → Upstream.
(** The date arithmetic on the probe's answer ([None]: no [YYYY-MM] in
    it), [enhancePromptForOutdatedAI], and the prompt text built by
    [generateSummary]. *)
Variable assess : string → option (string * Z * bool).
Variable enhancePromptForOutdatedAI :
  string → string * Z * bool → string → string.
Variable summaryPrompt : list CallResult → string → string → string.

Definition next_key (w : World) : option (Keys.Key * World) :=
  match Keys.getNextApiKey API_KEYS KEY_MODE (rand (gets w)) (keys w) with
  | None => None
  | Some (k, ks) =>
      Some (k, {| keys := ks; breaker := breaker w;
                  gets := S (gets w); issued := issued w |})
  end.

Definition callYouApi (req : Request) (w : World) : Upstream * World :=
  (upstream (length (issued w)),
   {| keys := keys w; breaker := breaker w; gets := gets w;
      issued := issued w ++ [req] |}).

Definition mark (k : Keys.Key) (w : World) : World :=
  {| keys := Keys.markKeyError API_KEYS KEY_MODE k (keys w);
     breaker := breaker w; gets := gets w; issued := issued w |}.

Definition record_failure (w : World) : World * (Z * bool) :=
  let '(b, r) :=
    Breaker.recordYouAgentFailure YOU_AGENT_FAILURE_THRESHOLD (breaker w) in
  ({| keys := keys w; breaker := b; gets := gets w; issued := issued w |},
   r).

(** Step 1: the knowledge-cutoff probe. A failed probe is caught and
    only noted in [knowledgeInfo]. *)
Definition probe (a : Args) (w : World)
  : option (string * KnowledgeInfo * World) :=
  match next_key w with
  | None => None
  | Some (apiKey, w1) =>
      let '(out, w2) :=
        callYouApi
          {| agent := arg_agent_id a;
             input := "What is your knowledge cutoff date? Reply with just the date in YYYY-MM format." |}
          w1 in
      match out with
      | Failed msg => Some (arg_input a, ProbeSkipped msg, w2)
      | Ok probeText =>
          match assess probeText with
          | None => Some (arg_input a, NoInfo, w2)
          | Some (d, m, outdated) =>
              Some (if outdated
                    then enhancePromptForOutdatedAI (arg_input a)
                           (d, m, outdated) (language a)
                    else arg_input a,
                    Cutoff d m outdated, w2)
          end
      end
  end.

(** The [count] asynchronous callbacks of the multi-call branch: each
    takes its key and issues its request before the first response is
    awaited. *)
Fixpoint issue_all (n : nat) (req : Request) (w : World)
  : option (list (Keys.Key * Upstream) * World) :=
  match n with
  | O => Some ([], w)
  | S n' =>
      match next_key w with
      | None => None
      | Some (apiKey, w1) =>
          let '(out, w2) := callYouApi req w1 in
          match issue_all n' req w2 with
          | None => None
          | Some (rest, w3) => Some ((apiKey, out) :: rest, w3)
          end
      end
  end.

(** The callbacks' continuations: a failure marks its key and is
    recorded. Their effects commute, so they are run in index order. *)
Fixpoint settle_all (i : Z) (outs : list (Keys.Key * Upstream)) (w : World)
  : list CallResult * World :=
  match outs with
  | [] => ([], w)
  | (apiKey, out) :: rest =>
      match out with
      | Ok text =>
          let '(rs, w') := settle_all (i + 1) rest w in
          ({| index := i + 1; success := true; payload := text |} :: rs, w')
      | Failed msg =>
          let w1 := fst (record_failure (mark apiKey w)) in
          let '(rs, w') := settle_all (i + 1) rest w1 in
          ({| index := i + 1; success := false; payload := msg |} :: rs, w')
      end
  end.

(** [generateSummary(results, input, language)] *)
Definition generateSummary (results : list CallResult) (inp lang : string)
  (w : World) : option (option string * World) :=
  let successfulResults := filter (λ r, success r = true) results in
  if (length successfulResults <? 2)%nat then Some (None, w)
  else
    match next_key w with
    | None => None
    | Some (apiKey, w1) =>
        let '(out, w2) :=
          callYouApi {| agent := "express";
                        input := summaryPrompt successfulResults inp lang |}
                     w1 in
        match out with
        | Ok text => Some (Some text, w2)
        | Failed msg =>
            Some (Some ("Summary generation failed: " +:+ msg),
                  mark apiKey w2)
        end
    end.

Definition tracking_of (count : Z) : FailureTracking :=
  {| current_failures := count;
     threshold := YOU_AGENT_FAILURE_THRESHOLD;
     threshold_reached := YOU_AGENT_FAILURE_THRESHOLD <=? count |}.

(** [callCustomAgent(args)]; [None] is a rejected promise (only
    [getNextApiKey] throwing escapes the [try] blocks). *)
Definition callCustomAgent (a : Args) (w : World) : option (Reply * World) :=
  let count := Z.max 1 (Z.min 10 (call_count a)) in
  match (if auto_enhance a then probe a w
         else Some (arg_input a, NoInfo, w)) with
  | None => None
  | Some (enhancedInput, knowledgeInfo, w1) =>
      let enhanced := negb (String.eqb enhancedInput (arg_input a)) in
      let req := {| agent := arg_agent_id a; input := enhancedInput |} in
      if count =? 1 then
        match next_key w1 with
        | None => None
        | Some (apiKey, w2) =>
            let '(out, w3) := callYouApi req w2 in
            match out with
            | Ok result =>
                Some (SingleOk (arg_agent_id a) knowledgeInfo enhanced
                               result, w3)
            | Failed msg =>
                let '(w4, (cnt, _)) := record_failure (mark apiKey w3) in
                Some (SingleFailed (arg_agent_id a) knowledgeInfo msg
                                   (tracking_of cnt), w4)
            end
        end
      else
        match issue_all (Z.to_nat count) req w1 with
        | None => None
        | Some (outs, w2) =>
            let '(results, w3) := settle_all 0 outs w2 in
            let successCount :=
              Z.of_nat (length (filter (λ r, success r = true) results)) in
            match (if want_summary a && (1 <? successCount)
                   then generateSummary results (arg_input a) (language a) w3
                   else Some (None, w3)) with
            | None => None
            | Some (summaryText, w4) =>
                Some (Multi count successCount (count - successCount)
                            (arg_agent_id a) knowledgeInfo enhanced
                            (match summaryText with
                             | Some t => if Js.truthy t then Some t else None
                             | None => None
                             end)
                            (if show_results a then Some results else None)
                            (if 0 <? count - successCount
                             then Some (tracking_of
                                          (Breaker.youAgentFailureCount
                                             (breaker w4)))
                             else None),
                      w4)
            end
        end
  end.
End Tool.

(** ** The vocabulary of the statements about the tool *)

(** Two worlds that differ at most in the disabled flag. *)
Definition same_but_flag (w1 w2 : World) : Prop :=
  keys w1 = keys w2
  ∧ Breaker.youAgentFailureCount (breaker w1)
    = Breaker.youAgentFailureCount (breaker w2)
  ∧ gets w1 = gets w2
  ∧ issued w1 = issued w2.

(** Two runs that throw together or return the same value, in worlds
    that differ at most in the flag. *)
Definition agree {X} (o1 o2 : option (X * World)) : Prop :=
  match o1, o2 with
  | Some (x1, w1), Some (x2, w2) => x1 = x2 ∧ same_but_flag w1 w2
  | None, None => True
  | _, _ => False
  end.

(** How many failures a reply reports. *)
Definition failures_of (r : Reply) : nat :=
  match r with
  | SingleOk _ _ _ _ => 0
  | SingleFailed _ _ _ _ => 1
  | Multi _ _ failed _ _ _ _ _ _ => Z.to_nat failed
  end.

(** The failed ones among the outcomes of a multi-call. *)
Definition is_failed (o : Keys.Key * Upstream) : bool :=
  match snd o with Failed _ => true | Ok _ => false end.

Definition failed_count (outs : list (Keys.Key * Upstream)) : nat :=
  length (filter (λ o, is_failed o = true) outs).

(** A run of the tool against an upstream that always fails, with two
    failures already counted and the default threshold. *)
Module Sample.
Definition pool : list string := ["key-one"; "key-two"].
Definition down : nat → Upstream := λ _, Failed "503".
Definition up : nat → Upstream := λ _, Ok "fine".
Definition args : Args :=
  {| arg_input := "question"; arg_agent_id := "agent-1";
     auto_enhance := false; call_count := 1; want_summary := false;
     language := "en"; show_results := true |}.
Definition world (flag : bool) : World :=
  {| keys := Keys.initial;
     breaker := {| Breaker.youAgentFailureCount := 2;
                   Breaker.youAgentDisabled := flag |};
     gets := 0; issued := [] |}.
Definition call (upstream : nat → Upstream) :=
  callCustomAgent pool "round-robin" 3 (λ _, 0%nat) upstream
                  (λ _, None) (λ i _ _, i) (λ _ i _, i) args.
Definition thrice : Breaker.State :=
  Nat.iter 3 (λ b, fst (Breaker.recordYouAgentFailure 3 b)) Breaker.initial.
End Sample.

End CustomAgent.

(** * Prompt assembly ([lib/api-client.js], [lib/openai-mapper.js]) *)

Module Assembler.
Import Js.

(** A chat message as the assembler reads it. *)
Record Msg := mkMsg { role : string; content : string }.

(** The [messages.forEach] loop: the last system content seen, and the
    rendered user and assistant turns in order. *)
Definition visit (acc : string * list string) (msg : Msg)
  : string * list string :=
  let '(systemPrompt, conversationHistory) := acc in
  if String.eqb (role msg) "system" then
    (content msg, conversationHistory)
  else if String.eqb (role msg) "user" then
    (systemPrompt, conversationHistory ++ ["User: " +:+ content msg])
  else if String.eqb (role msg) "assistant" then
    (systemPrompt, conversationHistory ++ ["Assistant: " +:+ content msg])
  else acc.

(** [s.replace(/^User: /, '')] *)
Definition strip_user_label (s : string) : string :=
  if startsWith s "User: " then slice s 6 else s.

(** [buildConversationInput(messages)] *)
Definition buildConversationInput (messages : list Msg) : string :=
  let '(systemPrompt, conversationHistory) :=
    fold_left visit messages ("", []) in
  let input :=
    if truthy systemPrompt
    then "[System Instructions]" +:+ nl +:+ systemPrompt +:+ nl +:+ nl
    else "" in
  if (1 <? length conversationHistory)%nat then
    (input +:+
     ("[Conversation History]" +:+ nl
      +:+ join (nl +:+ nl) (removelast conversationHistory) +:+ nl +:+ nl))
    +:+ ("[Current Message]" +:+ nl
         +:+ strip_user_label (default "" (last conversationHistory)))
  else if (length conversationHistory =? 1)%nat then
    input +:+ strip_user_label (default "" (head conversationHistory))
  else input.

(** The [input] field computed by [mapOpenAIToYouParams]: the same loop
    and the same assembly, written out a second time in the mapper. *)
Definition mapOpenAIToYouParams_input (messages : list Msg) : string :=
  let '(systemPrompt, conversationHistory) :=
    fold_left visit messages ("", []) in
  let input :=
    if truthy systemPrompt
    then "[System Instructions]" +:+ nl +:+ systemPrompt +:+ nl +:+ nl
    else "" in
  if (1 <? length conversationHistory)%nat then
    (input +:+
     ("[Conversation History]" +:+ nl
      +:+ join (nl +:+ nl) (removelast conversationHistory) +:+ nl +:+ nl))
    +:+ ("[Current Message]" +:+ nl
         +:+ strip_user_label (default "" (last conversationHistory)))
  else if (length conversationHistory =? 1)%nat then
    input +:+ strip_user_label (default "" (head conversationHistory))
  else input.

(** ** The vocabulary of section 4.1 of the specification *)

(** A conversational turn: a message of role [user] or [assistant]. *)
Definition conversational (m : Msg) : bool :=
  String.eqb (role m) "user" || String.eqb (role m) "assistant".

(** ["<Role>: <content>"] *)
Definition rendered (m : Msg) : string :=
  (if String.eqb (role m) "user" then "User: " else "Assistant: ")
  +:+ content m.

(** The system block put in front of the prompt. *)
Definition system_block (messages : list Msg) : string :=
  let systemPrompt := fst (fold_left visit messages ("", [])) in
  if truthy systemPrompt
  then "[System Instructions]" +:+ nl +:+ systemPrompt +:+ nl +:+ nl
  else "".

(** What the code puts for the final turn: the content of a user turn,
    the labelled rendering of an assistant turn. *)
Definition current_text (m : Msg) : string :=
  if String.eqb (role m) "user" then content m else rendered m.

(** A sample exchange. *)
Definition two_turns : list Msg :=
  [ {| role := "system"; content := "Be brief." |};
    {| role := "user"; content := "Hello" |};
    {| role := "assistant"; content := "Hi." |};
    {| role := "user"; content := "And now?" |} ].

End Assembler.

(** * Conversation store ([lib/conversation-store.js], [index.js]) *)

Module Store.
Import Js.

Definition MAX_MESSAGES_PER_CONVERSATION : Z := 100.

(** A stored turn. *)
Record Message := mkMessage {
  role : string;
  content : string;
  timestamp : Z
}.

Record Conversation := mkConversation {
  id : string;
  messages : list Message;
  createdAt : Z;
  updatedAt : Z;
  metadata : gmap string string
}.

Definition is_system (m : Message) : bool := String.eqb (role m) "system".

(** The trimming both in-memory variants run before [push]:
    [if (conv.messages.length >= MAX_MESSAGES_PER_CONVERSATION) ...]. *)
Definition trim (msgs : list Message) : list Message :=
  if MAX_MESSAGES_PER_CONVERSATION <=? Z.of_nat (length msgs) then
    match find is_system msgs with
    | Some systemMsg =>
        systemMsg :: arr_slice msgs (- MAX_MESSAGES_PER_CONVERSATION + 2)
    | None => arr_slice msgs (- MAX_MESSAGES_PER_CONVERSATION + 1)
    end
  else msgs.

(** ** The in-memory map ([memoryStore], and [conversationStore] of
    [index.js]). The clock is read as [now] throughout one call; [uuid] is
    what [crypto.randomUUID()] returns if it is asked. The conversation
    objects live in the map and are mutated in place, so every change of a
    conversation is a change of the map's entry. *)
Module Memory.

Definition createConversation (now : Z) (uuid : string)
  (conversationId : string) (meta : gmap string string)
  (store : gmap string Conversation)
  : Conversation * gmap string Conversation :=
  let id := if truthy conversationId then conversationId else uuid in
  let conv := {| id := id; messages := []; createdAt := now;
                 updatedAt := now; metadata := meta |} in
  (conv, <[id := conv]> store).

(** [getConversation] of [index.js]: a hit refreshes [updatedAt]. *)
Definition getConversation (now : Z) (conversationId : string)
  (store : gmap string Conversation)
  : option Conversation * gmap string Conversation :=
  if negb (truthy conversationId) then (None, store)
  else match store !! conversationId with
       | None => (None, store)
       | Some conv =>
           let conv' := {| id := id conv; messages := messages conv;
                           createdAt := createdAt conv; updatedAt := now;
                           metadata := metadata conv |} in
           (Some conv', <[conversationId := conv']> store)
       end.

(** The rest of both [addMessageToConversation]s once [conv] is at
    hand, stored under [key]: trim, push, touch. *)
Definition push_message (now : Z) (key : string) (conv : Conversation)
  (role content : string) (store : gmap string Conversation)
  : Conversation * gmap string Conversation :=
  let conv' :=
    {| id := id conv;
       messages := trim (messages conv)
                   ++ [{| role := role; content := content;
                          timestamp := now |}];
       createdAt := createdAt conv; updatedAt := now;
       metadata := metadata conv |} in
  (conv', <[key := conv']> store).

(** [addMessageToConversation] of [lib/conversation-store.js], memory
    branch. *)
Definition addMessageToConversation (now : Z) (uuid : string)
  (conversationId role content : string)
  (store : gmap string Conversation)
  : Conversation * gmap string Conversation :=
  match store !! conversationId with
  | Some conv => push_message now conversationId conv role content store
  | None =>
      let '(conv, store1) :=
        createConversation now uuid conversationId ∅ store in
      push_message now (id conv) conv role content store1
  end.

(** [addMessageToConversation] of [index.js]. *)
Definition addMessageToConversation_mcp (now : Z) (uuid : string)
  (conversationId role content : string)
  (store : gmap string Conversation)
  : Conversation * gmap string Conversation :=
  match getConversation now conversationId store with
  | (Some conv, store1) =>
      push_message now conversationId conv role content store1
  | (None, store1) =>
      let '(conv, store2) :=
        createConversation now uuid conversationId ∅ store1 in
      push_message now (id conv) conv role content store2
  end.

End Memory.

(** ** The vocabulary of the statements about trimming *)

(** What trimming may leave of a sequence of turns: all of it; a suffix
    of it when it holds no system turn; or its first system turn followed
    by a suffix of it. *)
Inductive trimmed (msgs : list Message) : list Message → Prop :=
| trimmed_none : trimmed msgs msgs
| trimmed_front kept :
    kept `suffix_of` msgs → find is_system msgs = None →
    trimmed msgs kept
| trimmed_system systemMsg kept :
    kept `suffix_of` msgs → find is_system msgs = Some systemMsg →
    trimmed msgs (systemMsg :: kept).

(** The turns held for an id before a call. *)
Definition prior (store : gmap string Conversation) (cid : string)
  : list Message :=
  match store !! cid with Some conv => messages conv | None => [] end.

(** ** The SQLite branch. The [messages] table is the list of its rows in
    ascending [id] (rows are only ever inserted with a fresh, larger
    [AUTOINCREMENT] id, or deleted), so [ORDER BY id] is the order of the
    list; the [conversations] table is a map on its primary key. *)
Module Sql.

Record Row := mkRow {
  row_id : Z;
  conversation_id : string;
  row_role : string;
  row_content : string;
  row_timestamp : Z
}.

Record ConvRow := mkConvRow {
  conv_metadata : gmap string string;
  created_at : Z;
  updated_at : Z
}.

Record Db := mkDb {
  conversations : gmap string ConvRow;
  rows : list Row;
  seq : Z            (* the largest id handed out so far *)
}.

(** [WHERE conversation_id = ?] *)
Definition of_conv (cid : string) (r : Row) : bool :=
  String.eqb (conversation_id r) cid.

Definition select_conv (cid : string) (db : Db) : list Row :=
  filter (λ r, of_conv cid r = true) (rows db).

(** [DELETE FROM messages WHERE id = ?], for each id of a result. *)
Definition delete_ids (ids : list Z) (tbl : list Row) : list Row :=
  fold_left (λ t i, filter (λ r, row_id r ≠ i) t) ids tbl.

Definition createConversation (now : Z) (uuid : string)
  (conversationId : string) (meta : gmap string string) (db : Db) : Db :=
  let id := if truthy conversationId then conversationId else uuid in
  {| conversations :=
       <[id := {| conv_metadata := meta; created_at := now;
                  updated_at := now |}]> (conversations db);
     rows := rows db; seq := seq db |}.

(** [UPDATE conversations SET updated_at = ? WHERE id = ?] *)
Definition touch (now : Z) (cid : string) (db : Db) : Db :=
  {| conversations :=
       match conversations db !! cid with
       | Some c =>
           <[cid := {| conv_metadata := conv_metadata c;
                       created_at := created_at c;
                       updated_at := now |}]> (conversations db)
       | None => conversations db
       end;
     rows := rows db; seq := seq db |}.

Definition getConversation (now : Z) (conversationId : string) (db : Db)
  : option Conversation * Db :=
  if negb (truthy conversationId) then (None, db)
  else match conversations db !! conversationId with
       | None => (None, db)
       | Some c =>
           (Some {| id := conversationId;
                    messages :=
                      (λ r, {| role := row_role r;
                               content := row_content r;
                               timestamp := row_timestamp r |})
                      <$> select_conv conversationId db;
                    createdAt := created_at c; updatedAt := now;
                    metadata := conv_metadata c |},
            touch now conversationId db)
       end.

(** The deletions run when [count >= MAX_MESSAGES_PER_CONVERSATION]. *)
Definition evict (cid : string) (db : Db) : Db :=
  let count := Z.of_nat (length (select_conv cid db)) in
  if MAX_MESSAGES_PER_CONVERSATION <=? count then
    let deleteCount := count - MAX_MESSAGES_PER_CONVERSATION + 2 in
    let toDelete :=
      match find (λ r, String.eqb (row_role r) "system")
                 (select_conv cid db) with
      | Some systemRow =>
          take (Z.to_nat deleteCount)
               (filter (λ r, row_id r ≠ row_id systemRow)
                       (select_conv cid db))
      | None => take (Z.to_nat deleteCount) (select_conv cid db)
      end in
    {| conversations := conversations db;
       rows := delete_ids (row_id <$> toDelete) (rows db);
       seq := seq db |}
  else db.

(** [INSERT INTO messages (...) VALUES (?, ?, ?, ?)] *)
Definition insert_message (now : Z) (cid role content : string) (db : Db)
  : Db :=
  {| conversations := conversations db;
     rows := rows db ++ [{| row_id := seq db + 1; conversation_id := cid;
                            row_role := role; row_content := content;
                            row_timestamp := now |}];
     seq := seq db + 1 |}.

(** [addMessageToConversation] of [lib/conversation-store.js], SQLite
    branch. *)
Definition addMessageToConversation (now : Z) (uuid : string)
  (conversationId role content : string) (db : Db)
  : option Conversation * Db :=
  let db1 :=
    match conversations db !! conversationId with
    | Some _ => db
    | None => createConversation now uuid conversationId ∅ db
    end in
  let db2 := evict conversationId db1 in
  let db3 := insert_message now conversationId role content db2 in
  getConversation now conversationId (touch now conversationId db3).

(** The rows [evict] selects for deletion, out of the rows [l] of the
    conversation. *)
Definition doomed (l : list Row) : list Row :=
  let deleteCount :=
    Z.of_nat (length l) - MAX_MESSAGES_PER_CONVERSATION + 2 in
  match find (λ r, String.eqb (row_role r) "system") l with
  | Some systemRow =>
      take (Z.to_nat deleteCount)
           (filter (λ r, row_id r ≠ row_id systemRow) l)
  | None => take (Z.to_nat deleteCount) l
  end.

End Sql.

(** A conversation at the bound, led by a system turn, in each store. *)
Module Sample.
Import Sql.

Definition lead : Message :=
  {| Store.role := "system"; Store.content := "Be brief."; timestamp := 0 |}.
Definition turns : list Message :=
  lead :: ((λ i, {| Store.role := "user"; Store.content := "again";
                    timestamp := Z.of_nat i |}) <$> List.seq 1%nat 99%nat).
Definition store : gmap string Conversation :=
  {[ "c1" := {| id := "c1"; messages := turns; createdAt := 0;
                updatedAt := 99; metadata := ∅ |} ]}.
Definition lead_row : Row :=
  {| row_id := 1; conversation_id := "c1"; row_role := "system";
     row_content := "Be brief."; row_timestamp := 0 |}.
Definition later_rows : list Row :=
  (λ i, {| row_id := Z.of_nat i + 1; conversation_id := "c1";
           row_role := "user"; row_content := "again";
           row_timestamp := Z.of_nat i |}) <$> List.seq 1%nat 99%nat.
Definition db : Db :=
  {| conversations :=
       {[ "c1" := {| conv_metadata := ∅; created_at := 0;
                     updated_at := 99 |} ]};
     rows := lead_row :: later_rows;
     seq := 100 |}.
End Sample.

End Store.

(** * Streaming: the upstream SSE reader and the two re-emitters *)

Module Stream.
Import Js.

(** ** What both routes share *)

(** The fields of an upstream record the routes read after [JSON.parse].
    Absent, [null] and [undefined] are [None]; the model covers records
    whose [type], [delta] and [text] fields are strings and whose [output]
    is a list of objects when present, as the upstream protocol sends
    them. *)
Record Response := mkResponse {
  r_type : option string;
  r_delta : option string
}.

Record OutputItem := mkItem {
  i_type : option string;
  i_text : option string
}.

Record Parsed := mkParsed {
  p_type : option string;
  p_response : option Response;
  p_output : option (list OutputItem)
}.

(** [parsed.response?.type] and [parsed.response?.delta] *)
Definition response_type (p : Parsed) : option string :=
  match p_response p with Some r => r_type r | None => None end.
Definition response_delta (p : Parsed) : option string :=
  match p_response p with Some r => r_delta r | None => None end.

(** The condition both routes test for a delta record. *)
Definition is_text_delta (p : Parsed) : bool :=
  bool_decide (p_type p = Some "response.output_text.delta")
  && bool_decide (response_type p = Some "message.answer")
  && truthy_opt (response_delta p).

(** How the body ends: [reader.read()] reports [done], or rejects. *)
Inductive Ending := Done | Broken (message : string).

(** The response body as the loop sees it: the text [decoder.decode]
    yields for each value read, then the ending. *)
Record Body := mkBody { values : list string; ending : Ending }.

(** [buffer += decoded; lines = buffer.split('\n');
     buffer = lines.pop() || ''] : the complete lines and the new buffer. *)
Definition take_lines (buffer decoded : string) : list string * string :=
  let buffer := buffer +:+ decoded in
  let lines := split_nl buffer in
  (fst (pop lines), default "" (snd (pop lines))).

(** The reading loop over any per-line handler. *)
Section Reader.
Context {St : Type}.
Variable handle_line : St → string → St.

Definition on_value (acc : St * string) (decoded : string) : St * string :=
  let '(st, buffer) := acc in
  let '(lines, buffer') := take_lines buffer decoded in
  (fold_left handle_line lines st, buffer').

Definition read_all (st : St) (vals : list string) : St * string :=
  fold_left on_value vals (st, "").
End Reader.

(** ** The typed-block route ([lib/routes/anthropic-messages.js]) with the event
    constructors of [lib/anthropic-mapper.js]. Wall-clock ids
    ([msg_${Date.now()}]) are not part of the model. *)
Module Typed.

Record MessageHead := mkHead {
  m_type : string;
  m_role : string;
  m_content : list string;
  m_model : string;
  m_stop_reason : option string;
  m_stop_sequence : option string;
  m_input_tokens : Z;
  m_output_tokens : Z;
  m_conversation_id : option string   (* [metadata.conversation_id] *)
}.

Inductive EventData :=
| DMessageStart (message : MessageHead)
| DContentBlockStart (index : Z) (block_type text : string)
| DContentBlockDelta (index : Z) (delta_type text : string)
| DContentBlockStop (index : Z)
| DMessageDelta (stop_reason : string) (stop_sequence : option string)
                (output_tokens : Z)
| DMessageStop.

(** One SSE record [event: <name>\ndata: <json>\n\n]. *)
Record Event := mkEvent { event : string; data : EventData }.

Definition createAnthropicStreamEvent (eventType : string)
  (d : EventData) : Event :=
  {| event := eventType; data := d |}.

Definition createMessageStartEvent (model : string)
  (conversationId : option string) : Event :=
  createAnthropicStreamEvent "message_start"
    (DMessageStart
       {| m_type := "message"; m_role := "assistant"; m_content := [];
          m_model := model; m_stop_reason := None;
          m_stop_sequence := None;
          m_input_tokens := 0; m_output_tokens := 0;
          m_conversation_id :=
            if truthy_opt conversationId then conversationId else None |}).

Definition createContentBlockStartEvent (index : Z) : Event :=
  createAnthropicStreamEvent "content_block_start"
    (DContentBlockStart index "text" "").

Definition createContentBlockDeltaEvent (text : string) (index : Z)
  : Event :=
  createAnthropicStreamEvent "content_block_delta"
    (DContentBlockDelta index "text_delta" text).

Definition createContentBlockStopEvent (index : Z) : Event :=
  createAnthropicStreamEvent "content_block_stop"
    (DContentBlockStop index).

Definition createMessageDeltaEvent (outputTokens : Z) : Event :=
  createAnthropicStreamEvent "message_delta"
    (DMessageDelta "end_turn" None outputTokens).

Definition createMessageStopEvent : Event :=
  createAnthropicStreamEvent "message_stop" DMessageStop.

(** [fullContent] and what has been written to [res]. *)
Record State := mkState {
  fullContent : string;
  written : list Event
}.

Definition write (e : Event) (st : State) : State :=
  {| fullContent := fullContent st; written := written st ++ [e] |}.

(** The body of [for (const item of parsed.output)]. *)
Definition handle_item (st : State) (item : OutputItem) : State :=
  if bool_decide (i_type item = Some "message.answer")
     && truthy_opt (i_text item)
  then
    let text := default "" (i_text item) in
    let newText := slice text (String.length (fullContent st)) in
    if truthy newText then
      write (createContentBlockDeltaEvent newText 0)
            {| fullContent := text; written := written st |}
    else st
  else st.

(** The first [if] run on a parsed record: the delta format. *)
Definition handle_delta (st : State) (parsed : Parsed) : State :=
  if is_text_delta parsed then
    let newText := default "" (response_delta parsed) in
    if truthy newText then
      write (createContentBlockDeltaEvent newText 0)
            {| fullContent := fullContent st +:+ newText;
               written := written st |}
    else st
  else st.

(** The two [if]s run on a parsed record, one after the other. *)
Definition handle_record (st : State) (parsed : Parsed) : State :=
  let st1 := handle_delta st parsed in
  match p_output parsed with
  | Some items => fold_left handle_item items st1
  | None => st1
  end.

(** The text fragments sent to the client: the texts of the
    [content_block_delta] events written. *)
Definition delta_text (e : Event) : option string :=
  match data e with
  | DContentBlockDelta _ _ text => Some text
  | _ => None
  end.

Definition fragments (st : State) : list string :=
  omap delta_text (written st).

(** The terminal events written by both [catch] blocks. *)
Definition error_tail (message : string) : list Event :=
  [ createContentBlockDeltaEvent ("Error: " +:+ message) 0;
    createContentBlockStopEvent 0;
    createMessageDeltaEvent 0;
    createMessageStopEvent ].

(** What the route has done to the response and to the store when it
    is finished with a streaming request. *)
Record Outcome := mkOutcome {
  events : list Event;
  ended : bool;                 (* [res.end()] was called *)
  saved : option string         (* the assistant turn appended *)
}.

(** How the upstream call went: [callYouApi] threw, or gave a body. *)
Inductive Upstream := Refused (message : string) | Opened (body : Body).

Section Route.
(** [JSON.parse] followed by the field reads; [None] when it throws. *)
Variable JSON_parse : string → option Parsed.

(** The body of [for (const line of lines)]. *)
Definition handle_line (st : State) (line : string) : State :=
  if startsWith line "data: " then
    let data := slice line 6 in
    if String.eqb data "[DONE]" then st
    else match JSON_parse data with
         | Some parsed => handle_record st parsed
         | None => st
         end
  else st.

(** [processStream()], started on the state left by the two opening
    writes. *)
Definition processStream (conversationId : string) (body : Body)
  (st0 : State) : Outcome :=
  let '(st, _) := read_all handle_line st0 (values body) in
  match ending body with
  | Done =>
      {| events :=
           written st
           ++ [ createContentBlockStopEvent 0;
                createMessageDeltaEvent
                  (Z.of_nat (String.length (fullContent st)) / 4);
                createMessageStopEvent ];
         ended := true;
         saved := if truthy conversationId && truthy (fullContent st)
                  then Some (fullContent st) else None |}
  | Broken message =>
      {| events := written st ++ error_tail message;
         ended := true; saved := None |}
  end.

(** The [if (stream)] branch of the [/v1/messages] handler. *)
Definition stream_messages (model conversationId : string)
  (up : Upstream) : Outcome :=
  let st0 :=
    {| fullContent := "";
       written := [ createMessageStartEvent model (Some conversationId);
                    createContentBlockStartEvent 0 ] |} in
  match up with
  | Opened body => processStream conversationId body st0
  | Refused message =>
      {| events := written st0 ++ error_tail message;
         ended := true; saved := None |}
  end.

End Route.

(** ** The vocabulary of the statements about the handler *)

(** The delta event of a fragment. *)
Definition delta_event (f : string) : Event :=
  createContentBlockDeltaEvent f 0.

(** A state in which only deltas were written and the accumulated text
    is as long as the fragments together. *)
Definition tidy (st : State) : Prop :=
  written st = delta_event <$> fragments st
  ∧ String.length (fullContent st) = String.length (concat (fragments st)).

(** The same state with [pre] written before everything else. *)
Definition after (pre : list Event) (st : State) : State :=
  {| fullContent := fullContent st; written := pre ++ written st |}.

End Typed.

(** ** The flat-delta route ([lib/routes/chat.js],
    [handleStreamingResponse]) with [createStreamChunk] of
    [lib/openai-mapper.js]. The idle timer is not part of the model: it is
    taken not to fire. Wall-clock fields ([id], [created]) are left out. *)
Module Flat.

Record StreamChunk := mkChunk {
  object : string;
  model : string;
  index : Z;
  delta_content : option string;     (* [delta.content], absent in [{}] *)
  finish_reason : option string
}.

Definition createStreamChunk (model : string) (content : option string)
  (finishReason : option string) : StreamChunk :=
  {| object := "chat.completion.chunk";
     model := "you-" +:+ model;
     index := 0;
     delta_content := if truthy_opt content then content else None;
     finish_reason := finishReason |}.

(** One record [data: <payload>\n\n] written to [res]: the JSON text of
    a chunk, or a literal payload. *)
Inductive Frame :=
| Json (chunk : StreamChunk)
| Literal (payload : string).

Record State := mkState {
  fullContent : string;
  written : list Frame
}.

Record Outcome := mkOutcome {
  frames : list Frame;
  ended : bool;
  saved : option string
}.

Section Route.
Variable JSON_parse : string → option Parsed.
(** [req.body.model || 'advanced'] *)
Variable model : string.

Definition handle_line (st : State) (line : string) : State :=
  if startsWith line "data: " then
    match JSON_parse (slice line 6) with
    | Some data =>
        if is_text_delta data then
          let delta := default "" (response_delta data) in
          {| fullContent := fullContent st +:+ delta;
             written :=
               written st
               ++ [Json (createStreamChunk model (Some delta) None)] |}
        else st
    | None => st
    end
  else st.

(** The [finally] block. *)
Definition finish : list Frame :=
  [ Json (createStreamChunk model None (Some "stop"));
    Literal "[DONE]" ].

Definition handleStreamingResponse (conversationId : string)
  (body : option Body) : Outcome :=
  match body with
  | None =>
      {| frames := [Literal (qq "{'error': 'No response body'}")];
         ended := true; saved := None |}
  | Some body =>
      let '(st, _) :=
        read_all handle_line {| fullContent := ""; written := [] |}
                 (values body) in
      match ending body with
      | Done =>
          {| frames := written st ++ finish;
             ended := true;
             saved := if truthy conversationId && truthy (fullContent st)
                      then Some (fullContent st) else None |}
      | Broken message =>
          {| frames :=
               written st
               ++ [Literal (qq "{'error': 'Streaming error: "
                            +:+ message +:+ qq "'}")]
               ++ finish;
             ended := true; saved := None |}
      end
  end.

Definition chunk_content (f : Frame) : option string :=
  match f with
  | Json c => delta_content c
  | Literal _ => None
  end.

Definition is_terminal (f : Frame) : bool :=
  match f with
  | Json c => bool_decide (finish_reason c ≠ None)
  | Literal _ => false
  end.

Definition is_done (f : Frame) : bool :=
  match f with
  | Literal p => String.eqb p "[DONE]"
  | Json _ => false
  end.
End Route.

(** The delta chunk of a fragment. *)
Definition delta_chunk (model f : string) : Frame :=
  Json (createStreamChunk model (Some f) None).

End Flat.

(** ** The fragment sequence of section 4.3, read off the whole text *)

(** The complete lines of a text: all but what follows the last line
    feed; and that unfinished rest. *)
Definition complete_lines (text : string) : list string :=
  removelast (split_nl text).

Definition unfinished (text : string) : string :=
  default "" (last (split_nl text)).

Section Fragments.
Variable JSON_parse : string → option Parsed.

(** The records of the [data: ] lines that parse; [skip_done] is the
    typed route's test for the [[DONE]] payload. *)
Definition record_of (skip_done : bool) (line : string) : option Parsed :=
  if startsWith line "data: " then
    if skip_done && String.eqb (slice line 6) "[DONE]" then None
    else JSON_parse (slice line 6)
  else None.

Definition records (skip_done : bool) (text : string) : list Parsed :=
  omap (record_of skip_done) (complete_lines text).

(** Delta-style fragments, as the flat route extracts them. *)
Definition delta_of (p : Parsed) : option string :=
  if is_text_delta p then response_delta p else None.

Definition flat_fragments (text : string) : list string :=
  omap delta_of (records false text).

(** The fragments of the typed route: what its record handler emits
    over the records of the text, started with nothing accumulated. *)
Definition typed_state (text : string) : Typed.State :=
  fold_left Typed.handle_record (records true text)
            {| Typed.fullContent := ""; Typed.written := [] |}.

Definition typed_fragments (text : string) : list string :=
  Typed.fragments (typed_state text).
End Fragments.

(** ** Sample records and payloads *)

(** A delta-style record and a full-replacement record with one item. *)
Definition delta_record (delta : string) : Parsed :=
  {| p_type := Some "response.output_text.delta";
     p_response := Some {| r_type := Some "message.answer";
                           r_delta := Some delta |};
     p_output := None |}.

Definition answer_item (text : string) : OutputItem :=
  {| i_type := Some "message.answer"; i_text := Some text |}.

Definition output_record (texts : list string) : Parsed :=
  {| p_type := None; p_response := None;
     p_output := Some (answer_item <$> texts) |}.

(** The JSON text of a delta record whose delta needs no escaping. *)
Definition delta_payload (delta : string) : string :=
  qq "{'type':'response.output_text.delta','response':{'type':'message.answer','delta':'"
  +:+ delta +:+ qq "'}}".

(** One upstream SSE record as it travels: [data: <payload>\n\n]. *)
Definition sse_data (payload : string) : string :=
  "data: " +:+ payload +:+ nl +:+ nl.

(** The two network chunks of the reassembly test of section 8: one
    record cut inside the value of its [type]. *)
Definition cut_chunk_1 : string := qq "data: {'type':'respo".
Definition cut_chunk_2 : string :=
  qq "nse.output_text.delta','response':{'type':'message.answer','delta':'hi'}}"
  +:+ nl +:+ nl.

(** A parser given by a finite table of payloads. *)
Definition table_parse (table : list (string * Parsed)) (data : string)
  : option Parsed :=
  snd <$> List.find (λ e, String.eqb (fst e) data) table.

(** ** Sample states, values and parsers *)

(** Nothing accumulated, nothing written. *)
Definition fresh : Typed.State :=
  {| Typed.fullContent := ""; Typed.written := [] |}.

(** The state after one full-replacement record with text "ab". *)
Definition sent_ab : Typed.State :=
  Typed.handle_record fresh (output_record ["ab"]).

(** A parser that knows the record of the reassembly test. *)
Definition hi_parser : string → option Parsed :=
  table_parse [(delta_payload "hi", delta_record "hi")].

(** The fragments "Hel", "lo", " world" as three upstream records, and a
    parser that knows them. *)
Definition three_values : list string :=
  [ sse_data (delta_payload "Hel"); sse_data (delta_payload "lo");
    sse_data (delta_payload " world") ].

Definition three_parser : string → option Parsed :=
  table_parse [ (delta_payload "Hel", delta_record "Hel");
                (delta_payload "lo", delta_record "lo");
                (delta_payload " world", delta_record " world") ].

(** ** The vocabulary of the claims about the typed route's output list *)

(** The fragments an item adds to what was written before it. *)
Definition item_fragments (st : Typed.State) (item : OutputItem)
  : list string :=
  drop (length (Typed.fragments st))
       (Typed.fragments (Typed.handle_item st item)).

(** The texts of a run of full-replacement records that starts from the
    text [acc] and grows by one increment per record. *)
Fixpoint growing (acc : string) (incs : list string) : list string :=
  match incs with
  | [] => []
  | inc :: rest => (acc +:+ inc) :: growing (acc +:+ inc) rest
  end.

(** [p] is an initial part of [s]. *)
Definition str_prefix (p s : string) : Prop := ∃ r, s = p +:+ r.

(** "Emit only the suffix of the item's text not already emitted", in the
    specification's words: the item's text is something already sent to
    the client followed by exactly what is emitted for the item now. *)
Definition sends_unsent_suffix (st : Typed.State) (item : OutputItem)
  : Prop :=
  ∀ text,
    i_type item = Some "message.answer" → i_text item = Some text →
    ∃ sent, str_prefix sent (concat (Typed.fragments st))
            ∧ text = sent +:+ concat (item_fragments st item).

End Stream.

(** * Reading the rotation state ([index.js], [getKeyStatus]) *)

Module KeyStatus.
Import Js Keys.

(** [s.substring(start, end)], [end] left out when [None]: both bounds are
    clamped to [0 .. s.length] and swapped when they come in the wrong
    order. *)
Definition substring (s : string) (start : Z) (stop : option Z) : string :=
  let len := Z.of_nat (String.length s) in
  let clamp := λ x, Z.max 0 (Z.min x len) in
  let a := clamp start in
  let b := match stop with Some e => clamp e | None => len end in
  String.substring (Z.to_nat (Z.min a b)) (Z.to_nat (Z.abs (b - a))) s.

(** [`${key.substring(0, 8)}...${key.substring(key.length - 4)}`] *)
Definition preview_of (key : string) : string :=
  substring key 0 (Some 8) +:+ "..."
  +:+ substring key (Z.of_nat (String.length key) - 4) None.

(** One element of [status.keys]. *)
Record KeyRow := mkKeyRow {
  index : nat;
  key_preview : string;
  usage_count : nat;
  error_count : nat;
  is_current : bool
}.

Record Status := mkStatus {
  total_keys : nat;
  key_mode : string;
  current_key_index : nat;
  keys : list KeyRow
}.

(** [getKeyStatus()], before [JSON.stringify]. *)
Definition getKeyStatus (API_KEYS : list string) (KEY_MODE : string)
  (s : State) : Status :=
  {| total_keys := length API_KEYS;
     key_mode := KEY_MODE;
     current_key_index := currentKeyIndex s;
     keys :=
       imap (λ index key,
               {| index := index;
                  key_preview := preview_of key;
                  usage_count := default 0%nat (keyUsageCount s !! Some key);
                  error_count := default 0%nat (keyErrorCount s !! Some key);
                  is_current := bool_decide (index = currentKeyIndex s) |})
            API_KEYS |}.

(** ** The vocabulary of the statements about runs of the rotator *)

(** The random draw of a call lies in the pool:
    [Math.floor(Math.random() * n)] is below [n]. *)
Definition draw_in_range (n : nat) (op : Op) : bool :=
  match op with Get rnd => (rnd <? n)%nat | MarkLast => true end.

Definition is_get (op : Op) : bool :=
  match op with Get _ => true | MarkLast => false end.

(** How often [key] occurs among the keys handed out. *)
Definition handouts (key : Key) (ks : list Key) : nat :=
  length (filter (λ k, k = key) ks).

(** A sample pool and run. *)
Definition pool3 : list string := ["key-aaaa-0001"; "key-bbbb-0002"; "k3"].
Definition ops5 : list Op := [Get 2; Get 0; MarkLast; Get 1; Get 1].

End KeyStatus.

(** * Housekeeping of the conversation store
      ([lib/conversation-store.js], [index.js]) *)

Module Housekeeping.
Import Js Store.

Definition CONVERSATION_TTL : Z := 24 * 60 * 60 * 1000.
Definition MAX_CONVERSATIONS : Z := 1000.

(** ** [cleanupConversations], memory branch. What it deletes depends on
    the order in which [memoryStore.entries()] lists the conversations, so
    the [Map] is held here as that list: its entries in insertion order,
    one per id. *)
Abbreviation Entries := (list (string * Conversation)).

(** [memoryStore.delete(id)] *)
Definition map_delete (id : string) (m : Entries) : Entries :=
  filter (λ e, fst e ≠ id) m.

(** The body of the first loop, run on one entry: [deleted] counts. *)
Definition drop_expired (expireTime : Z) (acc : Entries * Z)
  (e : string * Conversation) : Entries * Z :=
  let '(m, deleted) := acc in
  if updatedAt (snd e) <? expireTime
  then (map_delete (fst e) m, deleted + 1)
  else (m, deleted).

(** [[...entries].sort((a, b) => a[1].updatedAt - b[1].updatedAt)]: the
    sort of an array is stable, which fixes its result; it is computed
    here by insertion from the right. *)
Fixpoint insert_by_age (e : string * Conversation) (sorted : Entries)
  : Entries :=
  match sorted with
  | [] => [e]
  | x :: rest =>
      if updatedAt (snd e) <=? updatedAt (snd x) then e :: sorted
      else x :: insert_by_age e rest
  end.

Definition sort_by_age (l : Entries) : Entries :=
  foldr insert_by_age [] l.

(** [cleanupConversations()] run at time [now]: the number it returns and
    the map it leaves. *)
Definition cleanupConversations (now : Z) (m : Entries) : Z * Entries :=
  let expireTime := now - CONVERSATION_TTL in
  let '(m1, deleted) := fold_left (drop_expired expireTime) m (m, 0) in
  if MAX_CONVERSATIONS <? Z.of_nat (length m1) then
    let sorted := sort_by_age m1 in
    let toDelete :=
      take (Z.to_nat (Z.of_nat (length m1) - MAX_CONVERSATIONS)) sorted in
    (deleted + Z.of_nat (length toDelete),
     fold_left (λ acc e, map_delete (fst e) acc) toDelete m1)
  else (deleted, m1).

(** ** The vocabulary of the statements about [cleanupConversations] *)

(** [x] was not used after [y]. *)
Definition older (x y : string * Conversation) : Prop :=
  updatedAt (snd x) ≤ updatedAt (snd y).

(** In ascending order of [updatedAt]. *)
Fixpoint ascending (l : Entries) : Prop :=
  match l with
  | [] => True
  | x :: rest => Forall (older x) rest ∧ ascending rest
  end.

(** A conversation the first loop keeps. *)
Definition fresh_at (now : Z) (e : string * Conversation) : Prop :=
  now - CONVERSATION_TTL ≤ updatedAt (snd e).

#[global] Instance fresh_at_dec (now : Z) (e : string * Conversation)
  : Decision (fresh_at now e) :=
  decide (now - CONVERSATION_TTL ≤ updatedAt (snd e)).

(** ** The hourly sweep of [index.js] over [conversationStore]. *)
Definition sweep (now : Z) (store : gmap string Conversation)
  : gmap string Conversation :=
  map_fold (λ id conv acc,
              if CONVERSATION_TTL <? now - updatedAt conv
              then delete id acc else acc)
           store store.

(** ** [deleteConversation] of [lib/conversation-store.js], SQLite
    branch. *)
Module Sql.
Import Store.Sql.

(** [deleteConversation(conversationId)]: both [DELETE]s; it returns
    [true]. *)
Definition deleteConversation (conversationId : string) (db : Db)
  : bool * Db :=
  (true,
   {| conversations := delete conversationId (conversations db);
      rows := filter (λ r, of_conv conversationId r ≠ true) (rows db);
      seq := seq db |}).

End Sql.

(** The memory branch: [memoryStore.delete] tells whether the id was
    there. *)
Module Memory.

Definition deleteConversation (conversationId : string)
  (store : gmap string Conversation)
  : bool * gmap string Conversation :=
  (bool_decide (is_Some (store !! conversationId)),
   delete conversationId store).

(** [clearAllConversations()]: the size before, and the map emptied. *)
Definition clearAllConversations (store : gmap string Conversation)
  : Z * gmap string Conversation :=
  (Z.of_nat (size store), ∅).

End Memory.

(** The turns the table holds for a conversation, as [getConversation]
    reads them. *)
Definition turns_of (cid : string) (db : Store.Sql.Db) : list Message :=
  (λ r, {| role := Store.Sql.row_role r; content := Store.Sql.row_content r;
           timestamp := Store.Sql.row_timestamp r |})
  <$> Store.Sql.select_conv cid db.

(** Sample data: three conversations, the first one day and a
    millisecond old at time [100000000]. *)
Definition conv_at (cid : string) (t : Z) : string * Conversation :=
  (cid, {| id := cid; messages := []; createdAt := t; updatedAt := t;
           metadata := ∅ |}).

Definition three : Entries :=
  [conv_at "a" 13599999; conv_at "b" 13600000; conv_at "c" 99000000].

End Housekeeping.

(** * Prompt assembly of the Anthropic mapper and the merge with the stored
      history ([lib/anthropic-mapper.js], [lib/routes/chat.js], [index.js]) *)

Module History.
Import Js Assembler.

(** ** [mapAnthropicToYouParams]: the [input] it computes *)

(** One element of an array-valued [content]. *)
Record Block := mkBlock { b_type : option string; b_text : option string }.

(** [msg.content]: a string, or an array of blocks. *)
Inductive Content := Str (s : string) | Arr (blocks : list Block).

Record AMsg := mkAMsg { a_role : string; a_content : Content }.

(** [typeof msg.content === 'string' ? msg.content :
     msg.content.filter(c => c.type === 'text').map(c => c.text).join('\n')];
    [join] writes an absent text as the empty string. *)
Definition text_of (c : Content) : string :=
  match c with
  | Str s => s
  | Arr blocks =>
      join nl ((λ c, default "" (b_text c))
                 <$> filter (λ c, b_type c = Some "text") blocks)
  end.

(** The [messages.forEach] loop of the Anthropic mapper. *)
Definition visit_anthropic (conversationHistory : list string) (msg : AMsg)
  : list string :=
  if String.eqb (a_role msg) "user" then
    conversationHistory ++ ["User: " +:+ text_of (a_content msg)]
  else if String.eqb (a_role msg) "assistant" then
    conversationHistory ++ ["Assistant: " +:+ text_of (a_content msg)]
  else conversationHistory.

(** The [input] field computed by [mapAnthropicToYouParams]; [system] is
    the request's [system] field, [None] when it is absent. *)
Definition mapAnthropicToYouParams_input (system : option string)
  (messages : list AMsg) : string :=
  let input :=
    if truthy_opt system
    then "[System Instructions]" +:+ nl +:+ default "" system +:+ nl +:+ nl
    else "" in
  let conversationHistory := fold_left visit_anthropic messages [] in
  if (1 <? length conversationHistory)%nat then
    (input +:+
     ("[Conversation History]" +:+ nl
      +:+ join (nl +:+ nl) (removelast conversationHistory) +:+ nl +:+ nl))
    +:+ ("[Current Message]" +:+ nl
         +:+ strip_user_label (default "" (last conversationHistory)))
  else if (length conversationHistory =? 1)%nat then
    input +:+ strip_user_label (default "" (head conversationHistory))
  else input.

(** The message list of the OpenAI shape that says the same: the system
    field as a leading system message, every message with its text, the
    messages of role [system] left out. *)
Definition flatten (m : AMsg) : Msg :=
  {| role := a_role m; content := text_of (a_content m) |}.

Definition as_openai (system : option string) (messages : list AMsg)
  : list Msg :=
  (if truthy_opt system
   then [{| role := "system"; content := default "" system |}] else [])
  ++ (flatten <$> filter (λ m, a_role m ≠ "system") messages).

(** ** The merge of a request with the stored conversation, written out
    in the [/v1/chat/completions] handler and again in [callChat]. *)

Definition is_role (r : string) (m : Msg) : bool := String.eqb (role m) r.

(** [m => ({ role: m.role, content: m.content })] *)
Definition as_msg (m : Store.Message) : Msg :=
  {| role := Store.role m; content := Store.content m |}.

(** [fullMessages] after the merge; [stored] is [existingConv.messages]
    ([[]] when there is no such conversation) and [messages] the
    request's. *)
Definition merge (stored : list Store.Message) (messages : list Msg)
  : list Msg :=
  if (0 <? length stored)%nat then
    let storedMessages := as_msg <$> stored in
    let systemMsg :=
      match find (is_role "system") messages with
      | Some m => Some m
      | None => find (is_role "system") storedMessages
      end in
    let fullMessages :=
      (match systemMsg with Some m => [m] | None => [] end)
      ++ filter (λ m, is_role "system" m = false) storedMessages in
    match last (filter (λ m, is_role "user" m = true) messages) with
    | Some lastNewUserMsg =>
        if existsb (λ m, is_role "user" m
                         && String.eqb (content m) (content lastNewUserMsg))
                   fullMessages
        then fullMessages
        else fullMessages ++ [lastNewUserMsg]
    | None => fullMessages
    end
  else messages.

(** [fullMessages.filter(m => m.role === 'user').pop()]: the turn both
    callers then append to the store as the user's. *)
Definition lastUserMsg (fullMessages : list Msg) : option Msg :=
  last (filter (λ m, is_role "user" m = true) fullMessages).

(** The stored turns the merge takes over: all but the system turns. *)
Definition kept_turns (stored : list Store.Message) : list Msg :=
  filter (λ m, is_role "system" m = false) (as_msg <$> stored).

(** The last system message of a list, if any. *)
Definition last_system (messages : list Msg) : option Msg :=
  last (filter (λ m, is_role "system" m = true) messages).

(** Sample data. *)
Definition stored2 : list Store.Message :=
  [ {| Store.role := "user"; Store.content := "yes"; Store.timestamp := 1 |};
    {| Store.role := "assistant"; Store.content := "Sure.";
       Store.timestamp := 2 |};
    {| Store.role := "user"; Store.content := "no"; Store.timestamp := 3 |};
    {| Store.role := "assistant"; Store.content := "Fine.";
       Store.timestamp := 4 |} ].

Definition blocks2 : list AMsg :=
  [ {| a_role := "user";
       a_content := Arr [ {| b_type := Some "text"; b_text := Some "Look" |};
                          {| b_type := Some "image"; b_text := None |};
                          {| b_type := Some "text"; b_text := Some "here" |} ] |};
    {| a_role := "assistant"; a_content := Str "Yes?" |};
    {| a_role := "user"; a_content := Str "Go on" |} ].

End History.

(** * Replies that are not streamed ([lib/api-client.js],
      [lib/openai-mapper.js], [lib/anthropic-mapper.js] and the two routes) *)

Module Reply.
Import Js Stream.

(** [output.filter(item => item.type === 'message.answer')
          .map(item => item.text)]; [join] writes an absent text as the
    empty string. *)
Definition answer_texts (output : list OutputItem) : list string :=
  (λ item, default "" (i_text item))
  <$> filter (λ item, i_type item = Some "message.answer") output.

(** The [content] both converters compute; [output] is [None] when
    [youResponse.output] is absent or not an array. *)
Definition content_of (output : option (list OutputItem)) : string :=
  match output with
  | Some items => join (nl +:+ nl) (answer_texts items)
  | None => "No response content"
  end.

(** [extractText(data)]; [raw] is [JSON.stringify(data, null, 2)]. *)
Definition extractText (output : option (list OutputItem)) (raw : string)
  : string :=
  match output with
  | Some items => join (nl +:+ nl) (answer_texts items)
  | None => raw
  end.

(** [convertToOpenAIResponse(youResponse, model)]; the ids and times read
    from the clock are left out, [draw1] and [draw2] are the two values of
    [Math.floor(Math.random() * 100)]. *)
Record ChatCompletion := mkCompletion {
  object : string;
  model : string;
  message_role : string;
  message_content : string;
  finish_reason : string;
  prompt_tokens : Z;
  completion_tokens : Z;
  total_tokens : Z
}.

Definition convertToOpenAIResponse (output : option (list OutputItem))
  (model : string) (draw1 draw2 : Z) : ChatCompletion :=
  let content := content_of output in
  {| object := "chat.completion";
     model := "you-" +:+ model;
     message_role := "assistant";
     message_content := content;
     finish_reason := "stop";
     prompt_tokens := draw1 + 50;
     completion_tokens := Z.of_nat (String.length content) / 4;
     total_tokens := draw2 + 50 + Z.of_nat (String.length content) / 4 |}.

(** [convertToAnthropicResponse(youResponse, model, inputTokens = 100)] *)
Record AnthropicMessage := mkMessage {
  a_type : string;
  a_role : string;
  a_text : string;                  (* [content[0].text] *)
  a_model : string;
  stop_reason : string;
  input_tokens : Z;
  output_tokens : Z
}.

Definition convertToAnthropicResponse (output : option (list OutputItem))
  (model : string) (inputTokens : Z) : AnthropicMessage :=
  let content := content_of output in
  {| a_type := "message";
     a_role := "assistant";
     a_text := content;
     a_model := model;
     stop_reason := "end_turn";
     input_tokens := inputTokens;
     output_tokens := Z.of_nat (String.length content) / 4 |}.

(** [handleNonStreamingResponse] of [lib/routes/chat.js]: the body it
    answers with, the [conversation_id] it adds to it, and the turn it
    stores as the assistant's, if any:
    [if (assistantContent && conversationId) addMessageToConversation(...)]. *)
Definition handleNonStreamingResponse (output : option (list OutputItem))
  (model conversationId : string) (draw1 draw2 : Z)
  : ChatCompletion * string * option string :=
  let openaiResponse := convertToOpenAIResponse output model draw1 draw2 in
  let assistantContent := message_content openaiResponse in
  (openaiResponse, conversationId,
   if truthy assistantContent && truthy conversationId
   then Some assistantContent else None).

(** The branch of the [/v1/messages] handler for a request that is not
    streamed: the body, the [metadata.conversation_id] added to it when
    the turn is stored, and the turn stored. *)
Definition messages_not_streamed (output : option (list OutputItem))
  (model conversationId : string)
  : AnthropicMessage * option string * option string :=
  let anthropicResponse := convertToAnthropicResponse output model 100 in
  let assistantContent := a_text anthropicResponse in
  if truthy conversationId && truthy assistantContent
  then (anthropicResponse, Some conversationId, Some assistantContent)
  else (anthropicResponse, None, None).

(** Sample output lists. *)
Definition searched : list OutputItem :=
  [ {| i_type := Some "web_search.results"; i_text := None |};
    answer_item "First."; answer_item "Second." ].

End Reply.

(** * Accounting of the [you_agent] tool ([index.js], [callCustomAgent]) *)

Module ToolAccounting.
Import CustomAgent.

(** [Math.max(1, Math.min(10, call_count))] *)
Definition clamped (a : Args) : Z := Z.max 1 (Z.min 10 (call_count a)).

(** The upstream calls a reply accounts for besides the answers asked
    for: the probe, and the summary of a multi-call. *)
Definition probe_calls (a : Args) : Z := if auto_enhance a then 1 else 0.

Definition summary_calls (a : Args) (r : Reply) : Z :=
  match r with
  | Multi _ successful _ _ _ _ _ _ _ =>
      if want_summary a && (1 <? successful) then 1 else 0
  | _ => 0
  end.

(** What a reply must say about the calls made for it. *)
Definition accounted (a : Args) (r : Reply) : Prop :=
  match r with
  | SingleOk _ _ _ _ | SingleFailed _ _ _ _ => clamped a = 1
  | Multi total successful failed _ _ _ _ results _ =>
      1 < clamped a ∧ total = clamped a
      ∧ 0 ≤ successful ∧ 0 ≤ failed ∧ successful + failed = total
      ∧ ∀ rs, results = Some rs →
          index <$> rs = Z.of_nat <$> List.seq 1 (Z.to_nat total)
          ∧ Z.of_nat (length (filter (λ x, success x = true) rs))
            = successful
  end.

(** A request for three answers with their listing. *)
Definition three_args : Args :=
  {| arg_input := "question"; arg_agent_id := "agent-1";
     auto_enhance := true; call_count := 3; want_summary := true;
     language := "en"; show_results := true |}.

(** An upstream whose second call fails. *)
Definition flaky : nat → Upstream :=
  λ n, if (n =? 1)%nat then Failed "503" else Ok "fine".

Definition run_three :=
  callCustomAgent Sample.pool "round-robin" 3 (λ _, 0%nat) flaky
                  (λ _, None) (λ i _ _, i) (λ _ i _, i) three_args
                  (Sample.world false).

End ToolAccounting.

(** * The conversation routes ([lib/routes/conversations.js]) over the
      memory branch of the store *)

Module ConversationRoutes.
Import Js Store.

(** What a route answers: the status and the fields of the JSON body.
    Times are kept as the numbers [toISOString] is given. *)
Inductive Answer :=
| NotFound       (* 404, [conversation_not_found] *)
| Found (id : string) (messages : list Message) (created_at updated_at : Z)
        (metadata : gmap string string)                          (* 200 *)
| Created (id : string) (created_at : Z)
          (metadata : gmap string string)                        (* 201 *)
| Deleted (id : string)                  (* 200, [{ deleted: true, id }] *)
| Cleared (count : Z).                (* 200, [{ deleted: true, count }] *)

(** [GET /v1/conversations/:id] *)
Definition get_conversation (now : Z) (id : string)
  (store : gmap string Conversation)
  : Answer * gmap string Conversation :=
  match Memory.getConversation now id store with
  | (Some conv, store1) =>
      (Found (Store.id conv) (messages conv) (createdAt conv)
             (updatedAt conv) (metadata conv), store1)
  | (None, store1) => (NotFound, store1)
  end.

(** [POST /v1/conversations]; [now1] and [now2] are the clock at the two
    store calls, [uuid] the id [generateConversationId()] gives. *)
Definition post_conversation (now1 now2 : Z) (uuid : string)
  (meta : gmap string string) (system_message : option string)
  (store : gmap string Conversation)
  : Answer * gmap string Conversation :=
  let '(conv, store1) := Memory.createConversation now1 uuid "" meta store in
  let store2 :=
    if truthy_opt system_message
    then snd (Memory.addMessageToConversation now2 uuid (Store.id conv)
                "system" (default "" system_message) store1)
    else store1 in
  (Created (Store.id conv) (createdAt conv) (metadata conv), store2).

(** [DELETE /v1/conversations/:id] *)
Definition delete_conversation (now : Z) (id : string)
  (store : gmap string Conversation)
  : Answer * gmap string Conversation :=
  match Memory.getConversation now id store with
  | (Some _, store1) =>
      (Deleted id, snd (Housekeeping.Memory.deleteConversation id store1))
  | (None, store1) => (NotFound, store1)
  end.

(** [DELETE /v1/conversations] *)
Definition delete_conversations (store : gmap string Conversation)
  : Answer * gmap string Conversation :=
  let '(count, store1) := Housekeeping.Memory.clearAllConversations store in
  (Cleared count, store1).

End ConversationRoutes.

(** * The custom agents of [YDC_CUSTOM_AGENTS], as [lib/openai-mapper.js]
      and [lib/routes/models.js] read them *)

Module CustomAgents.
Import Js.

(** [s.split(',')]-style splitting at one character: never empty. *)
Fixpoint split_at (sep : ascii) (s : string) : list string :=
  match s with
  | EmptyString => [EmptyString]
  | String c r =>
      if Ascii.eqb c sep then EmptyString :: split_at sep r
      else match split_at sep r with
           | [] => [String c EmptyString]
           | l :: ls => String c l :: ls
           end
  end.

(** [s.indexOf(c)], [-1] when [c] does not occur. *)
Fixpoint indexOf (c : ascii) (s : string) : Z :=
  match s with
  | EmptyString => -1
  | String d r =>
      if Ascii.eqb d c then 0
      else let i := indexOf c r in if i <? 0 then -1 else i + 1
  end.

Section Reader.
(** [String.prototype.trim] *)
Variable trim : string → string.

(** What both readers make of one entry of the list: nothing of an
    entry that is empty once trimmed, [name:id] cut at its first colon
    when that is not in front, the entry as its own name and id
    otherwise. *)
Definition read_entry (entry : string) : option (string * string) :=
  let trimmed := trim entry in
  if negb (truthy trimmed) then None
  else
    let colonIndex := indexOf ":" trimmed in
    if 0 <? colonIndex then
      Some (KeyStatus.substring trimmed 0 (Some colonIndex),
            KeyStatus.substring trimmed (colonIndex + 1) None)
    else Some (trimmed, trimmed).

(** [getCustomAgents()] of [lib/routes/models.js]: the list of
    [{ name, id }]. *)
Definition getCustomAgents_models (raw : string) : list (string * string) :=
  if negb (truthy raw) then []
  else omap read_entry (split_at "," raw).

(** [getCustomAgents()] of [lib/openai-mapper.js]: the [Map] from name
    to id, filled entry by entry. *)
Definition getCustomAgents (raw : string) : gmap string string :=
  if negb (truthy raw) then ∅
  else
    fold_left (λ map entry,
                 match read_entry entry with
                 | Some (name, id) => <[name := id]> map
                 | None => map
                 end)
              (split_at "," raw) ∅.
End Reader.

(** A [trim] for texts whose only white space is the blank. *)
Fixpoint trim_left (s : string) : string :=
  match s with
  | String " " r => trim_left r
  | _ => s
  end.

Fixpoint trim_right (s : string) : string :=
  match s with
  | EmptyString => EmptyString
  | String c r =>
      match c, trim_right r with
      | " "%char, EmptyString => EmptyString
      | _, r' => String c r'
      end
  end.

Definition trim_blanks (s : string) : string := trim_right (trim_left s).

End CustomAgents.
(** * Facts about the primitives *)

Module JsFacts.
Import Js.

Lemma str_app_cons (c : ascii) (a b : string) :
  String c a +:+ b = String c (a +:+ b).
Proof. reflexivity. Qed.

Lemma str_app_nil_l (s : string) : "" +:+ s = s.
Proof. reflexivity. Qed.

Lemma str_app_nil_r (s : string) : s +:+ "" = s.
Proof.
  induction s as [|c s IH]; [done |]. by rewrite str_app_cons, IH.
Qed.

Lemma str_app_assoc (a b c : string) : (a +:+ b) +:+ c = a +:+ b +:+ c.
Proof.
  induction a as [|x a IH]; [done |]. by rewrite !str_app_cons, IH.
Qed.

Lemma str_length_app (a b : string) :
  String.length (a +:+ b) = (String.length a + String.length b)%nat.
Proof.
  induction a as [|x a IH]; [done |]. rewrite str_app_cons; simpl. by rewrite IH.
Qed.

Lemma slice_app_length (a b : string) : slice (a +:+ b) (String.length a) = b.
Proof.
  induction a as [|x a IH]; [by destruct b |]. by rewrite str_app_cons.
Qed.

Lemma slice_length (s : string) (n : nat) :
  String.length (slice s n) = (String.length s - n)%nat.
Proof.
  revert s; induction n as [|n IH]; intros [|c s]; simpl; auto with lia.
Qed.

Lemma truthy_length (s : string) : truthy s = true ↔ (0 < String.length s)%nat.
Proof. destruct s; simpl; split; (done || lia). Qed.

Lemma startsWith_app (p s : string) : startsWith (p +:+ s) p = true.
Proof.
  induction p as [|c p IH]; [done |].
  rewrite str_app_cons; simpl. by rewrite Ascii.eqb_refl, IH.
Qed.

Lemma concat_cons (x : string) (xs : list string) :
  concat (x :: xs) = x +:+ concat xs.
Proof. reflexivity. Qed.

Lemma concat_app (xs ys : list string) :
  concat (xs ++ ys) = concat xs +:+ concat ys.
Proof.
  induction xs as [|x xs IH]; [done |].
  rewrite <- app_comm_cons, !concat_cons, IH. by rewrite str_app_assoc.
Qed.

Lemma split_nl_nonempty (s : string) : split_nl s ≠ [].
Proof.
  induction s as [|c s IH]; simpl; [done |].
  destruct (Ascii.eqb c LF); [done |]. by destruct (split_nl s).
Qed.

(** Splitting a concatenation: the complete lines of the first part stay,
    its unfinished last line is continued by the second part. *)
Lemma split_nl_cons (c : ascii) (r : string) :
  split_nl (String c r) =
  if Ascii.eqb c LF then EmptyString :: split_nl r
  else match split_nl r with
       | [] => [String c EmptyString]
       | l :: ls => String c l :: ls
       end.
Proof. reflexivity. Qed.

Lemma split_nl_app (a b : string) :
  split_nl (a +:+ b) =
  removelast (split_nl a) ++ split_nl (default "" (last (split_nl a)) +:+ b).
Proof.
  induction a as [|c a IH]; [done |].
  rewrite str_app_cons, !split_nl_cons, IH.
  pose proof (split_nl_nonempty a) as Hne.
  destruct (split_nl a) as [|l ls] eqn:Ha; [done |].
  destruct (Ascii.eqb c LF) eqn:Hc; [done |].
  destruct ls as [|l' ls']; [| done].
  simpl. by rewrite Hc.
Qed.

Lemma startsWith_split (s p : string) :
  startsWith s p = true → s = p +:+ slice s (String.length p).
Proof.
  revert s; induction p as [|c p IH]; intros s H; [reflexivity |].
  destruct s as [|d s]; [done |]. simpl in H.
  apply andb_prop in H as [Hc Hs]. apply Ascii.eqb_eq in Hc as ->.
  rewrite str_app_cons. simpl. f_equal. by apply IH.
Qed.

Lemma startsWith_truthy (s : string) (c : ascii) (p : string) :
  startsWith s (String c p) = true → truthy s = true.
Proof. by destruct s. Qed.

End JsFacts.


(** * The bearer-token middleware *)

Module AuthFacts.
Import Js JsFacts Auth.

Lemma includes_spec (tokens : list string) (t : string) :
  includes tokens t = true ↔ t ∈ tokens.
Proof. unfold includes. apply bool_decide_eq_true. Qed.

Lemma reject_without_bearer (tokens : list string) (s : string) :
  startsWith s "Bearer " = false →
  status_of (authenticate tokens (Some s)) = Some 401.
Proof.
  intros H. unfold authenticate. rewrite H.
  by rewrite orb_true_r.
Qed.

(** C10. A request whose Authorization header is absent or does not start
    with [Bearer ] is answered 401; when at least one access token is
    configured, a header that presents none of them is answered 401; when
    no access token is configured, every header starting with [Bearer ] is
    passed on, whatever follows the prefix. *)
Theorem authenticate_bearer_policy (ACCESS_TOKENS : list string) :
  (∀ h : option string,
     h = None ∨ (∃ s, h = Some s ∧ startsWith s "Bearer " = false) →
     status_of (authenticate ACCESS_TOKENS h) = Some 401)
  ∧ (∀ s : string,
       ACCESS_TOKENS ≠ [] →
       (∀ t, t ∈ ACCESS_TOKENS → s ≠ "Bearer " +:+ t) →
       status_of (authenticate ACCESS_TOKENS (Some s)) = Some 401)
  ∧ (∀ s : string,
       ACCESS_TOKENS = [] →
       startsWith s "Bearer " = true →
       authenticate ACCESS_TOKENS (Some s) = Next).
Proof.
  split; [| split].
  - intros h [-> | (s & -> & Hs)]; [done |].
    by apply reject_without_bearer.
  - intros s Hne Hnone.
    destruct (startsWith s "Bearer ") eqn:Hs;
      [| by apply reject_without_bearer].
    unfold authenticate, REQUIRE_TOKEN_AUTH.
    rewrite Hs, (startsWith_truthy _ _ _ Hs).
    destruct ACCESS_TOKENS as [|t0 ts] eqn:Htok; [done |].
    destruct (includes (t0 :: ts) (slice s 7)) eqn:Hin; [| reflexivity].
    apply includes_spec in Hin. exfalso.
    apply (Hnone _ Hin). by apply (startsWith_split s "Bearer ").
  - intros s -> Hs. unfold authenticate.
    by rewrite Hs, (startsWith_truthy _ _ _ Hs).
Qed.

Lemma authenticate_bearer_policy_witness :
  status_of (authenticate ["s3cret"] None) = Some 401
  ∧ status_of (authenticate ["s3cret"] (Some "Basic s3cret")) = Some 401
  ∧ status_of (authenticate ["s3cret"] (Some "Bearer guess")) = Some 401
  ∧ authenticate [] (Some "Bearer guess") = Next.
Proof.
  split; [| split; [| split]].
  - apply (proj1 (authenticate_bearer_policy ["s3cret"])). by left.
  - apply (proj1 (authenticate_bearer_policy ["s3cret"])).
    right. exists "Basic s3cret". split; reflexivity.
  - apply (proj1 (proj2 (authenticate_bearer_policy ["s3cret"]))).
    + discriminate.
    + intros t Ht. apply list_elem_of_singleton in Ht as ->. discriminate.
  - apply (proj2 (proj2 (authenticate_bearer_policy []))); reflexivity.
Defined.

(** A configured token presented after the prefix is accepted. *)
Lemma authenticate_accepts_configured (tokens : list string) (t : string) :
  t ∈ tokens → authenticate tokens (Some ("Bearer " +:+ t)) = Next.
Proof.
  intros Hin. unfold authenticate.
  rewrite (startsWith_app "Bearer " t).
  change (truthy ("Bearer " +:+ t)) with true.
  change (slice ("Bearer " +:+ t) 7) with t.
  apply includes_spec in Hin. rewrite Hin.
  by destruct (REQUIRE_TOKEN_AUTH tokens).
Qed.

End AuthFacts.

(** * Key rotation *)

Module KeysFacts.
Import Keys.

Section Pool.
Variables A B : string.
Let pool : list string := [A; B].

(** What a call returns and where it leaves the cursor, per policy. *)
Lemma round_robin_step (rnd : nat) (s : State) :
  ∃ s', getNextApiKey pool "round-robin" rnd s
        = Some (pool !! currentKeyIndex s, s')
        ∧ currentKeyIndex s' = ((currentKeyIndex s + 1) mod 2)%nat.
Proof. eexists; split; reflexivity. Qed.

Lemma sequential_step (rnd : nat) (s : State) :
  ∃ s', getNextApiKey pool "sequential" rnd s
        = Some (pool !! currentKeyIndex s, s')
        ∧ currentKeyIndex s' = currentKeyIndex s.
Proof. eexists; split; reflexivity. Qed.

Lemma random_step (rnd : nat) (s : State) :
  ∃ s', getNextApiKey pool "random" rnd s = Some (pool !! rnd, s')
        ∧ currentKeyIndex s' = currentKeyIndex s.
Proof. eexists; split; reflexivity. Qed.
End Pool.

(** C7. For the pool [[A, B]]: under round-robin a call returns the key
    at the cursor and moves the cursor on by one modulo the pool size, so
    four calls in a row return A, B, A, B; under sequential a call leaves
    the cursor alone and only [markKeyError] moves it, so four calls
    return A, A, A, A and the call after one [markKeyError] returns B;
    under random neither a call nor [markKeyError] reads or moves the
    cursor. *)
Theorem rotation_policies (A B : string) :
(* round-robin *)
(∀ rnd s, ∃ s',
    getNextApiKey [A; B] "round-robin" rnd s
    = Some ([A; B] !! currentKeyIndex s, s')
    ∧ currentKeyIndex s' = ((currentKeyIndex s + 1) mod 2)%nat)
∧ (∀ r1 r2 r3 r4 last,
     fst <$> run [A; B] "round-robin" [Get r1; Get r2; Get r3; Get r4]
                 last initial
     = Some [Some A; Some B; Some A; Some B])
(* sequential *)
∧ (∀ rnd s, ∃ s',
     getNextApiKey [A; B] "sequential" rnd s
     = Some ([A; B] !! currentKeyIndex s, s')
     ∧ currentKeyIndex s' = currentKeyIndex s)
∧ (∀ k s,
     currentKeyIndex (markKeyError [A; B] "sequential" k s)
     = ((currentKeyIndex s + 1) mod 2)%nat)
∧ (∀ r1 r2 r3 r4 last,
     fst <$> run [A; B] "sequential" [Get r1; Get r2; Get r3; Get r4]
                 last initial
     = Some [Some A; Some A; Some A; Some A])
∧ (∀ r1 r2 last,
     fst <$> run [A; B] "sequential" [Get r1; MarkLast; Get r2]
                 last initial
     = Some [Some A; Some B])
(* random *)
∧ (∀ rnd s, ∃ s',
     getNextApiKey [A; B] "random" rnd s = Some ([A; B] !! rnd, s')
     ∧ currentKeyIndex s' = currentKeyIndex s)
∧ (∀ rnd s c,
     fst <$> getNextApiKey [A; B] "random" rnd
               {| currentKeyIndex := c;
                  keyUsageCount := keyUsageCount s;
                  keyErrorCount := keyErrorCount s |}
     = fst <$> getNextApiKey [A; B] "random" rnd s)
∧ (∀ k s,
     currentKeyIndex (markKeyError [A; B] "random" k s)
     = currentKeyIndex s).
Proof.
  repeat apply conj.
  - intros. apply round_robin_step.
  - intros. reflexivity.
  - intros. apply sequential_step.
  - intros. reflexivity.
  - intros. reflexivity.
  - intros. reflexivity.
  - intros. apply random_step.
  - intros. reflexivity.
  - intros. reflexivity.
Qed.

(** The other policies leave the cursor to [getNextApiKey]:
    [markKeyError] moves it under the sequential policy only. *)
Lemma markKeyError_cursor (keys : list string) (mode : string) (k : Key)
  (s : State) :
  mode ≠ "sequential" →
  currentKeyIndex (markKeyError keys mode k s) = currentKeyIndex s.
Proof.
  intros Hm. unfold markKeyError; simpl.
  destruct (String.eqb_spec mode "sequential"); [done | reflexivity].
Qed.

(** With a single key every policy returns it and leaves the cursor. *)
Lemma single_key (K mode : string) (rnd : nat) (s : State) :
  ∃ s', getNextApiKey [K] mode rnd s = Some (Some K, s')
        ∧ currentKeyIndex s' = currentKeyIndex s.
Proof. eexists; split; reflexivity. Qed.

(** An empty pool makes [getNextApiKey] throw. *)
Lemma empty_pool (mode : string) (rnd : nat) (s : State) :
  getNextApiKey [] mode rnd s = None.
Proof. reflexivity. Qed.

End KeysFacts.

(** * Failure tracking of the custom agent *)

Module BreakerFacts.
Import Breaker.

Lemma record_count (T : Z) (s : State) :
  youAgentFailureCount (fst (recordYouAgentFailure T s))
  = youAgentFailureCount s + 1.
Proof. reflexivity. Qed.

Lemma record_disabled (T : Z) (s : State) :
  youAgentDisabled (fst (recordYouAgentFailure T s)) = true
  ↔ T ≤ youAgentFailureCount s + 1 ∨ youAgentDisabled s = true.
Proof.
  unfold recordYouAgentFailure; simpl.
  destruct (Z.leb_spec T (youAgentFailureCount s + 1)); split;
    intros; try tauto; try lia.
  destruct H0; [lia | done].
Qed.

Lemma reachable_count_nonneg (T : Z) (s : State) :
  reachable T s → 0 ≤ youAgentFailureCount s.
Proof. induction 1; simpl; lia. Qed.

Lemma reachable_disabled (T : Z) (s : State) :
  0 < T → reachable T s →
  (youAgentDisabled s = true ↔ T ≤ youAgentFailureCount s).
Proof.
  intros HT Hr. induction Hr as [| s Hr IH | s Hr IH].
  - simpl. split; [done | lia].
  - rewrite record_disabled, record_count, IH.
    pose proof (reachable_count_nonneg _ _ Hr). lia.
  - simpl. split; [done | lia].
Qed.

Lemma iter_record_count (T : Z) (k : nat) (s : State) :
  youAgentFailureCount
    (Nat.iter k (λ b, fst (recordYouAgentFailure T b)) s)
  = youAgentFailureCount s + Z.of_nat k.
Proof.
  induction k as [|k IH]; [simpl; lia |].
  rewrite Nat.iter_succ, record_count, IH. lia.
Qed.

Lemma iter_record_keeps_flag (T : Z) (k : nat) (s : State) :
  youAgentDisabled s = true →
  youAgentDisabled
    (Nat.iter k (λ b, fst (recordYouAgentFailure T b)) s) = true.
Proof.
  intros H. induction k as [|k IH]; [done |].
  rewrite Nat.iter_succ. apply record_disabled. by right.
Qed.

End BreakerFacts.

(** * The custom-agent tool and the tracker *)

Module CustomAgentFacts.
Import CustomAgent BreakerFacts.

Ltac open_worlds :=
  repeat match goal with
    | w : World |- _ => destruct w as [? [? ?] ? ?]
    end;
  unfold same_but_flag, callYouApi, mark, record_failure in *; simpl in *;
  repeat match goal with
    | H : _ ∧ _ |- _ => destruct H
    end;
  subst.

Section Tool.
Variable API_KEYS : list string.
Variable KEY_MODE : string.
Variable T : Z.
Variable rand : nat → nat.
Variable upstream : nat → Upstream.
Variable assess : string → option (string * Z * bool).
Variable enhance : string → string * Z * bool → string → string.
Variable summaryPrompt : list CallResult → string → string → string.

Local Abbreviation next_key := (next_key API_KEYS KEY_MODE rand).
Local Abbreviation callYouApi := (callYouApi upstream).
Local Abbreviation mark := (mark API_KEYS KEY_MODE).
Local Abbreviation record_failure := (record_failure T).
Local Abbreviation probe := (probe API_KEYS KEY_MODE rand upstream assess enhance).
Local Abbreviation issue_all := (issue_all API_KEYS KEY_MODE rand upstream).
Local Abbreviation settle_all := (settle_all API_KEYS KEY_MODE T).
Local Abbreviation generateSummary :=
  (generateSummary API_KEYS KEY_MODE rand upstream summaryPrompt).
Local Abbreviation callCustomAgent :=
  (callCustomAgent API_KEYS KEY_MODE T rand upstream assess enhance
                   summaryPrompt).
Local Abbreviation record := (λ b, fst (Breaker.recordYouAgentFailure T b)).

(** ** The flag is never read *)

Lemma next_key_agree (w1 w2 : World) :
  same_but_flag w1 w2 → agree (next_key w1) (next_key w2).
Proof.
  intros H. open_worlds. unfold CustomAgent.next_key; simpl.
  destruct (Keys.getNextApiKey _ _ _ _) as [[k ks]|]; simpl; [| done].
  by unfold same_but_flag.
Qed.

Lemma callYouApi_agree (req : Request) (w1 w2 : World) :
  same_but_flag w1 w2 →
  fst (callYouApi req w1) = fst (callYouApi req w2)
  ∧ same_but_flag (snd (callYouApi req w1)) (snd (callYouApi req w2)).
Proof. intros H. open_worlds. by unfold same_but_flag. Qed.

Lemma mark_agree (k : Keys.Key) (w1 w2 : World) :
  same_but_flag w1 w2 → same_but_flag (mark k w1) (mark k w2).
Proof. intros H. open_worlds. by unfold same_but_flag. Qed.

Lemma record_failure_agree (w1 w2 : World) :
  same_but_flag w1 w2 →
  fst (snd (record_failure w1)) = fst (snd (record_failure w2))
  ∧ same_but_flag (fst (record_failure w1)) (fst (record_failure w2)).
Proof. intros H. open_worlds. by unfold same_but_flag. Qed.

Lemma probe_agree (a : Args) (w1 w2 : World) :
  same_but_flag w1 w2 → agree (probe a w1) (probe a w2).
Proof.
  intros H. unfold CustomAgent.probe.
  pose proof (next_key_agree _ _ H) as Hk.
  destruct (next_key w1) as [[k1 v1]|], (next_key w2) as [[k2 v2]|];
    simpl in Hk; try done.
  destruct Hk as [-> Hv].
  set (req := {| agent := _; input := _ |}).
  pose proof (callYouApi_agree req _ _ Hv) as [Ho Hw].
  destruct (callYouApi req v1) as [o1 u1], (callYouApi req v2) as [o2 u2].
  simpl in *. subst o2.
  destruct o1 as [text | msg]; simpl; [| done].
  destruct (assess text) as [[[d m] o]|]; simpl; done.
Qed.

Lemma issue_all_S (n : nat) (req : Request) (w : World) :
  issue_all (S n) req w =
  match next_key w with
  | None => None
  | Some (apiKey, w1) =>
      match issue_all n req (snd (callYouApi req w1)) with
      | None => None
      | Some (rest, w3) =>
          Some ((apiKey, fst (callYouApi req w1)) :: rest, w3)
      end
  end.
Proof. reflexivity. Qed.

Lemma settle_all_cons (i : Z) (k : Keys.Key) (o : Upstream)
  (rest : list (Keys.Key * Upstream)) (w : World) :
  settle_all i ((k, o) :: rest) w =
  match o with
  | Ok text =>
      ({| index := i + 1; success := true; payload := text |}
         :: fst (settle_all (i + 1) rest w),
       snd (settle_all (i + 1) rest w))
  | Failed msg =>
      ({| index := i + 1; success := false; payload := msg |}
         :: fst (settle_all (i + 1) rest
                   (fst (record_failure (mark k w)))),
       snd (settle_all (i + 1) rest (fst (record_failure (mark k w)))))
  end.
Proof.
  simpl. destruct o; [by destruct (settle_all _ _ _) |].
  by destruct (CustomAgent.settle_all _ _ _ _ _ _).
Qed.

Lemma issue_all_agree (n : nat) (req : Request) (w1 w2 : World) :
  same_but_flag w1 w2 →
  agree (issue_all n req w1) (issue_all n req w2).
Proof.
  revert w1 w2. induction n as [|n IH]; intros w1 w2 H; [done |].
  rewrite !issue_all_S. pose proof (next_key_agree _ _ H) as Hk.
  destruct (next_key w1) as [[k1 v1]|], (next_key w2) as [[k2 v2]|];
    simpl in Hk; try done.
  destruct Hk as [-> Hv].
  pose proof (callYouApi_agree req _ _ Hv) as [Ho Hw].
  rewrite Ho. specialize (IH _ _ Hw).
  destruct (issue_all n req (snd (callYouApi req v1))) as [[r1 x1]|],
           (issue_all n req (snd (callYouApi req v2))) as [[r2 x2]|];
    simpl in IH; try done.
  by destruct IH as [-> ?].
Qed.

Lemma settle_all_agree (outs : list (Keys.Key * Upstream)) (i : Z)
  (w1 w2 : World) :
  same_but_flag w1 w2 →
  fst (settle_all i outs w1) = fst (settle_all i outs w2)
  ∧ same_but_flag (snd (settle_all i outs w1))
                  (snd (settle_all i outs w2)).
Proof.
  revert i w1 w2.
  induction outs as [|[k o] outs IH]; intros i w1 w2 H; [done |].
  rewrite !settle_all_cons. destruct o as [text | msg].
  - destruct (IH (i + 1) _ _ H) as [-> ?]. by split.
  - pose proof (mark_agree k _ _ H) as Hm.
    pose proof (record_failure_agree _ _ Hm) as [_ Hr].
    destruct (IH (i + 1) _ _ Hr) as [-> ?]. by split.
Qed.

Lemma generateSummary_agree (rs : list CallResult) (inp lang : string)
  (w1 w2 : World) :
  same_but_flag w1 w2 →
  agree (generateSummary rs inp lang w1) (generateSummary rs inp lang w2).
Proof.
  intros H. unfold CustomAgent.generateSummary.
  destruct (_ <? 2)%nat; [done |].
  pose proof (next_key_agree _ _ H) as Hk.
  destruct (next_key w1) as [[k1 v1]|], (next_key w2) as [[k2 v2]|];
    simpl in Hk; try done.
  destruct Hk as [-> Hv].
  set (req := {| agent := _; input := _ |}).
  pose proof (callYouApi_agree req _ _ Hv) as [Ho Hw].
  destruct (callYouApi req v1) as [o1 u1], (callYouApi req v2) as [o2 u2].
  simpl in *. subst o2.
  destruct o1 as [text | msg]; simpl; [done |].
  split; [done |]. by apply mark_agree.
Qed.

(** The reply and the upstream calls do not depend on the flag. *)
Lemma callCustomAgent_agree (a : Args) (w1 w2 : World) :
  same_but_flag w1 w2 →
  agree (callCustomAgent a w1) (callCustomAgent a w2).
Proof.
  intros H. unfold CustomAgent.callCustomAgent.
  assert (agree (if auto_enhance a then probe a w1
                 else Some (arg_input a, NoInfo, w1))
                (if auto_enhance a then probe a w2
                 else Some (arg_input a, NoInfo, w2))) as Hp.
  { destruct (auto_enhance a); [by apply probe_agree | done]. }
  destruct (if auto_enhance a then probe a w1 else _)
    as [[[e1 i1] v1]|],
    (if auto_enhance a then probe a w2 else _) as [[[e2 i2] v2]|];
    simpl in Hp; try done.
  destruct Hp as [Heq Hv]. injection Heq as -> ->.
  set (req := {| agent := _; input := _ |}).
  destruct (Z.max 1 (Z.min 10 (call_count a)) =? 1).
  - pose proof (next_key_agree _ _ Hv) as Hk.
    destruct (next_key v1) as [[k1 x1]|], (next_key v2) as [[k2 x2]|];
      simpl in Hk; try done.
    destruct Hk as [-> Hx].
    pose proof (callYouApi_agree req _ _ Hx) as [Ho Hw].
    destruct (callYouApi req x1) as [o1 u1],
             (callYouApi req x2) as [o2 u2].
    simpl in *. subst o2.
    destruct o1 as [text | msg]; simpl; [done |].
    destruct Hw as (Hw1 & Hw2 & Hw3 & Hw4).
    unfold same_but_flag; simpl. by rewrite Hw1, Hw2, Hw3, Hw4.
  - pose proof (issue_all_agree (Z.to_nat (Z.max 1 (Z.min 10 (call_count a))))
                  req _ _ Hv) as Hi.
    destruct (issue_all _ req v1) as [[outs1 x1]|],
             (issue_all _ req v2) as [[outs2 x2]|]; simpl in Hi; try done.
    destruct Hi as [-> Hx].
    pose proof (settle_all_agree outs2 0 _ _ Hx) as [Hr Hs].
    destruct (settle_all 0 outs2 x1) as [r1 y1],
             (settle_all 0 outs2 x2) as [r2 y2].
    simpl in *. subst r2.
    set (cond := want_summary a && _).
    assert (agree (if cond
                   then generateSummary r1 (arg_input a) (language a) y1
                   else Some (None, y1))
                  (if cond
                   then generateSummary r1 (arg_input a) (language a) y2
                   else Some (None, y2))) as Hg.
    { destruct cond; [by apply generateSummary_agree | done]. }
    destruct (if cond then generateSummary _ _ _ y1 else _)
      as [[s1 z1]|],
      (if cond then generateSummary _ _ _ y2 else _) as [[s2 z2]|];
      simpl in Hg; try done.
    destruct Hg as [-> Hz]. simpl. split; [| done].
    destruct Hz as (_ & -> & _). reflexivity.
Qed.

(** ** Only recorded failures move the tracker *)

Lemma next_key_breaker (w w' : World) (k : Keys.Key) :
  next_key w = Some (k, w') → breaker w' = breaker w.
Proof.
  unfold CustomAgent.next_key.
  destruct (Keys.getNextApiKey _ _ _ _) as [[k0 ks]|]; [| done].
  by intros [= _ <-].
Qed.

Lemma probe_breaker (a : Args) (w w' : World) (x : string * KnowledgeInfo) :
  probe a w = Some (x, w') → breaker w' = breaker w.
Proof.
  unfold CustomAgent.probe.
  destruct (next_key w) as [[k w1]|] eqn:Hk; [| done].
  apply next_key_breaker in Hk. unfold CustomAgent.callYouApi.
  destruct (upstream _) as [text | msg].
  - destruct (assess text) as [[[d m] o]|]; by intros [= _ <-].
  - by intros [= _ <-].
Qed.

Lemma issue_all_breaker (n : nat) (req : Request) (w w' : World)
  (outs : list (Keys.Key * Upstream)) :
  issue_all n req w = Some (outs, w') →
  breaker w' = breaker w ∧ length outs = n.
Proof.
  revert w w' outs. induction n as [|n IH]; intros w w' outs.
  - by intros [= <- <-].
  - rewrite issue_all_S.
    destruct (next_key w) as [[k w1]|] eqn:Hk; [| done].
    apply next_key_breaker in Hk.
    destruct (issue_all n req _) as [[rest w3]|] eqn:Hi; [| done].
    apply IH in Hi as [Hb Hl]. intros [= <- <-].
    split; [by rewrite Hb | by rewrite <- Hl].
Qed.

Lemma failed_count_ok (k : Keys.Key) (t : string)
  (outs : list (Keys.Key * Upstream)) :
  failed_count ((k, Ok t) :: outs) = failed_count outs.
Proof. unfold failed_count. by rewrite filter_cons_False. Qed.

Lemma failed_count_failed (k : Keys.Key) (m : string)
  (outs : list (Keys.Key * Upstream)) :
  failed_count ((k, Failed m) :: outs) = S (failed_count outs).
Proof. unfold failed_count. by rewrite filter_cons_True. Qed.

Lemma settle_all_breaker (outs : list (Keys.Key * Upstream)) (i : Z)
  (w : World) :
  breaker (snd (settle_all i outs w))
  = Nat.iter (failed_count outs) record (breaker w)
  ∧ (length (filter (λ r, success r = true) (fst (settle_all i outs w)))
     + failed_count outs = length outs)%nat.
Proof.
  revert i w. induction outs as [|[k o] outs IH]; intros i w; [done |].
  rewrite settle_all_cons. destruct o as [text | msg].
  - rewrite failed_count_ok. destruct (IH (i + 1) w) as [Hb Hl].
    cbn [fst snd]. split; [done |].
    rewrite filter_cons_True by done. cbn [length]. lia.
  - rewrite failed_count_failed.
    destruct (IH (i + 1) (fst (record_failure (mark k w)))) as [Hb Hl].
    cbn [fst snd]. split.
    + rewrite Hb. by rewrite Nat.iter_succ_r.
    + rewrite filter_cons_False by done. cbn [length]. lia.
Qed.

Lemma generateSummary_breaker (rs : list CallResult) (inp lang : string)
  (w w' : World) (t : option string) :
  generateSummary rs inp lang w = Some (t, w') → breaker w' = breaker w.
Proof.
  unfold CustomAgent.generateSummary.
  destruct (_ <? 2)%nat; [by intros [= _ <-] |].
  destruct (next_key w) as [[k w1]|] eqn:Hk; [| done].
  apply next_key_breaker in Hk. unfold CustomAgent.callYouApi.
  destruct (upstream _); by intros [= _ <-].
Qed.

(** The tracker after a call is the tracker before it with one
    [recordYouAgentFailure] per failure the reply reports. *)
Lemma callCustomAgent_breaker (a : Args) (w w' : World) (r : Reply) :
  callCustomAgent a w = Some (r, w') →
  breaker w' = Nat.iter (failures_of r) record (breaker w).
Proof.
  unfold CustomAgent.callCustomAgent.
  destruct (if auto_enhance a then probe a w else _)
    as [[[e i] w1]|] eqn:Hp; [| done].
  assert (breaker w1 = breaker w) as Hw1.
  { destruct (auto_enhance a);
      [by eapply probe_breaker | by injection Hp as _ _ <-]. }
  set (req := {| agent := _; input := _ |}).
  destruct (Z.max 1 (Z.min 10 (call_count a)) =? 1) eqn:Hc.
  - destruct (next_key w1) as [[k w2]|] eqn:Hk; [| done].
    apply next_key_breaker in Hk. unfold CustomAgent.callYouApi.
    destruct (upstream _) as [text | msg].
    + intros [= <- <-]. simpl. congruence.
    + intros [= <- <-]. simpl. by rewrite Hk, Hw1.
  - destruct (issue_all _ req w1) as [[outs w2]|] eqn:Hi; [| done].
    apply issue_all_breaker in Hi as [Hb2 Hlen].
    pose proof (settle_all_breaker outs 0 w2) as [Hb3 Hcount].
    destruct (settle_all 0 outs w2) as [results w3]. simpl in Hb3, Hcount.
    destruct (if want_summary a && _ then _ else _)
      as [[summaryText w4]|] eqn:Hs; [| done].
    assert (breaker w4 = breaker w3) as Hb4.
    { destruct (want_summary a && _);
        [by eapply generateSummary_breaker | by injection Hs as _ <-]. }
    intros [= <- <-]. simpl.
    replace (Z.to_nat _) with (failed_count outs) by lia.
    congruence.
Qed.
End Tool.



End CustomAgentFacts.

(** * Prompt assembly *)

Module AssemblerFacts.
Import Js JsFacts Assembler.

(** What the [forEach] loop leaves in [conversationHistory]: the rendered
    conversational turns, in order. *)
Lemma visit_history (messages : list Msg) (sys : string)
  (hist : list string) :
  snd (fold_left visit messages (sys, hist))
  = hist ++ map rendered (filter (λ m, conversational m = true) messages).
Proof.
  revert sys hist.
  induction messages as [|m ms IH]; intros sys hist.
  - simpl. by rewrite app_nil_r.
  - change (fold_left visit (m :: ms) (sys, hist))
      with (fold_left visit ms (visit (sys, hist) m)).
    unfold visit.
    destruct (String.eqb (role m) "system") eqn:Hs;
      [| destruct (String.eqb (role m) "user") eqn:Hu;
         [| destruct (String.eqb (role m) "assistant") eqn:Ha]];
      rewrite IH.
    + rewrite filter_cons_False; [done |].
      apply String.eqb_eq in Hs. unfold conversational. by rewrite Hs.
    + rewrite filter_cons_True by (unfold conversational; by rewrite Hu).
      rewrite <- app_assoc. simpl. unfold rendered at 2. by rewrite Hu.
    + rewrite filter_cons_True
        by (unfold conversational; by rewrite Hu, Ha).
      rewrite <- app_assoc. simpl. unfold rendered at 2. by rewrite Hu.
    + rewrite filter_cons_False; [done |].
      unfold conversational. by rewrite Hu, Ha.
Qed.

Lemma strip_rendered (t : Msg) :
  conversational t = true → strip_user_label (rendered t) = current_text t.
Proof.
  unfold conversational, strip_user_label, rendered, current_text, rendered.
  destruct (String.eqb (role t) "user") eqn:Hu.
  - intros _. rewrite (startsWith_app "User: " (content t)).
    apply (slice_app_length "User: ").
  - intros _. reflexivity.
Qed.

Lemma current_text_user (t : Msg) :
  role t = "user" → current_text t = content t.
Proof. intros H. unfold current_text. by rewrite H. Qed.

Lemma current_text_assistant (t : Msg) :
  role t = "assistant" → current_text t = "Assistant: " +:+ content t.
Proof. intros H. unfold current_text, rendered. by rewrite H. Qed.

Lemma build_unfold (messages : list Msg) :
  buildConversationInput messages =
  let conversationHistory :=
    map rendered (filter (λ m, conversational m = true) messages) in
  if (1 <? length conversationHistory)%nat then
    (system_block messages +:+
     ("[Conversation History]" +:+ nl
      +:+ join (nl +:+ nl) (removelast conversationHistory) +:+ nl +:+ nl))
    +:+ ("[Current Message]" +:+ nl
         +:+ strip_user_label (default "" (last conversationHistory)))
  else if (length conversationHistory =? 1)%nat then
    system_block messages
    +:+ strip_user_label (default "" (head conversationHistory))
  else system_block messages.
Proof.
  unfold buildConversationInput, system_block.
  pose proof (visit_history messages "" []) as H.
  destruct (fold_left visit messages ("", [])) as [sys hist].
  simpl in H. by rewrite H.
Qed.

Lemma same_assembly (messages : list Msg) :
  mapOpenAIToYouParams_input messages = buildConversationInput messages.
Proof. reflexivity. Qed.

Lemma removelast_snoc {A} (l : list A) (x : A) : removelast (l ++ [x]) = l.
Proof. apply removelast_last. Qed.

(** C6, as the code has it. With more than one conversational turn the
    prompt is the system block, the labelled history of all turns but the
    last, each rendered ["<Role>: <content>"] and joined by blank lines,
    and the labelled current message; with exactly one turn it is the
    system block and that turn, with neither label. In both cases the
    final turn appears as its bare content when it is a user turn, and
    keeps its ["Assistant: "] label when it is an assistant turn. The
    mapper's [input] is the same text. *)
Theorem assembled_prompt (messages : list Msg) :
  (∀ init t,
     filter (λ m, conversational m = true) messages = init ++ [t] →
     init ≠ [] →
     buildConversationInput messages
     = (system_block messages
        +:+ ("[Conversation History]" +:+ nl
             +:+ join (nl +:+ nl) (map rendered init) +:+ nl +:+ nl))
       +:+ ("[Current Message]" +:+ nl +:+ current_text t))
  ∧ (∀ t,
       filter (λ m, conversational m = true) messages = [t] →
       buildConversationInput messages
       = system_block messages +:+ current_text t)
  ∧ (filter (λ m, conversational m = true) messages = [] →
     buildConversationInput messages = system_block messages)
  ∧ (∀ t, role t = "user" → current_text t = content t)
  ∧ (∀ t, role t = "assistant" →
          current_text t = "Assistant: " +:+ content t)
  ∧ mapOpenAIToYouParams_input messages = buildConversationInput messages.
Proof.
  repeat apply conj.
  - intros init t Hturns Hinit. rewrite build_unfold, Hturns. simpl.
    assert (conversational t = true) as Ht.
    { assert (t ∈ filter (λ m, conversational m = true) messages) as Hin
        by (rewrite Hturns; set_solver).
      by apply list_elem_of_filter in Hin as [? _]. }
    rewrite map_app. simpl map.
    rewrite length_app, length_map. simpl length.
    destruct init as [|i0 init']; [done |].
    replace (1 <? length (i0 :: init') + 1)%nat with true
      by (symmetry; apply Nat.ltb_lt; simpl; lia).
    rewrite removelast_snoc, last_snoc. simpl default.
    by rewrite strip_rendered.
  - intros t Hturns. rewrite build_unfold, Hturns. simpl.
    rewrite strip_rendered; [done |].
    assert (t ∈ filter (λ m, conversational m = true) messages) as Hin
      by (rewrite Hturns; set_solver).
    by apply list_elem_of_filter in Hin as [? _].
  - intros Hturns. by rewrite build_unfold, Hturns.
  - apply current_text_user.
  - apply current_text_assistant.
  - apply same_assembly.
Qed.

Lemma assembled_prompt_witness :
  buildConversationInput two_turns
  = ("[System Instructions]" +:+ nl +:+ "Be brief." +:+ nl +:+ nl)
    +:+ "[Conversation History]" +:+ nl
    +:+ "User: Hello" +:+ nl +:+ nl +:+ "Assistant: Hi." +:+ nl +:+ nl
    +:+ "[Current Message]" +:+ nl +:+ "And now?".
Proof.
  pose proof (proj1 (assembled_prompt two_turns)
                [ {| role := "user"; content := "Hello" |};
                  {| role := "assistant"; content := "Hi." |} ]
                {| role := "user"; content := "And now?" |}) as H.
  rewrite H; [reflexivity | reflexivity | discriminate].
Defined.

(** C6, as stated, fails for a final assistant turn: its role label is
    not stripped, neither when it is the only turn nor when it closes a
    longer exchange. *)
Lemma assistant_label_kept :
  buildConversationInput [ {| role := "assistant"; content := "hi" |} ]
  = "Assistant: hi"
  ∧ buildConversationInput [ {| role := "assistant"; content := "hi" |} ]
    ≠ content {| role := "assistant"; content := "hi" |}
  ∧ buildConversationInput
      [ {| role := "user"; content := "q" |};
        {| role := "assistant"; content := "a" |} ]
    = "[Conversation History]" +:+ nl +:+ "User: q" +:+ nl +:+ nl
      +:+ "[Current Message]" +:+ nl +:+ "Assistant: a".
Proof. split; [reflexivity | split; [discriminate | reflexivity]]. Qed.

End AssemblerFacts.

(** * The conversation store: the bound on stored turns *)

Module StoreFacts.
Import Js Store.

(** ** [slice] with a negative start keeps a suffix of bounded length *)

Lemma arr_slice_suffix {A} (l : list A) (start : Z) :
  arr_slice l start `suffix_of` l.
Proof. unfold arr_slice. apply suffix_drop. Qed.

Lemma arr_slice_length {A} (l : list A) (start : Z) :
  start < 0 → - start ≤ Z.of_nat (length l) →
  Z.of_nat (length (arr_slice l start)) = - start.
Proof.
  intros Hk Hl. unfold arr_slice. rewrite length_drop.
  destruct (Z.ltb_spec start 0); lia.
Qed.

(** ** The trimming of the in-memory variants *)

Lemma trim_trimmed (msgs : list Message) : trimmed msgs (trim msgs).
Proof.
  unfold trim. destruct (_ <=? _); [| constructor].
  destruct (find is_system msgs) as [s|] eqn:Hf.
  - apply trimmed_system; [apply arr_slice_suffix | done].
  - apply trimmed_front; [apply arr_slice_suffix | done].
Qed.

Lemma trim_length (msgs : list Message) :
  Z.of_nat (length (trim msgs)) ≤ MAX_MESSAGES_PER_CONVERSATION - 1.
Proof.
  unfold trim, MAX_MESSAGES_PER_CONVERSATION.
  destruct (Z.leb_spec 100 (Z.of_nat (length msgs))) as [Hge | Hlt]; [| lia].
  destruct (find is_system msgs) as [s|].
  - pose proof (arr_slice_length msgs (- (100) + 2) ltac:(lia) ltac:(lia)) as H.
    rewrite length_cons. lia.
  - pose proof (arr_slice_length msgs (- (100) + 1) ltac:(lia) ltac:(lia)) as H.
    lia.
Qed.

Lemma trim_head (msgs : list Message) (m : Message) :
  head msgs = Some m → is_system m = true → head (trim msgs) = Some m.
Proof.
  intros Hh Hs. unfold trim. destruct (_ <=? _); [| done].
  destruct msgs as [|m0 rest]; [done |]. injection Hh as ->.
  unfold find. simpl. by rewrite Hs.
Qed.

(** ** [addMessageToConversation], in memory *)

Lemma add_messages (now : Z) (uuid cid role content : string)
  (store : gmap string Conversation) :
  messages (fst (Memory.addMessageToConversation now uuid cid role content
                   store))
  = trim (prior store cid)
    ++ [{| role := role; content := content; timestamp := now |}].
Proof.
  unfold Memory.addMessageToConversation, prior.
  by destruct (store !! cid).
Qed.

Lemma add_messages_mcp (now : Z) (uuid cid role content : string)
  (store : gmap string Conversation) :
  messages (fst (Memory.addMessageToConversation_mcp now uuid cid role
                   content store))
  = trim (if truthy cid then prior store cid else [])
    ++ [{| role := role; content := content; timestamp := now |}].
Proof.
  unfold Memory.addMessageToConversation_mcp, Memory.getConversation, prior.
  destruct (truthy cid); simpl; [| done].
  by destruct (store !! cid).
Qed.

(** The conversation returned is the one the map now holds. *)
Lemma add_stored (now : Z) (uuid cid role content : string)
  (store : gmap string Conversation) :
  let r := Memory.addMessageToConversation now uuid cid role content store in
  ∃ key, snd r !! key = Some (fst r)
         ∧ (is_Some (store !! cid) → key = cid).
Proof.
  unfold Memory.addMessageToConversation.
  destruct (store !! cid) as [conv|]; simpl.
  - exists cid. split; [apply lookup_insert_eq | done].
  - eexists. split; [apply lookup_insert_eq |]. by intros [? ?].
Qed.

(** ** The SQLite branch *)

Section Rows.
Context {A : Type} (f : A → Z).

Lemma NoDup_map_filter (P : A → Prop) `{∀ x, Decision (P x)}
  (l : list A) :
  NoDup (f <$> l) → NoDup (f <$> (filter P l)).
Proof.
  induction l as [|x l IH]; [done |]. simpl.
  intros Hnd. apply NoDup_cons in Hnd as [Hx Hl].
  destruct (decide (P x)).
  - rewrite filter_cons_True by done. simpl. apply NoDup_cons. split.
    + intros Hin. apply Hx. apply list_elem_of_fmap in Hin as (y & -> & Hy).
      apply list_elem_of_fmap. exists y. split; [done |].
      by apply list_elem_of_filter in Hy as [_ ?].
    + by apply IH.
  - rewrite filter_cons_False by done. by apply IH.
Qed.

Lemma filter_ext_in (P Q : A → Prop) `{∀ x, Decision (P x)}
  `{∀ x, Decision (Q x)} (l : list A) :
  (∀ x, x ∈ l → P x ↔ Q x) → filter P l = filter Q l.
Proof.
  induction l as [|x l IH]; intros Hext; [done |].
  assert (filter P l = filter Q l) as Hl
    by (apply IH; intros y Hy; apply Hext; by right).
  destruct (decide (P x)) as [Hp | Hp].
  - rewrite !filter_cons_True; [by rewrite Hl | | done].
    apply Hext; [by left | done].
  - rewrite !filter_cons_False; [done | | done].
    intros Hq. apply Hp. apply Hext; [by left | done].
Qed.

Lemma filter_all (l : list A) : filter (λ _, True) l = l.
Proof.
  induction l as [|y l IH]; [done |]. by rewrite filter_cons_True, IH.
Qed.

(** Deleting the rows of a sub-selection by id removes as many rows as
    were selected, when ids are unique. *)
Lemma delete_selected_length (d l : list A) :
  d `sublist_of` l → NoDup (f <$> l) →
  (length (filter (λ r, f r ∉ f <$> d) l) + length d = length l)%nat.
Proof.
  induction 1 as [| x d l Hs IH | x d l Hs IH]; intros Hnd.
  - done.
  - simpl in Hnd. apply NoDup_cons in Hnd as [Hx Hl].
    rewrite filter_cons_False by (simpl; set_solver).
    rewrite (filter_ext_in _ (λ r, f r ∉ f <$> d)).
    + specialize (IH Hl). simpl. lia.
    + intros r Hr. simpl. split.
      * intros Hn Hin. apply Hn. by right.
      * intros Hn Hin. apply elem_of_cons in Hin as [Heq | Hin];
          [| done].
        apply Hx. rewrite <- Heq. apply list_elem_of_fmap. by exists r.
  - simpl in Hnd. apply NoDup_cons in Hnd as [Hx Hl].
    rewrite filter_cons_True.
    + specialize (IH Hl). simpl. lia.
    + intros Hin. apply Hx.
      apply list_elem_of_fmap in Hin as (y & -> & Hy).
      apply list_elem_of_fmap. exists y. split; [done |].
      by eapply elem_of_sublist.
Qed.

(** Deleting the first [k] rows by id leaves the rest. *)
Lemma delete_front (k : nat) (l : list A) :
  NoDup (f <$> l) →
  filter (λ r, f r ∉ f <$> (take k l)) l = drop k l.
Proof.
  revert k. induction l as [|x l IH]; intros k Hnd; [by destruct k |].
  simpl in Hnd. apply NoDup_cons in Hnd as [Hx Hl].
  destruct k as [|k].
  - simpl. rewrite (filter_ext_in _ (λ _, True)); [apply filter_all |].
    intros r _. split; [done | set_solver].
  - simpl. rewrite filter_cons_False by set_solver.
    rewrite <- (IH k Hl). apply filter_ext_in.
    intros r Hr. split.
    + intros Hn Hin. apply Hn. by right.
    + intros Hn Hin. apply elem_of_cons in Hin as [Heq | Hin];
        [| done].
      apply Hx. rewrite <- Heq. apply list_elem_of_fmap. by exists r.
Qed.

(** At most one row carries a given id. *)
Lemma filter_other_length (v : Z) (l : list A) :
  NoDup (f <$> l) →
  (length l ≤ length (filter (λ r, f r ≠ v) l) + 1)%nat.
Proof.
  induction l as [|x l IH]; intros Hnd; [simpl; lia |].
  simpl in Hnd. apply NoDup_cons in Hnd as [Hx Hl].
  destruct (decide (f x = v)) as [Heq | Hne].
  - rewrite filter_cons_False by (intros ?; done).
    rewrite (filter_ext_in _ (λ _, True)).
    + rewrite filter_all. simpl. lia.
    + intros r Hr. split; [done |]. intros _ Hr'. apply Hx.
      rewrite Heq, <- Hr'. apply list_elem_of_fmap. by exists r.
  - rewrite filter_cons_True by done. specialize (IH Hl). simpl. lia.
Qed.
End Rows.

Import Sql.

Lemma delete_ids_filter (ids : list Z) (tbl : list Row) :
  delete_ids ids tbl = filter (λ r, row_id r ∉ ids) tbl.
Proof.
  unfold delete_ids. revert tbl.
  induction ids as [|i ids IH]; intros tbl; simpl.
  - rewrite (filter_ext_in (λ r, row_id r ∉ []) (λ _, True));
      [by rewrite filter_all |].
    intros r _. split; [done | set_solver].
  - rewrite IH, list_filter_filter. apply list_filter_iff.
    intros r. rewrite not_elem_of_cons. tauto.
Qed.

Lemma filter_comm {A} (P Q : A → Prop) `{∀ x, Decision (P x)}
  `{∀ x, Decision (Q x)} (l : list A) :
  filter P (filter Q l) = filter Q (filter P l).
Proof. rewrite !list_filter_filter. apply list_filter_iff. tauto. Qed.

Lemma doomed_sublist (l : list Row) : doomed l `sublist_of` l.
Proof.
  unfold doomed. destruct (find _ l).
  - etrans; [apply sublist_take | apply sublist_filter].
  - apply sublist_take.
Qed.

Lemma evict_select (cid : string) (db : Db) :
  select_conv cid (evict cid db) =
  if MAX_MESSAGES_PER_CONVERSATION <=? Z.of_nat (length (select_conv cid db))
  then filter (λ r, row_id r ∉ row_id <$> doomed (select_conv cid db))
              (select_conv cid db)
  else select_conv cid db.
Proof.
  unfold evict. destruct (_ <=? _); [| done].
  unfold select_conv at 1. simpl. rewrite delete_ids_filter.
  rewrite filter_comm. unfold doomed, select_conv.
  by destruct (find _ _).
Qed.

Lemma doomed_length (l : list Row) :
  NoDup (row_id <$> l) →
  MAX_MESSAGES_PER_CONVERSATION ≤ Z.of_nat (length l) →
  Z.of_nat (length (doomed l))
  = Z.of_nat (length l) - MAX_MESSAGES_PER_CONVERSATION + 2.
Proof.
  unfold doomed, MAX_MESSAGES_PER_CONVERSATION. intros Hnd Hlen.
  destruct (find _ l) as [s|].
  - rewrite length_take.
    pose proof (filter_other_length row_id (row_id s) l Hnd). lia.
  - rewrite length_take. lia.
Qed.

(** After the deletions at most [MAX - 2] rows of the conversation are
    left, or the conversation was below the bound. *)
Lemma evict_count (cid : string) (db : Db) :
  NoDup (row_id <$> rows db) →
  Z.of_nat (length (select_conv cid (evict cid db)))
  ≤ MAX_MESSAGES_PER_CONVERSATION - 1.
Proof.
  intros Hnd. rewrite evict_select.
  assert (NoDup (row_id <$> select_conv cid db)) as Hl
    by (by apply NoDup_map_filter).
  destruct (Z.leb_spec MAX_MESSAGES_PER_CONVERSATION
              (Z.of_nat (length (select_conv cid db)))) as [Hge | Hlt];
    [| lia].
  pose proof (delete_selected_length row_id _ _
                (doomed_sublist (select_conv cid db)) Hl) as Hdel.
  pose proof (doomed_length _ Hl Hge) as Hd.
  unfold MAX_MESSAGES_PER_CONVERSATION in *. lia.
Qed.

(** Without a system row the rows left are a suffix of the rows before. *)
Lemma evict_front (cid : string) (db : Db) :
  NoDup (row_id <$> rows db) →
  find (λ r, String.eqb (row_role r) "system") (select_conv cid db) = None →
  select_conv cid (evict cid db) `suffix_of` select_conv cid db.
Proof.
  intros Hnd Hnone. rewrite evict_select.
  destruct (_ <=? _); [| done].
  unfold doomed. rewrite Hnone.
  rewrite delete_front by (by apply NoDup_map_filter).
  apply suffix_drop.
Qed.

(** A leading system row stays in front, followed by a suffix of the
    other rows. *)
Lemma evict_leading_system (cid : string) (db : Db) (s : Row)
  (rest : list Row) :
  NoDup (row_id <$> rows db) →
  select_conv cid db = s :: rest →
  String.eqb (row_role s) "system" = true →
  ∃ kept, kept `suffix_of` rest
          ∧ select_conv cid (evict cid db) = s :: kept.
Proof.
  intros Hnd Hsel Hs. rewrite evict_select.
  assert (NoDup (row_id <$> select_conv cid db)) as Hl
    by (by apply NoDup_map_filter).
  rewrite Hsel in *. destruct (_ <=? _);
    [| exists rest; split; [by exists [] | done]].
  simpl in Hl. apply NoDup_cons in Hl as [Hx Hrest].
  unfold doomed. simpl find. rewrite Hs.
  rewrite (filter_cons_False (λ r, row_id r ≠ row_id s))
    by (intros H; by apply H).
  assert (filter (λ r, row_id r ≠ row_id s) rest = rest) as ->.
  { rewrite (filter_ext_in _ (λ _, True)); [apply filter_all |].
    intros r Hr. split; [done |]. intros _ Heq. apply Hx.
    rewrite <- Heq. apply list_elem_of_fmap. by exists r. }
  set (k := Z.to_nat _).
  exists (drop k rest). split; [apply suffix_drop |].
  rewrite filter_cons_True.
  - by rewrite delete_front.
  - intros Hin. apply Hx.
    apply list_elem_of_fmap in Hin as (y & -> & Hy).
    apply list_elem_of_fmap. exists y. split; [done |].
    eapply elem_of_sublist; [exact Hy | apply sublist_take].
Qed.

Lemma evict_rows_only (cid : string) (db db' : Db) :
  rows db' = rows db → rows (evict cid db') = rows (evict cid db).
Proof.
  intros H. unfold evict, select_conv. rewrite H.
  by destruct (_ <=? _).
Qed.

(** The rows of the conversation after [addMessageToConversation]: those
    [evict] leaves, then the new row. *)
Lemma sql_add_rows (now : Z) (uuid cid role content : string) (db : Db) :
  ∃ new,
    row_role new = role ∧ row_content new = content
    ∧ select_conv cid
        (snd (Sql.addMessageToConversation now uuid cid role content db))
      = select_conv cid (evict cid db) ++ [new].
Proof.
  eexists {| row_id := seq db + 1; conversation_id := cid;
             row_role := role; row_content := content;
             row_timestamp := now |}.
  split; [done |]. split; [done |].
  unfold Sql.addMessageToConversation.
  set (db1 := match conversations db !! cid with
              | Some _ => db | None => _ end).
  assert (rows db1 = rows db ∧ seq db1 = seq db) as [Hrows Hseq]
    by (unfold db1; by destruct (conversations db !! cid)).
  assert (∀ d, rows (snd (Sql.getConversation now cid d)) = rows d) as Hget.
  { intros d. unfold Sql.getConversation.
    destruct (negb _); [done |]. by destruct (conversations d !! cid). }
  unfold select_conv at 1. rewrite Hget. simpl.
  rewrite filter_app, (evict_rows_only cid db db1 Hrows).
  unfold select_conv. f_equal.
  rewrite filter_cons_True; [| unfold of_conv; simpl; apply String.eqb_refl].
  assert (seq (evict cid db1) = seq db) as ->; [| done].
  unfold evict. by destruct (_ <=? _).
Qed.

(** What the SQLite branch returns is read from those rows. *)
Lemma sql_add_returned (now : Z) (uuid cid role content : string) (db : Db)
  (conv : Conversation) :
  fst (Sql.addMessageToConversation now uuid cid role content db)
  = Some conv →
  messages conv
  = (λ r, {| Store.role := row_role r; Store.content := row_content r;
             timestamp := row_timestamp r |})
    <$> select_conv cid
          (snd (Sql.addMessageToConversation now uuid cid role content db)).
Proof.
  unfold Sql.addMessageToConversation.
  set (db3 := touch now cid _).
  unfold Sql.getConversation.
  destruct (negb _); [done |].
  destruct (conversations db3 !! cid); [| done].
  simpl. by intros [= <-].
Qed.



End StoreFacts.

(** * Streaming: line reassembly *)

Module ReaderFacts.
Import Js JsFacts Stream.

Lemma removelast_app_nonempty {A} (xs ys : list A) :
  ys ≠ [] → removelast (xs ++ ys) = xs ++ removelast ys.
Proof. intros H. by apply removelast_app. Qed.

Lemma last_app_nonempty {A} (xs ys : list A) :
  ys ≠ [] → last (xs ++ ys) = last ys.
Proof.
  intros H. destruct ys as [|y ys _] using rev_ind; [done |].
  by rewrite app_assoc, !last_snoc.
Qed.

(** What follows the last line feed holds no line feed. *)
Lemma unfinished_single (s : string) :
  split_nl (unfinished s) = [unfinished s].
Proof.
  unfold unfinished. induction s as [|c s IH]; [done |].
  rewrite split_nl_cons. pose proof (split_nl_nonempty s) as Hne.
  destruct (Ascii.eqb c LF) eqn:Hc.
  - destruct (split_nl s) as [|l ls]; [done |]. exact IH.
  - destruct (split_nl s) as [|l ls]; [done |].
    destruct ls as [|l' ls'].
    + simpl in *. by rewrite Hc, IH.
    + exact IH.
Qed.

Lemma complete_lines_app (a b : string) :
  complete_lines (a +:+ b)
  = complete_lines a ++ complete_lines (unfinished a +:+ b).
Proof.
  unfold complete_lines, unfinished. rewrite split_nl_app.
  apply removelast_app_nonempty, split_nl_nonempty.
Qed.

Lemma unfinished_app (a b : string) :
  unfinished (a +:+ b) = unfinished (unfinished a +:+ b).
Proof.
  unfold unfinished. rewrite split_nl_app.
  by rewrite last_app_nonempty by apply split_nl_nonempty.
Qed.

Lemma take_lines_spec (buffer decoded : string) :
  take_lines buffer decoded
  = (complete_lines (buffer +:+ decoded), unfinished (buffer +:+ decoded)).
Proof. reflexivity. Qed.

Section Reader.
Context {St : Type} (handle_line : St → string → St).

(** Reading value after value handles the complete lines of the whole
    text, in order, and is left with its unfinished last line. *)
Lemma read_from (vals : list string) (st : St) (buffer : string) :
  split_nl buffer = [buffer] →
  fold_left (on_value handle_line) vals (st, buffer)
  = (fold_left handle_line (complete_lines (buffer +:+ concat vals)) st,
     unfinished (buffer +:+ concat vals)).
Proof.
  revert st buffer. induction vals as [|v vals IH]; intros st buffer Hb.
  - simpl. change (concat []) with "". rewrite str_app_nil_r.
    unfold complete_lines, unfinished. by rewrite Hb.
  - change (fold_left (on_value handle_line) (v :: vals) (st, buffer))
      with (fold_left (on_value handle_line) vals
              (fold_left handle_line (complete_lines (buffer +:+ v)) st,
               unfinished (buffer +:+ v))).
    rewrite IH by apply unfinished_single.
    rewrite concat_cons, <- str_app_assoc.
    rewrite (complete_lines_app (buffer +:+ v)), fold_left_app.
    by rewrite (unfinished_app (buffer +:+ v)).
Qed.

Lemma read_all_spec (vals : list string) (st : St) :
  read_all handle_line st vals
  = (fold_left handle_line (complete_lines (concat vals)) st,
     unfinished (concat vals)).
Proof. unfold read_all. by rewrite read_from. Qed.

(** Where the values are cut does not matter. *)
Lemma read_all_chunking (vals vals' : list string) (st : St) :
  concat vals = concat vals' →
  read_all handle_line st vals = read_all handle_line st vals'.
Proof. intros H. by rewrite !read_all_spec, H. Qed.
End Reader.

End ReaderFacts.

(** * Streaming: the typed-block route *)

Module TypedFacts.
Import Js JsFacts Stream ReaderFacts.
Import Typed.

Lemma fragments_write (f : string) (st : State) :
  fragments (write (delta_event f) st) = fragments st ++ [f].
Proof. unfold fragments, write. simpl. by rewrite omap_app. Qed.

Lemma fragments_write_delta (f : string) (st : State) :
  fragments (write (createContentBlockDeltaEvent f 0) st)
  = fragments st ++ [f].
Proof. apply fragments_write. Qed.

(** ** One item of an output list *)

Lemma handle_item_skip (st : State) (item : OutputItem) :
  (i_type item ≠ Some "message.answer" ∨ truthy_opt (i_text item) = false) →
  handle_item st item = st.
Proof.
  intros H. unfold handle_item.
  destruct (bool_decide_reflect (i_type item = Some "message.answer"));
    [| done].
  destruct H as [H | ->]; [done | done].
Qed.

Lemma handle_item_cases (st : State) (item : OutputItem) :
  handle_item st item = st
  ∨ ∃ text, i_type item = Some "message.answer" ∧ i_text item = Some text
            ∧ truthy (slice text (String.length (fullContent st))) = true
            ∧ handle_item st item
              = write (delta_event
                         (slice text (String.length (fullContent st))))
                      {| fullContent := text; written := written st |}.
Proof.
  unfold handle_item.
  destruct (bool_decide_reflect (i_type item = Some "message.answer"))
    as [Ht | Ht]; [| by left].
  destruct (i_text item) as [text|] eqn:Htext; [| by left]. simpl.
  destruct (truthy text); [| by left]. simpl.
  destruct (truthy (slice text _)) eqn:Hs; [| by left].
  right. by exists text.
Qed.

(** ** The state keeps the lengths in step, and only deltas are written *)

Lemma slice_more (text : string) (n : nat) :
  truthy (slice text n) = true →
  String.length text = (n + String.length (slice text n))%nat.
Proof.
  intros H. apply truthy_length in H. rewrite slice_length in *. lia.
Qed.

Lemma tidy_write (f text : string) (st : State) :
  tidy st →
  String.length text = (String.length (fullContent st) + String.length f)%nat →
  tidy (write (delta_event f) {| fullContent := text; written := written st |}).
Proof.
  intros [Hw Hl] Hlen. split.
  - rewrite fragments_write. unfold write. simpl.
    rewrite fmap_app. unfold fragments in *. simpl. by rewrite <- Hw.
  - rewrite fragments_write. unfold write at 1. simpl.
    rewrite concat_app, str_length_app.
    unfold fragments in *. simpl in *.
    rewrite Hlen, Hl. unfold concat at 2. simpl.
    by rewrite str_app_nil_r.
Qed.

Lemma tidy_item (st : State) (item : OutputItem) :
  tidy st → tidy (handle_item st item).
Proof.
  intros Ht. destruct (handle_item_cases st item)
    as [-> | (text & _ & _ & Hs & ->)]; [done |].
  apply tidy_write; [done |]. by apply slice_more.
Qed.

Lemma tidy_items (items : list OutputItem) (st : State) :
  tidy st → tidy (fold_left handle_item items st).
Proof.
  revert st. induction items as [|i items IH]; intros st Ht; [done |].
  simpl. by apply IH, tidy_item.
Qed.

Lemma tidy_delta (st : State) (p : Parsed) :
  tidy st → tidy (handle_delta st p).
Proof.
  intros Ht. unfold handle_delta. destruct (is_text_delta p); [| done].
  destruct (truthy _); [| done].
  apply tidy_write; [done |]. simpl. by rewrite str_length_app.
Qed.

Lemma tidy_record (st : State) (p : Parsed) :
  tidy st → tidy (handle_record st p).
Proof.
  intros Ht. unfold handle_record.
  destruct (p_output p); [apply tidy_items |]; by apply tidy_delta.
Qed.

Lemma tidy_records (rs : list Parsed) (st : State) :
  tidy st → tidy (fold_left handle_record rs st).
Proof.
  revert st. induction rs as [|r rs IH]; intros st Ht; [done |].
  simpl. by apply IH, tidy_record.
Qed.

(** ** What was written before does not steer the handler *)

Lemma after_item (pre : list Event) (st : State) (item : OutputItem) :
  handle_item (after pre st) item = after pre (handle_item st item).
Proof.
  unfold handle_item, after. simpl.
  destruct (_ && _); [| done].
  destruct (truthy _); [| done].
  unfold write. simpl. by rewrite app_assoc.
Qed.

Lemma after_items (pre : list Event) (items : list OutputItem) (st : State) :
  fold_left handle_item items (after pre st)
  = after pre (fold_left handle_item items st).
Proof.
  revert st. induction items as [|i items IH]; intros st; [done |].
  simpl. by rewrite after_item, IH.
Qed.

Lemma after_delta (pre : list Event) (st : State) (p : Parsed) :
  handle_delta (after pre st) p = after pre (handle_delta st p).
Proof.
  unfold handle_delta. destruct (is_text_delta p); [| done]. simpl.
  destruct (truthy _); [| done].
  unfold write, after. simpl. by rewrite app_assoc.
Qed.

Lemma after_record (pre : list Event) (st : State) (p : Parsed) :
  handle_record (after pre st) p = after pre (handle_record st p).
Proof.
  unfold handle_record. rewrite after_delta.
  destruct (p_output p); [apply after_items | done].
Qed.

Lemma after_records (pre : list Event) (rs : list Parsed) (st : State) :
  fold_left handle_record rs (after pre st)
  = after pre (fold_left handle_record rs st).
Proof.
  revert st. induction rs as [|r rs IH]; intros st; [done |].
  simpl. by rewrite after_record, IH.
Qed.

(** ** Lines and records *)

Section Route.
Variable JSON_parse : string → option Parsed.

Lemma lines_records (lines : list string) (st : State) :
  fold_left (handle_line JSON_parse) lines st
  = fold_left handle_record (omap (record_of JSON_parse true) lines) st.
Proof.
  revert st. induction lines as [|l lines IH]; intros st; [done |].
  change (fold_left (handle_line JSON_parse) (l :: lines) st)
    with (fold_left (handle_line JSON_parse) lines
            (handle_line JSON_parse st l)).
  rewrite IH.
  change (omap (record_of JSON_parse true) (l :: lines))
    with (match record_of JSON_parse true l with
          | Some y => y :: omap (record_of JSON_parse true) lines
          | None => omap (record_of JSON_parse true) lines
          end).
  unfold handle_line, record_of.
  destruct (startsWith l "data: "); [| done].
  rewrite andb_true_l.
  destruct (String.eqb (slice l 6) "[DONE]"); [done |].
  by destruct (JSON_parse (slice l 6)).
Qed.

(** The state the reading loop of [processStream] ends in. *)
Lemma typed_read_state (pre : list Event) (vals : list string) :
  fst (read_all (handle_line JSON_parse)
                {| fullContent := ""; written := pre |} vals)
  = after pre (typed_state JSON_parse (concat vals)).
Proof.
  rewrite read_all_spec. simpl. rewrite lines_records.
  unfold typed_state, records.
  rewrite <- after_records. unfold after. simpl.
  by rewrite app_nil_r.
Qed.

Lemma typed_state_tidy (text : string) :
  tidy (typed_state JSON_parse text).
Proof. unfold typed_state. by apply tidy_records. Qed.
End Route.

(** ** The whole route *)

Section Outcome.
Variable JSON_parse : string → option Parsed.
Variables model conversationId : string.

Let opening : list Event :=
  [ createMessageStartEvent model (Some conversationId);
    createContentBlockStartEvent 0 ].

Lemma read_written (vals : list string) :
  written (fst (read_all (handle_line JSON_parse)
                  {| fullContent := ""; written := opening |} vals))
  = opening ++ (delta_event <$> typed_fragments JSON_parse (concat vals)).
Proof.
  rewrite typed_read_state. unfold after. simpl.
  by destruct (typed_state_tidy JSON_parse (concat vals)) as [-> _].
Qed.

Lemma read_length (vals : list string) :
  String.length
    (fullContent (fst (read_all (handle_line JSON_parse)
                         {| fullContent := ""; written := opening |} vals)))
  = String.length (concat (typed_fragments JSON_parse (concat vals))).
Proof.
  rewrite typed_read_state. unfold after. simpl.
  by destruct (typed_state_tidy JSON_parse (concat vals)) as [_ ->].
Qed.

Lemma typed_stream_done (vals : list string) :
  let frags := typed_fragments JSON_parse (concat vals) in
  let out := stream_messages JSON_parse model conversationId
               (Opened {| values := vals; ending := Done |}) in
  events out
  = opening ++ (delta_event <$> frags)
    ++ [ createContentBlockStopEvent 0;
         createMessageDeltaEvent
           (Z.of_nat (String.length (concat frags)) / 4);
         createMessageStopEvent ]
  ∧ ended out = true.
Proof.
  intros frags out. unfold out, stream_messages, processStream. simpl.
  pose proof (read_written vals) as Hw.
  pose proof (read_length vals) as Hl.
  destruct (read_all _ _ vals) as [st b]. simpl in *.
  by rewrite Hw, Hl.
Qed.

Lemma typed_stream_broken (vals : list string) (message : string) :
  let frags := typed_fragments JSON_parse (concat vals) in
  let out := stream_messages JSON_parse model conversationId
               (Opened {| values := vals; ending := Broken message |}) in
  events out
  = opening ++ (delta_event <$> frags) ++ error_tail message
  ∧ ended out = true.
Proof.
  intros frags out. unfold out, stream_messages, processStream. simpl.
  pose proof (read_written vals) as Hw.
  destruct (read_all _ _ vals) as [st b]. simpl in *.
  by rewrite Hw.
Qed.

Lemma typed_stream_refused (message : string) :
  let out := stream_messages JSON_parse model conversationId
               (Refused message) in
  events out = opening ++ error_tail message ∧ ended out = true.
Proof. done. Qed.
End Outcome.

(** ** Reading fragments off concrete texts *)

Lemma record_of_data (P : string → option Parsed) (skip : bool)
  (payload : string) :
  String.eqb payload "[DONE]" = false →
  record_of P skip ("data: " +:+ payload) = P payload.
Proof.
  intros H. unfold record_of. rewrite (startsWith_app "data: " payload).
  change (slice ("data: " +:+ payload) 6) with payload.
  by rewrite H, andb_false_r.
Qed.

Lemma record_of_blank (P : string → option Parsed) (skip : bool) :
  record_of P skip "" = None.
Proof. reflexivity. Qed.

Lemma event_names (frags : list string) :
  event <$> (delta_event <$> frags)
  = replicate (length frags) "content_block_delta".
Proof.
  induction frags as [|f fs IH]; [done |].
  rewrite !fmap_cons, IH. reflexivity.
Qed.

End TypedFacts.

(** * Streaming: the flat-delta route *)

Module FlatFacts.
Import Js JsFacts Stream ReaderFacts.
Import Flat.

Lemma delta_of_truthy (p : Parsed) (f : string) :
  delta_of p = Some f → truthy f = true.
Proof.
  unfold delta_of. intros H.
  destruct (is_text_delta p) eqn:Hp; [| done].
  unfold is_text_delta in Hp. apply andb_prop in Hp as [_ Ht].
  by rewrite H in Ht.
Qed.

Lemma delta_of_delta (p : Parsed) :
  is_text_delta p = true →
  delta_of p = Some (default "" (response_delta p)).
Proof.
  intros H. unfold delta_of. rewrite H.
  unfold is_text_delta in H. apply andb_prop in H as [_ H].
  by destruct (response_delta p).
Qed.

Lemma delta_of_other (p : Parsed) :
  is_text_delta p = false → delta_of p = None.
Proof. intros H. unfold delta_of. by rewrite H. Qed.

Lemma chunk_content_delta (model f : string) :
  truthy f = true → chunk_content (delta_chunk model f) = Some f.
Proof. intros H. simpl. by rewrite H. Qed.

Section Route.
Variable JSON_parse : string → option Parsed.
Variable model : string.

Lemma lines_fragments (lines : list string) (st : State) :
  let fs := omap (delta_of) (omap (record_of JSON_parse false) lines) in
  fold_left (handle_line JSON_parse model) lines st
  = {| fullContent := fullContent st +:+ concat fs;
       written := written st ++ (delta_chunk model <$> fs) |}.
Proof.
  revert st. induction lines as [|l lines IH]; intros st.
  - simpl. change (concat []) with "".
    rewrite str_app_nil_r, app_nil_r. by destruct st.
  - change (fold_left (handle_line JSON_parse model) (l :: lines) st)
      with (fold_left (handle_line JSON_parse model) lines
              (handle_line JSON_parse model st l)).
    rewrite IH.
    change (omap (record_of JSON_parse false) (l :: lines))
      with (match record_of JSON_parse false l with
            | Some y => y :: omap (record_of JSON_parse false) lines
            | None => omap (record_of JSON_parse false) lines
            end).
    unfold handle_line, record_of.
    destruct (startsWith l "data: "); [| done].
    rewrite andb_false_l.
    destruct (JSON_parse (slice l 6)) as [p|]; [| done].
    change (omap delta_of (p :: ?t))
      with (match delta_of p with
            | Some y => y :: omap delta_of t
            | None => omap delta_of t
            end).
    destruct (is_text_delta p) eqn:Hp.
    + rewrite (delta_of_delta p Hp). simpl fullContent. simpl written.
      rewrite concat_cons, fmap_cons, str_app_assoc.
      by rewrite <- app_assoc.
    + by rewrite (delta_of_other p Hp).
Qed.

(** Records that are not delta records leave the flat route's state
    alone, whatever their output list holds. *)
Lemma handle_line_other (st : State) (line : string) (p : Parsed) :
  JSON_parse (slice line 6) = Some p → is_text_delta p = false →
  handle_line JSON_parse model st line = st.
Proof.
  intros Hp Hd. unfold handle_line.
  destruct (startsWith line "data: "); [| done].
  by rewrite Hp, Hd.
Qed.

Lemma flat_read_state (vals : list string) :
  fst (read_all (handle_line JSON_parse model)
                {| fullContent := ""; written := [] |} vals)
  = {| fullContent := concat (flat_fragments JSON_parse (concat vals));
       written := delta_chunk model
                  <$> flat_fragments JSON_parse (concat vals) |}.
Proof.
  rewrite read_all_spec. simpl. by rewrite lines_fragments.
Qed.

Lemma flat_fragments_truthy (text f : string) :
  f ∈ flat_fragments JSON_parse text → truthy f = true.
Proof.
  unfold flat_fragments. intros H.
  apply list_elem_of_omap in H as (p & _ & Hp).
  by apply delta_of_truthy in Hp.
Qed.

Lemma contents_of_chunks (fs : list string) (tail : list Frame) :
  (∀ f, f ∈ fs → truthy f = true) →
  omap chunk_content ((delta_chunk model <$> fs) ++ tail)
  = fs ++ omap chunk_content tail.
Proof.
  intros H. rewrite omap_app. f_equal.
  induction fs as [|f fs IH]; [done |].
  rewrite fmap_cons.
  change (omap chunk_content (delta_chunk model f :: ?t))
    with (match chunk_content (delta_chunk model f) with
          | Some y => y :: omap chunk_content t
          | None => omap chunk_content t
          end).
  rewrite chunk_content_delta by (apply H; by left).
  rewrite IH; [done |]. intros g Hg. apply H. by right.
Qed.

Lemma no_terminal_in_chunks (fs : list string) :
  filter (λ f, is_terminal f = true) (delta_chunk model <$> fs) = [].
Proof.
  induction fs as [|f fs IH]; [done |].
  rewrite fmap_cons, filter_cons_False; [done |]. simpl. done.
Qed.

Lemma no_done_in_chunks (fs : list string) :
  filter (λ f, is_done f = true) (delta_chunk model <$> fs) = [].
Proof.
  induction fs as [|f fs IH]; [done |].
  rewrite fmap_cons, filter_cons_False; [done |]. simpl. done.
Qed.

Lemma flat_stream_done (conversationId : string) (vals : list string) :
  let frags := flat_fragments JSON_parse (concat vals) in
  let out := handleStreamingResponse JSON_parse model conversationId
               (Some {| values := vals; ending := Done |}) in
  frames out = (delta_chunk model <$> frags) ++ finish model
  ∧ ended out = true
  ∧ saved out = (if truthy conversationId && truthy (concat frags)
                 then Some (concat frags) else None).
Proof.
  intros frags out. unfold out, handleStreamingResponse. simpl.
  pose proof (flat_read_state vals) as Hst.
  destruct (read_all _ _ vals) as [st b]. simpl in *. by subst st.
Qed.

Lemma flat_stream_broken (conversationId : string) (vals : list string)
  (message : string) :
  let frags := flat_fragments JSON_parse (concat vals) in
  let out := handleStreamingResponse JSON_parse model conversationId
               (Some {| values := vals; ending := Broken message |}) in
  frames out
  = (delta_chunk model <$> frags)
    ++ [Literal (qq "{'error': 'Streaming error: " +:+ message
                 +:+ qq "'}")]
    ++ finish model
  ∧ ended out = true.
Proof.
  intros frags out. unfold out, handleStreamingResponse. simpl.
  pose proof (flat_read_state vals) as Hst.
  destruct (read_all _ _ vals) as [st b]. simpl in *. by subst st.
Qed.
End Route.

End FlatFacts.

(** * Streaming: the claims *)

Module StreamFacts.
Import Js JsFacts Stream ReaderFacts.

Lemma omap_cons_eq {A B} (f : A → option B) (x : A) (l : list A) :
  omap f (x :: l)
  = match f x with Some y => y :: omap f l | None => omap f l end.
Proof. reflexivity. Qed.

(** ** Output lists: what an item adds *)

Lemma item_fragments_answer (st : Typed.State) (item : OutputItem)
  (text : string) :
  i_type item = Some "message.answer" → i_text item = Some text →
  item_fragments st item
  = (if truthy (slice text (String.length (Typed.fullContent st)))
     then [slice text (String.length (Typed.fullContent st))] else [])
  ∧ Typed.fullContent (Typed.handle_item st item)
    = (if truthy (slice text (String.length (Typed.fullContent st)))
       then text else Typed.fullContent st).
Proof.
  intros Hty Htx. unfold item_fragments, Typed.handle_item.
  rewrite Hty, Htx. rewrite bool_decide_eq_true_2 by done. simpl.
  destruct text as [|c text].
  - simpl. destruct (String.length _); simpl; by rewrite drop_all.
  - simpl truthy. cbn iota.
    destruct (truthy (slice (String c text) _)) eqn:Hs.
    + rewrite (TypedFacts.fragments_write_delta _
                 {| Typed.fullContent := String c text;
                    Typed.written := Typed.written st |}).
      change (Typed.fragments {| Typed.fullContent := String c text;
                                  Typed.written := Typed.written st |})
        with (Typed.fragments st).
      by rewrite drop_app_length.
    + by rewrite drop_all.
Qed.

Lemma item_fragments_extension (st : Typed.State) (item : OutputItem)
  (text more : string) :
  i_type item = Some "message.answer" → i_text item = Some text →
  text = Typed.fullContent st +:+ more →
  item_fragments st item = (if truthy more then [more] else []).
Proof.
  intros Hty Htx ->.
  destruct (item_fragments_answer st item _ Hty Htx) as [-> _].
  by rewrite slice_app_length.
Qed.

Lemma extension_sends_unsent_suffix (st : Typed.State) (item : OutputItem) :
  concat (Typed.fragments st) = Typed.fullContent st →
  (∀ text, i_text item = Some text →
           str_prefix (Typed.fullContent st) text) →
  sends_unsent_suffix st item.
Proof.
  intros Hinv Hext text Hty Htx.
  destruct (Hext text Htx) as [more Hmore].
  exists (Typed.fullContent st). split.
  - exists "". by rewrite str_app_nil_r.
  - rewrite (item_fragments_extension st item text more Hty Htx Hmore).
    rewrite Hmore. destruct more as [|c more]; [done |].
    change (concat (if truthy (String c more) then [String c more] else []))
      with (String c more +:+ "").
    by rewrite str_app_nil_r.
Qed.

Lemma delta_emitted (st : Typed.State) (p : Parsed) (delta : string) :
  is_text_delta p = true → response_delta p = Some delta →
  Typed.handle_delta st p
  = Typed.write (Typed.createContentBlockDeltaEvent delta 0)
      {| Typed.fullContent := Typed.fullContent st +:+ delta;
         Typed.written := Typed.written st |}.
Proof.
  intros Hp Hd. unfold Typed.handle_delta. rewrite Hp, Hd. simpl.
  unfold is_text_delta in Hp. apply andb_prop in Hp as [_ Ht].
  rewrite Hd in Ht. simpl in Ht. by rewrite Ht.
Qed.

(** A run of full-replacement records, each extending the text before
    it: the fragments are the increments that are not empty, in order. *)
Lemma growing_fragments (incs : list string) (st : Typed.State) :
  Typed.fragments
    (fold_left Typed.handle_record
       ((λ t, output_record [t]) <$> growing (Typed.fullContent st) incs)
       st)
  = Typed.fragments st ++ filter (λ inc, truthy inc = true) incs.
Proof.
  revert st. induction incs as [|inc incs IH]; intros st.
  - simpl. by rewrite app_nil_r.
  - change (growing (Typed.fullContent st) (inc :: incs))
      with ((Typed.fullContent st +:+ inc)
              :: growing (Typed.fullContent st +:+ inc) incs).
    rewrite fmap_cons.
    change (fold_left Typed.handle_record (?r :: ?rs) st)
      with (fold_left Typed.handle_record rs (Typed.handle_record st r)).
    change (Typed.handle_record st
              (output_record [Typed.fullContent st +:+ inc]))
      with (Typed.handle_item st
              (answer_item (Typed.fullContent st +:+ inc))).
    destruct (item_fragments_answer st
                (answer_item (Typed.fullContent st +:+ inc))
                (Typed.fullContent st +:+ inc) eq_refl eq_refl)
      as [Hfr Hfull].
    rewrite slice_app_length in Hfr, Hfull.
    destruct (TypedFacts.handle_item_cases st
                (answer_item (Typed.fullContent st +:+ inc)))
      as [Hsame | (text & _ & Htext & Hs & Hwrite)].
    + rewrite Hsame in *.
      destruct (truthy inc) eqn:Hinc.
      * unfold item_fragments in Hfr. rewrite Hsame, drop_all in Hfr.
        discriminate Hfr.
      * rewrite filter_cons_False by (by rewrite Hinc).
        destruct inc; [| done]. rewrite str_app_nil_r. apply IH.
    + injection Htext as <-. rewrite slice_app_length in Hs, Hwrite.
      rewrite Hwrite, filter_cons_True by done.
      set (st' := Typed.write _ _).
      change (Typed.fullContent st +:+ inc) with (Typed.fullContent st').
      rewrite IH. unfold st'. rewrite TypedFacts.fragments_write.
      change (Typed.fragments {| Typed.fullContent := _;
                                  Typed.written := Typed.written st |})
        with (Typed.fragments st).
      by rewrite <- app_assoc.
Qed.




(** ** Reading the sample texts *)

Lemma cut_chunks_lines :
  complete_lines (concat [cut_chunk_1; cut_chunk_2])
  = ["data: " +:+ delta_payload "hi"; ""].
Proof. vm_compute. reflexivity. Qed.

Lemma three_records_lines :
  complete_lines
    (concat [ sse_data (delta_payload "Hel"); sse_data (delta_payload "lo");
              sse_data (delta_payload " world") ])
  = [ "data: " +:+ delta_payload "Hel"; "";
      "data: " +:+ delta_payload "lo"; "";
      "data: " +:+ delta_payload " world"; "" ].
Proof. vm_compute. reflexivity. Qed.

Section Samples.
Variable JSON_parse : string → option Parsed.

Lemma cut_chunks_records (skip : bool) :
  JSON_parse (delta_payload "hi") = Some (delta_record "hi") →
  records JSON_parse skip (concat [cut_chunk_1; cut_chunk_2])
  = [delta_record "hi"].
Proof.
  intros H. unfold records. rewrite cut_chunks_lines.
  rewrite !omap_cons_eq, TypedFacts.record_of_data by reflexivity.
  by rewrite H, TypedFacts.record_of_blank.
Qed.

Lemma three_records (skip : bool) :
  JSON_parse (delta_payload "Hel") = Some (delta_record "Hel") →
  JSON_parse (delta_payload "lo") = Some (delta_record "lo") →
  JSON_parse (delta_payload " world") = Some (delta_record " world") →
  records JSON_parse skip
    (concat [ sse_data (delta_payload "Hel");
              sse_data (delta_payload "lo");
              sse_data (delta_payload " world") ])
  = [delta_record "Hel"; delta_record "lo"; delta_record " world"].
Proof.
  intros H1 H2 H3. unfold records. rewrite three_records_lines.
  rewrite !omap_cons_eq, !TypedFacts.record_of_data by reflexivity.
  by rewrite H1, H2, H3, !TypedFacts.record_of_blank.
Qed.
End Samples.

(** C2. Each value read is appended to the buffer, the buffer is split at
    line feeds, the complete lines are handled and what follows the last
    line feed is kept; so over any sequence of values the lines handled
    are the complete lines of the whole text, in order, whatever the cuts,
    and the buffer ends as the unfinished rest, which holds no line feed.
    For the two chunks of the test, cut inside the value of [type], both
    routes emit the one fragment "hi". *)
Theorem line_reassembly :
  (∀ buffer decoded,
     take_lines buffer decoded
     = (complete_lines (buffer +:+ decoded),
        unfinished (buffer +:+ decoded)))
  ∧ (∀ (St : Type) (handle_line : St → string → St) st vals,
       read_all handle_line st vals
       = (fold_left handle_line (complete_lines (concat vals)) st,
          unfinished (concat vals)))
  ∧ (∀ text, split_nl (unfinished text) = [unfinished text])
  ∧ (∀ a b, complete_lines (a +:+ b)
            = complete_lines a ++ complete_lines (unfinished a +:+ b))
  ∧ (∀ JSON_parse model conversationId,
       JSON_parse (delta_payload "hi") = Some (delta_record "hi") →
       omap Typed.delta_text
         (Typed.events
            (Typed.stream_messages JSON_parse model conversationId
               (Typed.Opened {| values := [cut_chunk_1; cut_chunk_2];
                                ending := Done |})))
       = ["hi"]
       ∧ omap Flat.chunk_content
           (Flat.frames
              (Flat.handleStreamingResponse JSON_parse model conversationId
                 (Some {| values := [cut_chunk_1; cut_chunk_2];
                          ending := Done |})))
         = ["hi"]).
Proof.
  repeat apply conj.
  - apply take_lines_spec.
  - intros St handle_line st vals. apply read_all_spec.
  - apply unfinished_single.
  - apply complete_lines_app.
  - intros P model cid H. split.
    + destruct (TypedFacts.typed_stream_done P model cid
                  [cut_chunk_1; cut_chunk_2]) as [-> _].
      unfold typed_fragments, typed_state.
      rewrite (cut_chunks_records P true H). reflexivity.
    + destruct (FlatFacts.flat_stream_done P model cid
                  [cut_chunk_1; cut_chunk_2]) as (-> & _).
      unfold flat_fragments.
      rewrite (cut_chunks_records P false H). reflexivity.
Qed.

Lemma line_reassembly_witness :
  omap Typed.delta_text
    (Typed.events
       (Typed.stream_messages hi_parser "claude-3-haiku-20240307" "c1"
          (Typed.Opened {| values := [cut_chunk_1; cut_chunk_2];
                           ending := Done |})))
  = ["hi"]
  ∧ omap Flat.chunk_content
      (Flat.frames
         (Flat.handleStreamingResponse hi_parser "express" "c1"
            (Some {| values := [cut_chunk_1; cut_chunk_2];
                     ending := Done |})))
    = ["hi"].
Proof.
  destruct line_reassembly as (_ & _ & _ & _ & Htest).
  split.
  - apply (Htest hi_parser "claude-3-haiku-20240307" "c1"). reflexivity.
  - apply (Htest hi_parser "express" "c1"). reflexivity.
Defined.

(** C3. For a body that ends normally the typed-block route writes, in
    this order and once each: [message_start] (empty content, usage 0
    and 0, the conversation identifier when it is not empty), then
    [content_block_start] (index 0, empty text), then one
    [content_block_delta] (index 0) per fragment in order, then
    [content_block_stop] (index 0), [message_delta] with stop reason
    [end_turn] and the output token count floor(length / 4) of the text
    accumulated, which is as long as the fragments together, then
    [message_stop], and ends the response. The fragments "Hel", "lo",
    " world" give three deltas with these texts and the count 2. *)
Theorem typed_block_sequence :
  (∀ JSON_parse model conversationId vals,
     let frags := typed_fragments JSON_parse (concat vals) in
     let out := Typed.stream_messages JSON_parse model conversationId
                  (Typed.Opened {| values := vals; ending := Done |}) in
     Typed.events out
     = [ Typed.createMessageStartEvent model (Some conversationId);
         Typed.createContentBlockStartEvent 0 ]
       ++ ((λ f, Typed.createContentBlockDeltaEvent f 0) <$> frags)
       ++ [ Typed.createContentBlockStopEvent 0;
            Typed.createMessageDeltaEvent
              (Z.of_nat (String.length (concat frags)) / 4);
            Typed.createMessageStopEvent ]
     ∧ Typed.event <$> Typed.events out
       = ["message_start"; "content_block_start"]
         ++ replicate (length frags) "content_block_delta"
         ++ ["content_block_stop"; "message_delta"; "message_stop"]
     ∧ omap Typed.delta_text (Typed.events out) = frags
     ∧ Typed.ended out = true)
  ∧ (∀ JSON_parse text,
       String.length (Typed.fullContent (typed_state JSON_parse text))
       = String.length (concat (typed_fragments JSON_parse text)))
  ∧ (∀ model conversationId,
       Typed.createMessageStartEvent model conversationId
       = {| Typed.event := "message_start";
            Typed.data :=
              Typed.DMessageStart
                {| Typed.m_type := "message";
                   Typed.m_role := "assistant";
                   Typed.m_content := [];
                   Typed.m_model := model;
                   Typed.m_stop_reason := None;
                   Typed.m_stop_sequence := None;
                   Typed.m_input_tokens := 0;
                   Typed.m_output_tokens := 0;
                   Typed.m_conversation_id :=
                     if truthy_opt conversationId then conversationId
                     else None |} |})
  ∧ Typed.createContentBlockStartEvent 0
    = {| Typed.event := "content_block_start";
         Typed.data := Typed.DContentBlockStart 0 "text" "" |}
  ∧ (∀ f, Typed.createContentBlockDeltaEvent f 0
          = {| Typed.event := "content_block_delta";
               Typed.data := Typed.DContentBlockDelta 0 "text_delta" f |})
  ∧ Typed.createContentBlockStopEvent 0
    = {| Typed.event := "content_block_stop";
         Typed.data := Typed.DContentBlockStop 0 |}
  ∧ (∀ n, Typed.createMessageDeltaEvent n
          = {| Typed.event := "message_delta";
               Typed.data := Typed.DMessageDelta "end_turn" None n |})
  ∧ Typed.createMessageStopEvent
    = {| Typed.event := "message_stop"; Typed.data := Typed.DMessageStop |}
  ∧ (∀ JSON_parse model conversationId,
       JSON_parse (delta_payload "Hel") = Some (delta_record "Hel") →
       JSON_parse (delta_payload "lo") = Some (delta_record "lo") →
       JSON_parse (delta_payload " world") = Some (delta_record " world") →
       Typed.events
         (Typed.stream_messages JSON_parse model conversationId
            (Typed.Opened {| values := three_values; ending := Done |}))
       = [ Typed.createMessageStartEvent model (Some conversationId);
           Typed.createContentBlockStartEvent 0;
           Typed.createContentBlockDeltaEvent "Hel" 0;
           Typed.createContentBlockDeltaEvent "lo" 0;
           Typed.createContentBlockDeltaEvent " world" 0;
           Typed.createContentBlockStopEvent 0;
           Typed.createMessageDeltaEvent 2;
           Typed.createMessageStopEvent ]).
Proof.
  repeat apply conj; try reflexivity.
  - intros P model cid vals frags out.
    destruct (TypedFacts.typed_stream_done P model cid vals) as [Hev Hend].
    fold frags in Hev. fold out in Hev, Hend.
    repeat apply conj; [exact Hev | | | exact Hend].
    + rewrite Hev, !fmap_app, TypedFacts.event_names. reflexivity.
    + rewrite Hev, !omap_app.
      assert (omap Typed.delta_text (Typed.delta_event <$> frags)
              = frags) as ->.
      { clear. induction frags as [|f fs IH]; [done |].
        rewrite fmap_cons, omap_cons_eq, IH. reflexivity. }
      apply app_nil_r.
  - intros P text.
    by destruct (TypedFacts.typed_state_tidy P text) as [_ ->].
  - intros P model cid H1 H2 H3.
    destruct (TypedFacts.typed_stream_done P model cid three_values) as [-> _].
    unfold typed_fragments, typed_state, three_values.
    rewrite (three_records P true H1 H2 H3). reflexivity.
Qed.

Lemma typed_block_sequence_witness :
  Typed.events
    (Typed.stream_messages three_parser "claude-3-haiku-20240307" "c1"
       (Typed.Opened {| values := three_values; ending := Done |}))
  = [ Typed.createMessageStartEvent "claude-3-haiku-20240307" (Some "c1");
      Typed.createContentBlockStartEvent 0;
      Typed.createContentBlockDeltaEvent "Hel" 0;
      Typed.createContentBlockDeltaEvent "lo" 0;
      Typed.createContentBlockDeltaEvent " world" 0;
      Typed.createContentBlockStopEvent 0;
      Typed.createMessageDeltaEvent 2;
      Typed.createMessageStopEvent ].
Proof.
  destruct typed_block_sequence as (_ & _ & _ & _ & _ & _ & _ & _ & Hthree).
  apply (Hthree three_parser); reflexivity.
Defined.

(** C4. For a body that ends normally the flat-delta route writes one
    delta chunk per fragment, whose [delta.content] is the fragment, so
    that the contents concatenated are the fragments concatenated (and
    the text saved as the assistant turn); then one chunk with an empty
    delta and [finish_reason] [stop], the only chunk with a finish
    reason; then the literal [[DONE]] record, the only one; and ends the
    response. The fragments "Hel", "lo", " world" give contents that
    concatenate to "Hello world". *)
Theorem flat_delta_sequence :
  (∀ JSON_parse model conversationId vals,
     let frags := flat_fragments JSON_parse (concat vals) in
     let out := Flat.handleStreamingResponse JSON_parse model conversationId
                  (Some {| values := vals; ending := Done |}) in
     Flat.frames out
     = ((λ f, Flat.Json (Flat.createStreamChunk model (Some f) None))
          <$> frags)
       ++ [ Flat.Json (Flat.createStreamChunk model None (Some "stop"));
            Flat.Literal "[DONE]" ]
     ∧ omap Flat.chunk_content (Flat.frames out) = frags
     ∧ concat (omap Flat.chunk_content (Flat.frames out)) = concat frags
     ∧ filter (λ f, Flat.is_terminal f = true) (Flat.frames out)
       = [Flat.Json (Flat.createStreamChunk model None (Some "stop"))]
     ∧ filter (λ f, Flat.is_done f = true) (Flat.frames out)
       = [Flat.Literal "[DONE]"]
     ∧ last (Flat.frames out) = Some (Flat.Literal "[DONE]")
     ∧ Flat.ended out = true
     ∧ Flat.saved out
       = (if truthy conversationId && truthy (concat frags)
          then Some (concat frags) else None))
  ∧ (∀ model,
       Flat.createStreamChunk model None (Some "stop")
       = {| Flat.object := "chat.completion.chunk";
            Flat.model := "you-" +:+ model; Flat.index := 0;
            Flat.delta_content := None;
            Flat.finish_reason := Some "stop" |})
  ∧ (∀ JSON_parse model conversationId,
       JSON_parse (delta_payload "Hel") = Some (delta_record "Hel") →
       JSON_parse (delta_payload "lo") = Some (delta_record "lo") →
       JSON_parse (delta_payload " world") = Some (delta_record " world") →
       let out := Flat.handleStreamingResponse JSON_parse model
                    conversationId
                    (Some {| values := three_values; ending := Done |}) in
       omap Flat.chunk_content (Flat.frames out) = ["Hel"; "lo"; " world"]
       ∧ concat (omap Flat.chunk_content (Flat.frames out)) = "Hello world"
       ∧ length (Flat.frames out) = 5%nat).
Proof.
  repeat apply conj; try reflexivity.
  - intros P model cid vals frags out.
    destruct (FlatFacts.flat_stream_done P model cid vals)
      as (Hfr & Hend & Hsaved).
    fold frags in Hfr, Hsaved. fold out in Hfr, Hend, Hsaved.
    assert (omap Flat.chunk_content (Flat.frames out) = frags) as Hcont.
    { rewrite Hfr, FlatFacts.contents_of_chunks.
      - simpl. apply app_nil_r.
      - intros f Hf. by eapply FlatFacts.flat_fragments_truthy. }
    repeat apply conj; [exact Hfr | exact Hcont | by rewrite Hcont | | |
                        | exact Hend | exact Hsaved].
    + by rewrite Hfr, filter_app, FlatFacts.no_terminal_in_chunks.
    + by rewrite Hfr, filter_app, FlatFacts.no_done_in_chunks.
    + rewrite Hfr. unfold Flat.finish.
      by rewrite last_app_nonempty.
  - intros P model cid H1 H2 H3 out.
    destruct (FlatFacts.flat_stream_done P model cid three_values)
      as (Hfr & _ & _).
    fold out in Hfr. rewrite Hfr. unfold flat_fragments, three_values.
    rewrite (three_records P false H1 H2 H3). repeat split.
Qed.

Lemma flat_delta_sequence_witness :
  concat
    (omap Flat.chunk_content
       (Flat.frames
          (Flat.handleStreamingResponse three_parser "express" "c1"
             (Some {| values := three_values; ending := Done |}))))
  = "Hello world".
Proof.
  apply (proj2 (proj2 flat_delta_sequence) three_parser "express" "c1");
    reflexivity.
Defined.


End StreamFacts.

(** * Key rotation over pools of any size, and the status report *)

Module KeyStatusFacts.
Import Js JsFacts Keys KeyStatus.

Section Pool.
Variable pool : list string.
Variable mode : string.

Lemma get_in_range (rnd : nat) (s : State) :
  (currentKeyIndex s < length pool)%nat → (rnd < length pool)%nat →
  ∃ key s', getNextApiKey pool mode rnd s = Some (Some key, s')
            ∧ key ∈ pool
            ∧ (currentKeyIndex s' < length pool)%nat
            ∧ keyUsageCount s' = bump (Some key) (keyUsageCount s)
            ∧ keyErrorCount s' = keyErrorCount s.
Proof.
  intros Hc Hr. unfold getNextApiKey.
  destruct (Nat.eqb_spec (length pool) 0) as [H0 | H0]; [lia |].
  destruct (lookup_lt_is_Some_2 pool 0%nat ltac:(lia)) as [k0 Hk0].
  destruct (lookup_lt_is_Some_2 pool _ Hc) as [kc Hkc].
  destruct (lookup_lt_is_Some_2 pool _ Hr) as [kr Hkr].
  destruct (length pool =? 1)%nat.
  { exists k0. eexists. rewrite Hk0. repeat apply conj; try done.
    by eapply list_elem_of_lookup_2. }
  destruct (String.eqb mode "sequential").
  { exists kc. eexists. rewrite Hkc. repeat apply conj; try done.
    by eapply list_elem_of_lookup_2. }
  destruct (String.eqb mode "random").
  { exists kr. eexists. rewrite Hkr. repeat apply conj; try done.
    by eapply list_elem_of_lookup_2. }
  exists kc. eexists. rewrite Hkc. repeat apply conj; try done.
  - by eapply list_elem_of_lookup_2.
  - simpl. apply Nat.mod_upper_bound. lia.
Qed.

Lemma mark_in_range (k : Key) (s : State) :
  (currentKeyIndex s < length pool)%nat →
  (currentKeyIndex (markKeyError pool mode k s) < length pool)%nat.
Proof.
  intros Hc. unfold markKeyError. simpl.
  destruct (String.eqb mode "sequential"); [| done].
  apply Nat.mod_upper_bound. lia.
Qed.

Lemma handouts_cons (key k : Key) (ks : list Key) :
  handouts key (k :: ks)
  = ((if decide (k = key) then 1 else 0) + handouts key ks)%nat.
Proof.
  unfold handouts. destruct (decide (k = key)).
  - by rewrite filter_cons_True.
  - by rewrite filter_cons_False.
Qed.

Lemma bump_lookup (key k : Key) (m : gmap Key nat) :
  default 0%nat (bump k m !! key)
  = ((if decide (k = key) then 1 else 0) + default 0%nat (m !! key))%nat.
Proof.
  unfold bump. destruct (decide (k = key)) as [-> | Hne].
  - rewrite lookup_insert_eq. simpl. lia.
  - by rewrite lookup_insert_ne.
Qed.

(** The usage counters count the keys handed out. *)
Lemma run_usage (ops : list Op) (last : Key) (s s' : State)
  (ks : list Key) :
  (currentKeyIndex s < length pool)%nat →
  Forall (λ op, draw_in_range (length pool) op = true) ops →
  run pool mode ops last s = Some (ks, s') →
  ∀ key, default 0%nat (keyUsageCount s' !! key)
         = (default 0%nat (keyUsageCount s !! key) + handouts key ks)%nat.
Proof.
  revert last s ks. induction ops as [|op ops IH]; intros last s ks Hc Hops.
  - simpl. intros [= <- <-] key. unfold handouts. simpl. lia.
  - apply Forall_cons in Hops as [Hop Hops]. destruct op as [rnd|]; simpl.
    + apply Nat.ltb_lt in Hop.
      destruct (get_in_range rnd s Hc Hop)
        as (k & s1 & -> & _ & Hc1 & Hu & _).
      destruct (run pool mode ops (Some k) s1) as [[ks1 s2]|] eqn:Hrun;
        [| done].
      intros [= <- <-] key.
      rewrite (IH _ _ _ Hc1 Hops Hrun key), Hu, bump_lookup, handouts_cons.
      lia.
    + intros Hrun key.
      rewrite (IH _ _ _ (mark_in_range last s Hc) Hops Hrun key). done.
Qed.
End Pool.

(** X1. With a cursor inside the pool and draws inside the pool, a run of
    calls of [getNextApiKey] and [markKeyError] never throws, hands out
    one key per call of [getNextApiKey], hands out configured keys only
    (never [undefined]), and leaves the cursor inside the pool. *)
Theorem handouts_are_configured (pool : list string) (mode : string)
  (ops : list Op) (last : Key) (s : State) :
  (currentKeyIndex s < length pool)%nat →
  Forall (λ op, draw_in_range (length pool) op = true) ops →
  ∃ ks s',
    run pool mode ops last s = Some (ks, s')
    ∧ length ks = length (filter (λ op, is_get op = true) ops)
    ∧ Forall (λ k, ∃ key, k = Some key ∧ key ∈ pool) ks
    ∧ (currentKeyIndex s' < length pool)%nat.
Proof.
  revert last s. induction ops as [|op ops IH]; intros last s Hc Hops.
  - exists [], s. by repeat apply conj.
  - apply Forall_cons in Hops as [Hop Hops]. destruct op as [rnd|].
    + apply Nat.ltb_lt in Hop.
      destruct (get_in_range pool mode rnd s Hc Hop)
        as (k & s1 & Hget & Hin & Hc1 & _).
      destruct (IH (Some k) s1 Hc1 Hops) as (ks & s' & Hrun & Hlen & Hall & Hc').
      exists (Some k :: ks), s'.
      repeat apply conj; try done.
      * simpl. by rewrite Hget, Hrun.
      * rewrite filter_cons_True by done. simpl. by rewrite Hlen.
      * apply Forall_cons. split; [by exists k | done].
    + destruct (IH last (markKeyError pool mode last s)
                  (mark_in_range pool mode last s Hc) Hops)
        as (ks & s' & Hrun & Hlen & Hall & Hc').
      exists ks, s'. by repeat apply conj.
Qed.

Lemma handouts_are_configured_witness :
  ∃ ks s',
    run pool3 "random" ops5 None initial = Some (ks, s')
    ∧ length ks = length (filter (λ op, is_get op = true) ops5)
    ∧ Forall (λ k, ∃ key, k = Some key ∧ key ∈ pool3) ks
    ∧ (currentKeyIndex s' < length pool3)%nat.
Proof.
  apply (handouts_are_configured pool3 "random" ops5 None initial).
  - simpl. lia.
  - repeat constructor.
Defined.

(** X2. After a run that starts with the counters empty, [getKeyStatus]
    lists one row per configured key, in pool order, and the row of a key
    reports as [usage_count] the number of times that key was handed out;
    [is_current] marks the row at the cursor. *)
Theorem status_reports_handouts (pool : list string) (mode : string)
  (ops : list Op) (last : Key) (ks : list Key) (s' : State) :
  Forall (λ op, draw_in_range (length pool) op = true) ops →
  run pool mode ops last initial = Some (ks, s') →
  total_keys (getKeyStatus pool mode s') = length pool
  ∧ length (keys (getKeyStatus pool mode s')) = length pool
  ∧ ∀ i key,
      pool !! i = Some key →
      ∃ row,
        keys (getKeyStatus pool mode s') !! i = Some row
        ∧ index row = i
        ∧ usage_count row = handouts (Some key) ks
        ∧ is_current row = bool_decide (i = currentKeyIndex s').
Proof.
  intros Hops Hrun. split; [done |]. split.
  { unfold getKeyStatus. simpl. by rewrite length_imap. }
  intros i key Hi. eexists. split.
  { unfold getKeyStatus. simpl. rewrite list_lookup_imap, Hi. done. }
  simpl. repeat apply conj; try done.
  destruct pool as [|k0 pool']; [done |].
  rewrite (run_usage (k0 :: pool') mode ops last initial s' ks); try done.
  simpl. lia.
Qed.

Lemma status_reports_handouts_witness :
  ∃ ks s',
    run pool3 "random" ops5 None initial = Some (ks, s')
    ∧ ∃ row,
        keys (getKeyStatus pool3 "random" s') !! 1%nat = Some row
        ∧ usage_count row = handouts (Some "key-bbbb-0002") ks
        ∧ usage_count row = 2%nat.
Proof.
  eexists _, _. split; [reflexivity |].
  edestruct (status_reports_handouts pool3 "random" ops5 None) as (_ & _ & H);
    [repeat constructor | reflexivity |].
  destruct (H 1%nat "key-bbbb-0002" eq_refl) as (row & Hrow & _ & Hu & _).
  exists row. split; [exact Hrow |]. split; [exact Hu |].
  rewrite Hu. reflexivity.
Defined.

(** ** Pools of any size *)

Lemma round_robin_from (pool : list string) (rnds : list nat) (last : Key)
  (s : State) :
  (2 ≤ length pool)%nat → (currentKeyIndex s < length pool)%nat →
  ∃ s',
    run pool "round-robin" (Get <$> rnds) last s
    = Some ((λ i, pool !! ((currentKeyIndex s + i) mod length pool)%nat)
              <$> seq 0 (length rnds), s').
Proof.
  intros HL. revert last s.
  induction rnds as [|rnd rnds IH]; intros last s Hc; [by exists s |].
  rewrite fmap_cons. cbn [run].
  assert (∃ s1, getNextApiKey pool "round-robin" rnd s
                = Some (pool !! currentKeyIndex s, s1)
                ∧ currentKeyIndex s1
                  = ((currentKeyIndex s + 1) mod length pool)%nat)
    as (s1 & -> & Hc1).
  { unfold getNextApiKey.
    destruct (Nat.eqb_spec (length pool) 0) as [H0 | _]; [lia |].
    destruct (Nat.eqb_spec (length pool) 1) as [H1 | _]; [lia |].
    eexists. split; reflexivity. }
  destruct (IH (pool !! currentKeyIndex s) s1) as (s' & ->).
  { rewrite Hc1. apply Nat.mod_upper_bound. lia. }
  exists s'. f_equal. f_equal.
  cbn [length]. rewrite <- cons_seq, fmap_cons, <- fmap_S_seq.
  f_equal.
  - by rewrite Nat.add_0_r, Nat.mod_small.
  - rewrite <- list_fmap_compose. apply list_fmap_ext. intros _ i _. simpl.
    rewrite Hc1, Nat.Div0.add_mod_idemp_l. f_equal. f_equal. lia.
Qed.

Lemma sequential_marks (pool : list string) (e : nat) (ops : list Op)
  (last : Key) (s : State) :
  (currentKeyIndex s < length pool)%nat →
  ∃ s1, run pool "sequential" (replicate e MarkLast ++ ops) last s
        = run pool "sequential" ops last s1
        ∧ currentKeyIndex s1
          = ((currentKeyIndex s + e) mod length pool)%nat.
Proof.
  revert s. induction e as [|e IH]; intros s Hc.
  - exists s. split; [done |]. by rewrite Nat.add_0_r, Nat.mod_small.
  - destruct (IH (markKeyError pool "sequential" last s)
                (mark_in_range pool "sequential" last s Hc))
      as (s1 & Hrun & Hc1).
    exists s1. split; [exact Hrun |].
    rewrite Hc1. simpl. rewrite Nat.Div0.add_mod_idemp_l.
    f_equal. lia.
Qed.

Lemma sequential_gets (pool : list string) (rnds : list nat) (last : Key)
  (s : State) :
  (2 ≤ length pool)%nat →
  ∃ s', run pool "sequential" (Get <$> rnds) last s
        = Some (replicate (length rnds) (pool !! currentKeyIndex s), s').
Proof.
  intros HL. revert last s.
  induction rnds as [|rnd rnds IH]; intros last s; [by exists s |].
  rewrite fmap_cons. cbn [run].
  assert (∃ s1, getNextApiKey pool "sequential" rnd s
                = Some (pool !! currentKeyIndex s, s1)
                ∧ currentKeyIndex s1 = currentKeyIndex s)
    as (s1 & -> & Hc1).
  { unfold getNextApiKey.
    destruct (Nat.eqb_spec (length pool) 0) as [H0 | _]; [lia |].
    destruct (Nat.eqb_spec (length pool) 1) as [H1 | _]; [lia |].
    eexists. split; reflexivity. }
  destruct (IH (pool !! currentKeyIndex s) s1) as (s' & ->).
  exists s'. by rewrite Hc1.
Qed.

(** X3. For a pool of two or more keys: under round-robin the i-th call
    in a row (counted from 0, from the start of the process) returns the
    key at position [i mod n], so the pool is gone through in order, again
    and again; under sequential, after [e] calls of [markKeyError] every
    call returns the key at position [e mod n] until the next error. *)
Theorem rotation_any_pool (pool : list string) :
  (2 ≤ length pool)%nat →
  (∀ rnds last,
     fst <$> run pool "round-robin" (Get <$> rnds) last initial
     = Some ((λ i, pool !! (i mod length pool)%nat)
               <$> seq 0 (length rnds)))
  ∧ (∀ e rnds last,
       fst <$> run pool "sequential"
                 (replicate e MarkLast ++ (Get <$> rnds)) last initial
       = Some (replicate (length rnds) (pool !! (e mod length pool)%nat))).
Proof.
  intros HL. split.
  - intros rnds last.
    destruct (round_robin_from pool rnds last initial HL) as (s' & ->);
      [simpl; lia | done].
  - intros e rnds last.
    destruct (sequential_marks pool e (Get <$> rnds) last initial)
      as (s1 & -> & Hc1); [simpl; lia |].
    destruct (sequential_gets pool rnds last s1 HL) as (s' & ->).
    simpl. by rewrite Hc1.
Qed.

Lemma rotation_any_pool_witness :
  fst <$> run pool3 "round-robin" (Get <$> [0; 0; 0; 0; 0]%nat) None initial
  = Some [Some "key-aaaa-0001"; Some "key-bbbb-0002"; Some "k3";
          Some "key-aaaa-0001"; Some "key-bbbb-0002"]
  ∧ fst <$> run pool3 "sequential"
              (replicate 4 MarkLast ++ (Get <$> [0; 0]%nat)) None initial
    = Some [Some "key-bbbb-0002"; Some "key-bbbb-0002"].
Proof.
  destruct (rotation_any_pool pool3) as [Hrr Hseq]; [simpl; lia |].
  split.
  - rewrite Hrr. reflexivity.
  - rewrite Hseq. reflexivity.
Defined.

(** ** The key preview *)

Lemma substring_whole (s : string) (n : nat) :
  (String.length s ≤ n)%nat → String.substring 0 n s = s.
Proof.
  revert n. induction s as [|c s IH]; intros n Hn; [by destruct n |].
  destruct n as [|n]; simpl in *; [lia |]. f_equal. apply IH. lia.
Qed.

Lemma substring_head (a r : string) :
  String.substring 0 (String.length a) (a +:+ r) = a.
Proof.
  induction a as [|c a IH]; [by destruct r |].
  rewrite str_app_cons. simpl. by rewrite IH.
Qed.

Lemma substring_tail (a b : string) (n : nat) :
  (String.length b ≤ n)%nat →
  String.substring (String.length a) n (a +:+ b) = b.
Proof.
  intros Hn. induction a as [|c a IH].
  - rewrite str_app_nil_l. by apply substring_whole.
  - rewrite str_app_cons. simpl. exact IH.
Qed.

(** X4. The [key_preview] of a row of [getKeyStatus] shows the first
    eight and the last four characters of its key with three dots between
    them: of a key
    of twelve characters or more everything between is hidden, whatever
    its length; a key of at most eight characters is shown in full before
    the dots, and one of at most four is shown in full twice. *)
Theorem key_preview_disclosure :
  (∀ pool mode s i key,
     pool !! i = Some key →
     key_preview <$> keys (getKeyStatus pool mode s) !! i
     = Some (preview_of key))
  ∧ (∀ a m b,
     String.length a = 8%nat → String.length b = 4%nat →
     preview_of (a +:+ m +:+ b) = a +:+ "..." +:+ b)
  ∧ (∀ key,
       (String.length key ≤ 8)%nat →
       ∃ tail, preview_of key = key +:+ "..." +:+ tail)
  ∧ (∀ key,
       (String.length key ≤ 4)%nat →
       preview_of key = key +:+ "..." +:+ key).
Proof.
  repeat apply conj.
  - intros pool mode s i key Hi. unfold getKeyStatus. cbn [keys].
    rewrite list_lookup_imap, Hi. done.
  - intros a m b Ha Hb. unfold preview_of, substring.
    rewrite !str_length_app, Ha, Hb.
    replace (Z.to_nat (Z.min (Z.max 0 (Z.min 0 _)) (Z.max 0 (Z.min 8 _))))
      with 0%nat by lia.
    replace (Z.to_nat (Z.abs (Z.max 0 (Z.min 8 _) - Z.max 0 (Z.min 0 _))))
      with (String.length a) by lia.
    rewrite substring_head. f_equal. f_equal.
    rewrite <- str_app_assoc.
    replace (Z.to_nat (Z.min _ _))
      with (String.length (a +:+ m)) by (rewrite str_length_app; lia).
    apply substring_tail. lia.
  - intros key Hk. eexists. unfold preview_of. f_equal.
    unfold substring.
    replace (Z.to_nat (Z.min _ _)) with 0%nat by lia.
    apply substring_whole. lia.
  - intros key Hk. unfold preview_of, substring. f_equal.
    + replace (Z.to_nat (Z.min _ _)) with 0%nat by lia.
      apply substring_whole. lia.
    + f_equal. replace (Z.to_nat (Z.min _ _)) with 0%nat by lia.
      apply substring_whole. lia.
Qed.

Lemma key_preview_disclosure_witness :
  key_preview <$> keys (getKeyStatus pool3 "random" initial) !! 2%nat
  = Some "k3...k3"
  ∧ preview_of "ydc-sk-0123456789abcdef" = "ydc-sk-0...cdef"
  ∧ (∃ tail, preview_of "secret" = "secret" +:+ "..." +:+ tail)
  ∧ preview_of "abc" = "abc...abc".
Proof.
  destruct key_preview_disclosure as (Hrow & Hlong & Hshort & Htiny).
  split; [| split; [| split]].
  - rewrite (Hrow pool3 "random" initial 2%nat "k3" eq_refl).
    rewrite (Htiny "k3") by (simpl; lia). reflexivity.
  - apply (Hlong "ydc-sk-0" "123456789ab" "cdef"); reflexivity.
  - apply Hshort. simpl. lia.
  - apply (Htiny "abc"). simpl. lia.
Defined.

End KeyStatusFacts.

(** * Housekeeping of the conversation store *)

Module HousekeepingFacts.
Import Js Store Housekeeping.

(** ** Filters *)

Lemma filter_iff_in {A} (P Q : A → Prop) `{∀ x, Decision (P x)}
  `{∀ x, Decision (Q x)} (l : list A) :
  (∀ x, x ∈ l → P x ↔ Q x) → filter P l = filter Q l.
Proof.
  induction l as [|x l IH]; intros Hext; [done |].
  assert (filter P l = filter Q l) as Hl
    by (apply IH; intros y Hy; apply Hext; by right).
  destruct (decide (P x)) as [Hp | Hp].
  - rewrite !filter_cons_True; [by rewrite Hl | | done].
    apply Hext; [by left | done].
  - rewrite !filter_cons_False; [done | | done].
    intros Hq. apply Hp. apply Hext; [by left | done].
Qed.

Lemma filter_true {A} (l : list A) : filter (λ _, True) l = l.
Proof.
  induction l as [|y l IH]; [done |]. by rewrite filter_cons_True, IH.
Qed.

Lemma filter_split_length {A} (P : A → Prop) `{∀ x, Decision (P x)}
  (l : list A) :
  (length (filter P l) + length (filter (λ x, ¬ P x) l) = length l)%nat.
Proof.
  induction l as [|x l IH]; [done |].
  destruct (decide (P x)).
  - rewrite filter_cons_True, filter_cons_False by tauto. simpl. lia.
  - rewrite filter_cons_False, filter_cons_True by tauto. simpl. lia.
Qed.

(** ** Deleting by key from a list with unique keys *)

Section Keyed.
Context {A K : Type} `{EqDecision K} (f : A → K).

Lemma keyed_inj (l : list A) (x y : A) :
  NoDup (f <$> l) → x ∈ l → y ∈ l → f x = f y → x = y.
Proof.
  induction l as [|z l IH]; intros Hnd Hx Hy Hf; [by inversion Hx |].
  simpl in Hnd. apply NoDup_cons in Hnd as [Hz Hl].
  apply elem_of_cons in Hx as [-> | Hx];
    apply elem_of_cons in Hy as [-> | Hy]; try done.
  - exfalso. apply Hz. rewrite Hf. apply list_elem_of_fmap. by exists y.
  - exfalso. apply Hz. rewrite <- Hf. apply list_elem_of_fmap. by exists x.
  - by apply IH.
Qed.

Lemma keyed_filter_NoDup (P : A → Prop) `{∀ x, Decision (P x)}
  (l : list A) :
  NoDup (f <$> l) → NoDup (f <$> filter P l).
Proof.
  intros Hnd. eapply sublist_NoDup; [exact Hnd |].
  apply fmap_sublist, sublist_filter.
Qed.

(** Deleting the keys of the first [k] entries leaves the rest. *)
Lemma keyed_delete_front (k : nat) (l : list A) :
  NoDup (f <$> l) →
  filter (λ r, f r ∉ f <$> take k l) l = drop k l.
Proof.
  revert k. induction l as [|x l IH]; intros k Hnd; [by destruct k |].
  simpl in Hnd. apply NoDup_cons in Hnd as [Hx Hl].
  destruct k as [|k].
  - simpl. rewrite (filter_iff_in _ (λ _, True)); [apply filter_true |].
    intros r _. split; [done | set_solver].
  - simpl. rewrite filter_cons_False by set_solver.
    rewrite <- (IH k Hl). apply filter_iff_in.
    intros r Hr. split.
    + intros Hn Hin. apply Hn. by right.
    + intros Hn Hin. apply elem_of_cons in Hin as [Heq | Hin];
        [| done].
      apply Hx. rewrite <- Heq. apply list_elem_of_fmap. by exists r.
Qed.
End Keyed.

(** ** The first loop *)

Lemma map_delete_all (ids : list string) (m : Entries) :
  fold_left (λ acc id, map_delete id acc) ids m
  = filter (λ e, fst e ∉ ids) m.
Proof.
  revert m. induction ids as [|i ids IH]; intros m; cbn [fold_left].
  - rewrite (filter_iff_in _ (λ _, True));
      [by rewrite filter_true |].
    intros r _. split; [done | set_solver].
  - rewrite IH. unfold map_delete. rewrite list_filter_filter.
    apply list_filter_iff. intros r. rewrite not_elem_of_cons. tauto.
Qed.

Lemma expired_loop (t : Z) (l m : Entries) (d : Z) :
  fold_left (drop_expired t) l (m, d)
  = (filter (λ e, fst e ∉ fst <$> filter (λ e, updatedAt (snd e) < t) l) m,
     d + Z.of_nat (length (filter (λ e, updatedAt (snd e) < t) l))).
Proof.
  revert m d. induction l as [|x l IH]; intros m d.
  - cbn [fold_left]. rewrite filter_nil. f_equal; [| simpl; lia].
    rewrite (filter_iff_in _ (λ _, True));
      [by rewrite filter_true |].
    intros r _. split; [done | set_solver].
  - cbn [fold_left]. unfold drop_expired at 2.
    destruct (Z.ltb_spec (updatedAt (snd x)) t) as [Hlt | Hge].
    + rewrite IH, filter_cons_True by done. f_equal.
      * unfold map_delete. rewrite list_filter_filter.
        apply list_filter_iff. intros r. rewrite fmap_cons, not_elem_of_cons.
        tauto.
      * rewrite length_cons. lia.
    + rewrite IH, filter_cons_False by lia. done.
Qed.

Lemma expired_loop_all (t : Z) (m : Entries) :
  NoDup (fst <$> m) →
  fold_left (drop_expired t) m (m, 0)
  = (filter (λ e, t ≤ updatedAt (snd e)) m,
     Z.of_nat (length m)
     - Z.of_nat (length (filter (λ e, t ≤ updatedAt (snd e)) m))).
Proof.
  intros Hnd. rewrite expired_loop. f_equal.
  - apply filter_iff_in. intros e He. split.
    + intros Hn. destruct (Z.le_gt_cases t (updatedAt (snd e))); [done |].
      exfalso. apply Hn. apply list_elem_of_fmap. exists e. split; [done |].
      apply list_elem_of_filter. split; [lia | done].
    + intros Hle Hin. apply list_elem_of_fmap in Hin as (e' & Hk & He').
      apply list_elem_of_filter in He' as [Hlt He'].
      assert (e = e') as -> by (by eapply (keyed_inj fst m)).
      lia.
  - pose proof (filter_split_length
                  (λ e : string * Conversation, t ≤ updatedAt (snd e)) m)
      as Hc.
    rewrite (filter_iff_in (λ e, updatedAt (snd e) < t)
               (λ e, ¬ t ≤ updatedAt (snd e)));
      [lia |].
    intros e _. lia.
Qed.

(** ** The sort *)

Lemma insert_by_age_perm (e : string * Conversation) (l : Entries) :
  insert_by_age e l ≡ₚ e :: l.
Proof.
  induction l as [|x l IH]; [done |]. simpl.
  destruct (_ <=? _); [done |]. rewrite IH. apply Permutation_swap.
Qed.

Lemma sort_by_age_perm (l : Entries) : sort_by_age l ≡ₚ l.
Proof.
  induction l as [|x l IH]; [done |]. simpl.
  by rewrite insert_by_age_perm, IH.
Qed.

Lemma insert_by_age_sorted (e : string * Conversation) (l : Entries) :
  ascending l → ascending (insert_by_age e l).
Proof.
  induction l as [|x l IH]; simpl; [done |].
  intros [Hall Hs].
  destruct (Z.leb_spec (updatedAt (snd e)) (updatedAt (snd x))) as [Hle | Hgt].
  - simpl. split; [| done].
    constructor; [exact Hle |].
    eapply Forall_impl; [exact Hall |]. unfold older. intros; lia.
  - simpl. split; [| by apply IH].
    rewrite insert_by_age_perm. constructor; [unfold older; lia | done].
Qed.

Lemma sort_by_age_sorted (l : Entries) : ascending (sort_by_age l).
Proof.
  induction l as [|x l IH]; [done |]. simpl.
  by apply insert_by_age_sorted.
Qed.

Lemma sorted_take_drop (k : nat) (l : Entries) (x y : string * Conversation) :
  ascending l → x ∈ take k l → y ∈ drop k l → older x y.
Proof.
  revert k. induction l as [|z l IH]; intros k Hs Hx Hy.
  - destruct k; by inversion Hx.
  - destruct Hs as [Hall Hs].
    destruct k as [|k]; [by inversion Hx |]. simpl in *.
    apply elem_of_cons in Hx as [-> | Hx]; [| by eapply IH].
    rewrite Forall_forall in Hall. apply Hall.
    eapply elem_of_sublist; [exact Hy | apply sublist_drop].
Qed.

(** ** The whole of [cleanupConversations] *)

Lemma cleanup_unfold (now : Z) (m : Entries) :
  NoDup (fst <$> m) →
  let m1 := filter (fresh_at now) m in
  let k := Z.to_nat (Z.of_nat (length m1) - MAX_CONVERSATIONS) in
  cleanupConversations now m
  = (Z.of_nat (length m) - Z.of_nat (length m1) + Z.of_nat k,
     filter (λ e, fst e ∉ fst <$> take k (sort_by_age m1)) m1).
Proof.
  intros Hnd m1 k. unfold cleanupConversations.
  rewrite expired_loop_all by done.
  change (filter _ m) with m1.
  destruct (Z.ltb_spec MAX_CONVERSATIONS (Z.of_nat (length m1))) as [Hgt | Hle].
  - fold k. f_equal.
    + rewrite length_take, (Permutation_length (sort_by_age_perm m1)).
      unfold k, MAX_CONVERSATIONS. lia.
    + rewrite <- map_delete_all. generalize (take k (sort_by_age m1)).
      intros d. generalize m1. clear.
      induction d as [|x d IH]; intros m1; [done |]. simpl. apply IH.
  - assert (k = 0%nat) as -> by lia. rewrite take_0. f_equal; [lia |].
    rewrite (filter_iff_in _ (λ _, True));
      [by rewrite filter_true |].
    intros r _. split; [done | set_solver].
Qed.

(** What is left is, up to order, the sorted list without its front. *)
Lemma cleanup_left (now : Z) (m : Entries) :
  NoDup (fst <$> m) →
  let m1 := filter (fresh_at now) m in
  let k := Z.to_nat (Z.of_nat (length m1) - MAX_CONVERSATIONS) in
  snd (cleanupConversations now m) ≡ₚ drop k (sort_by_age m1).
Proof.
  intros Hnd m1 k. rewrite cleanup_unfold by done. cbn [snd]. fold m1 k.
  assert (NoDup (fst <$> sort_by_age m1)) as Hs.
  { rewrite sort_by_age_perm. by apply keyed_filter_NoDup. }
  rewrite <- (keyed_delete_front fst k (sort_by_age m1) Hs).
  apply filter_Permutation. symmetry. apply sort_by_age_perm.
Qed.

Lemma cleanup_size (now : Z) (m : Entries) :
  NoDup (fst <$> m) →
  Z.of_nat (length (snd (cleanupConversations now m)))
  = Z.min MAX_CONVERSATIONS (Z.of_nat (length (filter (fresh_at now) m))).
Proof.
  intros Hnd. rewrite (Permutation_length (cleanup_left now m Hnd)).
  rewrite length_drop, (Permutation_length (sort_by_age_perm _)).
  unfold MAX_CONVERSATIONS. lia.
Qed.

(** X5. After [cleanupConversations], memory branch: every conversation
    left was used within the last 24 hours; at most 1000 are left; those
    left are conversations of the map before, unchanged and in their
    order, still one per id; and the number returned is the number of
    conversations removed. *)
Theorem cleanup_postconditions (now : Z) (m : Entries) :
  NoDup (fst <$> m) →
  let deleted := fst (cleanupConversations now m) in
  let m' := snd (cleanupConversations now m) in
  Forall (fresh_at now) m'
  ∧ Z.of_nat (length m') ≤ MAX_CONVERSATIONS
  ∧ m' `sublist_of` m
  ∧ NoDup (fst <$> m')
  ∧ deleted = Z.of_nat (length m) - Z.of_nat (length m').
Proof.
  intros Hnd deleted m'.
  pose proof (cleanup_size now m Hnd) as Hsize. fold m' in Hsize.
  unfold deleted, m' in *. rewrite cleanup_unfold in * by done.
  cbn [fst snd] in *.
  set (m1 := filter (fresh_at now) m) in *.
  set (k := Z.to_nat _) in *.
  repeat apply conj.
  - apply Forall_forall. intros e He.
    apply list_elem_of_filter in He as [_ He].
    by apply list_elem_of_filter in He as [? _].
  - lia.
  - etrans; apply sublist_filter.
  - by do 2 apply keyed_filter_NoDup.
  - pose proof (filter_split_length (fresh_at now) m) as Hsplit.
    fold m1 in Hsplit. lia.
Qed.

Lemma cleanup_postconditions_witness :
  Forall (fresh_at 100000000) (snd (cleanupConversations 100000000 three))
  ∧ fst (cleanupConversations 100000000 three)
    = Z.of_nat (length three)
      - Z.of_nat (length (snd (cleanupConversations 100000000 three)))
  ∧ fst (cleanupConversations 100000000 three) = 1.
Proof.
  assert (NoDup (fst <$> three)) as Hnd.
  { apply (bool_decide_unpack _). vm_compute. exact I. }
  destruct (cleanup_postconditions 100000000 three Hnd)
    as (Hfresh & _ & _ & _ & Hcount).
  split; [exact Hfresh |]. split; [exact Hcount |]. reflexivity.
Defined.

(** X6. [cleanupConversations], memory branch, removes the least
    recently used first and no more than it must: a conversation it
    removes was not used after any conversation it leaves, and the number
    left is the number of conversations used within the last 24 hours, or
    1000 when there are more of them. *)
Theorem cleanup_evicts_oldest (now : Z) (m : Entries) :
  NoDup (fst <$> m) →
  let m' := snd (cleanupConversations now m) in
  (∀ gone kept, gone ∈ m → gone ∉ m' → kept ∈ m' → older gone kept)
  ∧ Z.of_nat (length m')
    = Z.min MAX_CONVERSATIONS (Z.of_nat (length (filter (fresh_at now) m))).
Proof.
  intros Hnd m'. split; [| by apply cleanup_size].
  intros gone kept Hgone Hnot Hkept.
  pose proof (cleanup_left now m Hnd) as Hleft. fold m' in Hleft.
  unfold m' in Hnot, Hkept. rewrite cleanup_unfold in Hnot, Hkept by done.
  cbn [snd] in Hnot, Hkept.
  set (m1 := filter (fresh_at now) m) in *.
  set (k := Z.to_nat _) in *.
  apply list_elem_of_filter in Hkept as [Hkk Hk1].
  assert (fresh_at now kept) as Hfresh
    by (by apply list_elem_of_filter in Hk1 as [? _]).
  destruct (decide (fresh_at now gone)) as [Hg | Hg];
    [| unfold older, fresh_at in *; lia].
  assert (gone ∈ m1) as Hg1 by (by apply list_elem_of_filter).
  assert (NoDup (fst <$> sort_by_age m1)) as Hs.
  { rewrite sort_by_age_perm. by apply keyed_filter_NoDup. }
  apply (sorted_take_drop k (sort_by_age m1));
    [apply sort_by_age_sorted | |].
  - destruct (decide (fst gone ∈ fst <$> take k (sort_by_age m1)))
      as [Hin | Hout].
    + apply list_elem_of_fmap in Hin as (g & Hfg & Hgin).
      assert (gone = g) as ->; [| done].
      apply (keyed_inj fst (sort_by_age m1)); try done.
      * by rewrite sort_by_age_perm.
      * eapply elem_of_sublist; [exact Hgin | apply sublist_take].
    + exfalso. apply Hnot. by apply list_elem_of_filter.
  - rewrite <- (keyed_delete_front fst k (sort_by_age m1) Hs).
    apply list_elem_of_filter. split; [done |]. by rewrite sort_by_age_perm.
Qed.

Lemma cleanup_evicts_oldest_witness :
  older (conv_at "a" 13599999) (conv_at "c" 99000000)
  ∧ Z.of_nat (length (snd (cleanupConversations 100000000 three))) = 2.
Proof.
  assert (NoDup (fst <$> three)) as Hnd.
  { apply (bool_decide_unpack _). vm_compute. exact I. }
  destruct (cleanup_evicts_oldest 100000000 three Hnd) as [Hold Hsize].
  assert (snd (cleanupConversations 100000000 three)
          = [conv_at "b" 13600000; conv_at "c" 99000000]) as Hleft
    by reflexivity.
  split.
  - apply Hold.
    + by left.
    + rewrite Hleft. intros Hin.
      apply elem_of_cons in Hin as [Hin | Hin]; [discriminate |].
      apply elem_of_cons in Hin as [Hin | Hin]; [discriminate |].
      inversion Hin.
    + rewrite Hleft. right. by left.
  - rewrite Hsize. reflexivity.
Defined.

(** ** The sweep of [index.js] *)

Lemma sweep_lookup (now : Z) (store : gmap string Conversation)
  (cid : string) :
  sweep now store !! cid
  = match store !! cid with
    | Some c => if CONVERSATION_TTL <? now - updatedAt c then None else Some c
    | None => None
    end.
Proof.
  unfold sweep.
  set (f := λ (id : string) (conv : Conversation)
              (acc : gmap string Conversation),
              if CONVERSATION_TTL <? now - updatedAt conv
              then delete id acc else acc).
  assert (∀ acc m,
            map_fold f acc m !! cid
            = match m !! cid with
              | Some c =>
                  if CONVERSATION_TTL <? now - updatedAt c then None
                  else acc !! cid
              | None => acc !! cid
              end) as H.
  { intros acc m.
    apply (map_fold_weak_ind
             (λ r m, r !! cid
                     = match m !! cid with
                       | Some c =>
                           if CONVERSATION_TTL <? now - updatedAt c
                           then None else acc !! cid
                       | None => acc !! cid
                       end)); [done |].
    clear m. intros i x m r Hi IH.
    destruct (decide (i = cid)) as [-> | Hne].
    - rewrite lookup_insert_eq. rewrite Hi in IH. unfold f.
      destruct (_ <? _); [apply lookup_delete_eq | exact IH].
    - rewrite lookup_insert_ne by done. rewrite <- IH. unfold f.
      destruct (_ <? _); [by apply lookup_delete_ne | done]. }
  rewrite H. by destruct (store !! cid).
Qed.

(** X7. The hourly sweep of [index.js] removes exactly the conversations
    not used for more than 24 hours and leaves the others as they are;
    [getConversation] counts as a use, so a conversation read at [now] is
    still there, as it was returned, after a sweep run up to 24 hours
    later. *)
Theorem sweep_spares_recent (now now' : Z) (cid : string)
  (store : gmap string Conversation) :
  truthy cid = true → is_Some (store !! cid) →
  now' - now ≤ CONVERSATION_TTL →
  let read := Store.Memory.getConversation now cid store in
  (∃ conv, fst read = Some conv ∧ sweep now' (snd read) !! cid = Some conv)
  ∧ (∀ other c,
       snd read !! other = Some c →
       sweep now' (snd read) !! other
       = if CONVERSATION_TTL <? now' - updatedAt c then None else Some c).
Proof.
  intros Hcid [conv Hconv] Hnow read. split.
  - unfold read, Store.Memory.getConversation. rewrite Hcid, Hconv. simpl.
    eexists. split; [done |].
    rewrite sweep_lookup, lookup_insert_eq. simpl.
    destruct (Z.ltb_spec CONVERSATION_TTL (now' - now)); [lia | done].
  - intros other c Hc. by rewrite sweep_lookup, Hc.
Qed.

Lemma sweep_spares_recent_witness :
  sweep 86400500
    (snd (Store.Memory.getConversation 500 "c1" Store.Sample.store)) !! "c1"
  = fst (Store.Memory.getConversation 500 "c1" Store.Sample.store)
  ∧ sweep 86400500 Store.Sample.store !! "c1" = None.
Proof.
  destruct (sweep_spares_recent 500 86400500 "c1" Store.Sample.store)
    as [(conv & Hread & Hkept) Hother].
  - reflexivity.
  - by eexists.
  - unfold CONVERSATION_TTL. lia.
  - split; [by rewrite Hkept, Hread |].
    rewrite sweep_lookup. reflexivity.
Defined.

(** ** Deleting a conversation *)

Import Store.Sql.

Lemma get_reads (now : Z) (cid : string) (db : Db) :
  fst (Store.Sql.getConversation now cid db)
  = if truthy cid then
      match conversations db !! cid with
      | Some c => Some {| id := cid; messages := turns_of cid db;
                          createdAt := created_at c; updatedAt := now;
                          metadata := conv_metadata c |}
      | None => None
      end
    else None.
Proof.
  unfold Store.Sql.getConversation.
  destruct (truthy cid); [| done]. simpl.
  by destruct (conversations db !! cid).
Qed.

(** The turns of the conversation after the SQLite
    [addMessageToConversation]: those [evict] leaves, then the new one. *)
Lemma sql_add_turns (now : Z) (uuid cid role content : string) (db : Db) :
  turns_of cid
    (snd (Store.Sql.addMessageToConversation now uuid cid role content db))
  = turns_of cid (evict cid db)
    ++ [{| role := role; content := content; timestamp := now |}].
Proof.
  assert (select_conv cid
            (snd (Store.Sql.addMessageToConversation now uuid cid role
                    content db))
          = select_conv cid (evict cid db)
            ++ [{| row_id := seq db + 1; conversation_id := cid;
                   row_role := role; row_content := content;
                   row_timestamp := now |}]) as Hrows.
  { unfold Store.Sql.addMessageToConversation.
    set (db1 := match conversations db !! cid with
                | Some _ => db | None => _ end).
    assert (rows db1 = rows db ∧ seq db1 = seq db) as [Hrows Hseq]
      by (unfold db1; by destruct (conversations db !! cid)).
    assert (∀ d, rows (snd (Store.Sql.getConversation now cid d)) = rows d)
      as Hget.
    { intros d. unfold Store.Sql.getConversation.
      destruct (negb _); [done |]. by destruct (conversations d !! cid). }
    unfold select_conv at 1. rewrite Hget. simpl.
    rewrite filter_app, (StoreFacts.evict_rows_only cid db db1 Hrows).
    unfold select_conv. f_equal.
    rewrite filter_cons_True;
      [| unfold of_conv; simpl; apply String.eqb_refl].
    assert (seq (evict cid db1) = seq db) as ->; [| done].
    unfold evict. by destruct (_ <=? _). }
  unfold turns_of. rewrite Hrows, fmap_app. done.
Qed.

Lemma sql_add_reads (now : Z) (uuid cid role content : string) (db : Db)
  (conv : Conversation) :
  fst (Store.Sql.addMessageToConversation now uuid cid role content db)
  = Some conv →
  messages conv
  = turns_of cid (evict cid db)
    ++ [{| role := role; content := content; timestamp := now |}].
Proof.
  intros Hconv. rewrite (StoreFacts.sql_add_returned _ _ _ _ _ _ _ Hconv).
  apply sql_add_turns.
Qed.

(** X8. After [deleteConversation] the conversation is not found, in
    either branch, and every other conversation is read as before. The
    SQLite branch deletes the rows of the conversation with it, so that a
    later [addMessageToConversation] under the same id starts a history
    of one turn; it returns [true] whatever the id, while the memory
    branch returns whether the conversation existed. *)
Theorem delete_forgets (now : Z) (cid : string) :
  (∀ db : Db,
     let db' := snd (Housekeeping.Sql.deleteConversation cid db) in
     fst (Housekeeping.Sql.deleteConversation cid db) = true
     ∧ fst (Store.Sql.getConversation now cid db') = None
     ∧ (∀ other, other ≠ cid →
          fst (Store.Sql.getConversation now other db')
          = fst (Store.Sql.getConversation now other db))
     ∧ (∀ uuid role content conv,
          fst (Store.Sql.addMessageToConversation now uuid cid role content
                 db') = Some conv →
          messages conv = [{| role := role; content := content;
                              timestamp := now |}]))
  ∧ (∀ store : gmap string Conversation,
       let store' := snd (Housekeeping.Memory.deleteConversation cid store) in
       (fst (Housekeeping.Memory.deleteConversation cid store) = true
        ↔ is_Some (store !! cid))
       ∧ fst (Store.Memory.getConversation now cid store') = None
       ∧ (∀ other, other ≠ cid →
            fst (Store.Memory.getConversation now other store')
            = fst (Store.Memory.getConversation now other store))).
Proof.
  split.
  - intros db db'.
    assert (turns_of cid db' = []) as Hturns.
    { unfold turns_of, select_conv, db'. simpl.
      rewrite list_filter_filter.
      rewrite (filter_iff_in _ (λ _, False)); [| intros r _; tauto].
      by induction (rows db). }
    repeat apply conj.
    + done.
    + rewrite get_reads. destruct (truthy cid); [| done].
      unfold db'. simpl. by rewrite lookup_delete_eq.
    + intros other Hne. rewrite !get_reads.
      destruct (truthy other); [| done].
      unfold db' at 1. simpl. rewrite lookup_delete_ne by done.
      assert (turns_of other db' = turns_of other db) as ->; [| done].
      unfold turns_of, select_conv, db'. simpl. f_equal.
      rewrite list_filter_filter. apply list_filter_iff. intros r.
      unfold of_conv. split; [tauto |]. intros H. split; [done |].
      apply String.eqb_eq in H. rewrite H. intros H2.
      by apply String.eqb_eq in H2.
    + intros uuid role content conv Hconv.
      rewrite (sql_add_reads _ _ _ _ _ _ _ Hconv).
      assert (turns_of cid (evict cid db') = []) as ->; [| done].
      unfold turns_of in *. rewrite StoreFacts.evict_select.
      apply fmap_nil_inv in Hturns. rewrite Hturns. done.
  - intros store store'. split; [| split].
    + unfold Housekeeping.Memory.deleteConversation. simpl.
      apply bool_decide_eq_true.
    + unfold Store.Memory.getConversation, store'. simpl.
      destruct (truthy cid); simpl; [| done]. by rewrite lookup_delete_eq.
    + intros other Hne.
      unfold Store.Memory.getConversation, store'. simpl.
      destruct (truthy other); simpl; [| done].
      rewrite lookup_delete_ne by done. by destruct (store !! other).
Qed.

Lemma delete_forgets_witness :
  fst (Store.Sql.getConversation 7 "c1"
         (snd (Housekeeping.Sql.deleteConversation "c1" Store.Sample.db)))
  = None
  ∧ (messages
       <$> fst (Store.Sql.addMessageToConversation 7 "new-id" "c1" "user"
                  "hello"
                  (snd (Housekeeping.Sql.deleteConversation "c1"
                          Store.Sample.db)))
     = Some [{| role := "user"; content := "hello"; timestamp := 7 |}])
  ∧ fst (Store.Memory.getConversation 7 "c2"
           (snd (Housekeeping.Memory.deleteConversation "c1"
                   Store.Sample.store)))
    = fst (Store.Memory.getConversation 7 "c2" Store.Sample.store).
Proof.
  destruct (delete_forgets 7 "c1") as [Hsql Hmem].
  destruct (Hsql Store.Sample.db) as (_ & Hgone & _ & Hfresh).
  destruct (Hmem Store.Sample.store) as (_ & _ & Hother).
  split; [exact Hgone |]. split; [| by apply Hother].
  destruct (fst (Store.Sql.addMessageToConversation 7 "new-id" "c1" "user"
                   "hello" _)) as [conv|] eqn:Hconv; [| discriminate].
  simpl. f_equal. by eapply Hfresh.
Defined.

(** ** The two branches side by side *)

Lemma sql_add_found (now : Z) (uuid cid role content : string) (db : Db) :
  truthy cid = true →
  is_Some (fst (Store.Sql.addMessageToConversation now uuid cid role
                  content db)).
Proof.
  intros Hcid. unfold Store.Sql.addMessageToConversation.
  set (db1 := match conversations db !! cid with
              | Some _ => db | None => _ end).
  assert (is_Some (conversations db1 !! cid)) as H1.
  { unfold db1. destruct (conversations db !! cid) eqn:Hc; [by rewrite Hc |].
    unfold Store.Sql.createConversation. rewrite Hcid. simpl.
    rewrite lookup_insert_eq. by eexists. }
  assert (conversations (evict cid db1) = conversations db1) as He
    by (unfold evict; by destruct (_ <=? _)).
  rewrite get_reads, Hcid.
  assert (is_Some (conversations
                     (touch now cid
                        (insert_message now cid role content
                           (evict cid db1))) !! cid)) as [c' ->];
    [| by eexists].
  unfold touch, insert_message. cbn [conversations]. rewrite He.
  destruct H1 as [c Hc]. rewrite Hc, lookup_insert_eq. by eexists.
Qed.

Lemma trim_below (msgs : list Message) :
  Z.of_nat (length msgs) < MAX_MESSAGES_PER_CONVERSATION → trim msgs = msgs.
Proof.
  intros H. unfold trim.
  by destruct (Z.leb_spec MAX_MESSAGES_PER_CONVERSATION
                 (Z.of_nat (length msgs))); [lia |].
Qed.

Lemma evict_below (cid : string) (db : Db) :
  Z.of_nat (length (turns_of cid db)) < MAX_MESSAGES_PER_CONVERSATION →
  evict cid db = db.
Proof.
  unfold turns_of. rewrite length_fmap. intros H. unfold evict.
  by destruct (Z.leb_spec MAX_MESSAGES_PER_CONVERSATION
                 (Z.of_nat (length (select_conv cid db)))); [lia |].
Qed.



(** X10. At the bound the two branches differ by one turn. Appending to
    a conversation of 100 turns or more leaves exactly 100 turns in the
    memory branches (both variants; in [index.js] for a non-empty
    conversation id, an empty one never finds its conversation), and
    exactly 99 in the SQLite branch (ids being the table's primary
    key). *)
Theorem sizes_at_the_bound (now : Z) (uuid cid role content : string) :
  (∀ store : gmap string Conversation,
     MAX_MESSAGES_PER_CONVERSATION ≤ Z.of_nat (length (prior store cid)) →
     Z.of_nat (length (messages
         (fst (Store.Memory.addMessageToConversation now uuid cid role
                 content store))))
     = MAX_MESSAGES_PER_CONVERSATION
     ∧ (truthy cid = true →
        Z.of_nat (length (messages
            (fst (Store.Memory.addMessageToConversation_mcp now uuid cid
                    role content store))))
        = MAX_MESSAGES_PER_CONVERSATION))
  ∧ (∀ db : Db,
       NoDup (row_id <$> rows db) →
       MAX_MESSAGES_PER_CONVERSATION ≤ Z.of_nat (length (turns_of cid db)) →
       Z.of_nat (length (turns_of cid
           (snd (Store.Sql.addMessageToConversation now uuid cid role
                   content db))))
       = MAX_MESSAGES_PER_CONVERSATION - 1).
Proof.
  assert (∀ msgs, MAX_MESSAGES_PER_CONVERSATION ≤ Z.of_nat (length msgs) →
            Z.of_nat (length (trim msgs))
            = MAX_MESSAGES_PER_CONVERSATION - 1) as Htrim.
  { intros msgs Hge. unfold trim, MAX_MESSAGES_PER_CONVERSATION in *.
    destruct (Z.leb_spec 100 (Z.of_nat (length msgs))); [| lia].
    destruct (find is_system msgs).
    - pose proof (StoreFacts.arr_slice_length msgs (- (100) + 2)
                    ltac:(lia) ltac:(lia)).
      rewrite length_cons. lia.
    - pose proof (StoreFacts.arr_slice_length msgs (- (100) + 1)
                    ltac:(lia) ltac:(lia)). lia. }
  split.
  - intros store Hge. split.
    + rewrite StoreFacts.add_messages, length_app. simpl.
      specialize (Htrim _ Hge). lia.
    + intros Hcid.
      rewrite StoreFacts.add_messages_mcp, Hcid, length_app. simpl.
      specialize (Htrim _ Hge). lia.
  - intros db Hnd Hge. rewrite sql_add_turns, length_app. simpl.
    unfold turns_of in *. rewrite length_fmap in *.
    rewrite StoreFacts.evict_select.
    destruct (Z.leb_spec MAX_MESSAGES_PER_CONVERSATION
                (Z.of_nat (length (select_conv cid db)))); [| lia].
    assert (NoDup (row_id <$> select_conv cid db)) as Hl
      by (by apply StoreFacts.NoDup_map_filter).
    pose proof (StoreFacts.delete_selected_length row_id _ _
                  (StoreFacts.doomed_sublist (select_conv cid db)) Hl) as Hdel.
    pose proof (StoreFacts.doomed_length _ Hl Hge) as Hd.
    unfold MAX_MESSAGES_PER_CONVERSATION in *. lia.
Qed.

Lemma sizes_at_the_bound_witness :
  Z.of_nat (length (messages
      (fst (Store.Memory.addMessageToConversation 100 "new-id" "c1" "user"
              "more" Store.Sample.store)))) = 100
  ∧ Z.of_nat (length (turns_of "c1"
        (snd (Store.Sql.addMessageToConversation 100 "new-id" "c1" "user"
                "more" Store.Sample.db)))) = 99.
Proof.
  destruct (sizes_at_the_bound 100 "new-id" "c1" "user" "more")
    as [Hmem Hsql].
  split.
  - apply Hmem. vm_compute. discriminate.
  - apply Hsql.
    + apply (bool_decide_unpack _). vm_compute. exact I.
    + vm_compute. discriminate.
Defined.

End HousekeepingFacts.

(** * Prompt assembly: the Anthropic mapper and the stored history *)

Module HistoryFacts.
Import Js JsFacts Assembler AssemblerFacts History.

(** ** The system prompt is the last system message *)

Lemma visit_system (messages : list Msg) (sys : string) (hist : list string) :
  fst (fold_left visit messages (sys, hist))
  = match last_system messages with
    | Some m => content m
    | None => sys
    end.
Proof.
  unfold last_system. revert sys hist.
  induction messages as [|m ms IH] using rev_ind; intros sys hist; [done |].
  rewrite fold_left_app, filter_app. cbn [fold_left].
  destruct (fold_left visit ms (sys, hist)) as [s h] eqn:Hf.
  specialize (IH sys hist). rewrite Hf in IH. simpl in IH.
  unfold visit, is_role.
  destruct (String.eqb (role m) "system") eqn:Hs.
  - rewrite filter_cons_True by done. by rewrite filter_nil, last_snoc.
  - rewrite filter_cons_False by (by rewrite Hs).
    rewrite filter_nil, app_nil_r.
    destruct (String.eqb (role m) "user");
      [| destruct (String.eqb (role m) "assistant")]; exact IH.
Qed.

Lemma system_block_last (messages : list Msg) :
  system_block messages
  = match last_system messages with
    | Some m =>
        if truthy (content m)
        then "[System Instructions]" +:+ nl +:+ content m +:+ nl +:+ nl
        else ""
    | None => ""
    end.
Proof.
  unfold system_block. rewrite visit_system.
  by destruct (last_system messages).
Qed.

Lemma build_depends (ms1 ms2 : list Msg) :
  system_block ms1 = system_block ms2 →
  filter (λ m, conversational m = true) ms1
  = filter (λ m, conversational m = true) ms2 →
  buildConversationInput ms1 = buildConversationInput ms2.
Proof. intros Hs Hc. rewrite !build_unfold. simpl. by rewrite Hs, Hc. Qed.

Lemma system_not_conversational (m : Msg) :
  is_role "system" m = true → conversational m = false.
Proof.
  unfold is_role, conversational. intros H. apply String.eqb_eq in H.
  by rewrite H.
Qed.

(** X11. Only the last message of role [system] counts, wherever it
    stands, and messages of other roles than [user] and [assistant] are
    ignored: the prompt of a list of messages is the prompt of its last
    system message (if it has one) followed by its user and assistant
    turns. *)
Theorem last_system_message_counts (messages : list Msg) :
  buildConversationInput messages
  = buildConversationInput
      (option_list (last_system messages)
       ++ filter (λ m, conversational m = true) messages).
Proof.
  apply build_depends.
  - rewrite !system_block_last. unfold last_system at 2.
    rewrite filter_app.
    assert (filter (λ m, is_role "system" m = true)
              (filter (λ m, conversational m = true) messages) = []) as ->.
    { rewrite list_filter_filter.
      rewrite (HousekeepingFacts.filter_iff_in _ (λ _, False));
        [by induction messages |].
      intros m _. split; [| done]. intros [Hs Hc].
      apply system_not_conversational in Hs. congruence. }
    rewrite app_nil_r.
    destruct (last_system messages) as [m|] eqn:Hl; [| done].
    simpl. rewrite filter_cons_True; [done |].
    unfold last_system in Hl. apply last_Some_elem_of in Hl.
    by apply list_elem_of_filter in Hl as [? _].
  - rewrite filter_app, list_filter_filter.
    assert (filter (λ m, conversational m = true)
              (option_list (last_system messages)) = []) as ->.
    { destruct (last_system messages) as [m|] eqn:Hl; [| done].
      simpl. rewrite filter_cons_False; [done |].
      unfold last_system in Hl. apply last_Some_elem_of in Hl.
      apply list_elem_of_filter in Hl as [Hs _].
      apply system_not_conversational in Hs. congruence. }
    simpl. apply list_filter_iff. tauto.
Qed.

(** ** The Anthropic mapper *)

Lemma visit_flatten (messages : list AMsg) (sys : string)
  (hist : list string) :
  fold_left visit (flatten <$> filter (λ m, a_role m ≠ "system") messages)
            (sys, hist)
  = (sys, fold_left visit_anthropic messages hist).
Proof.
  revert hist. induction messages as [|m ms IH]; intros hist; [done |].
  cbn [fold_left]. unfold visit_anthropic at 2.
  destruct (String.eqb_spec (a_role m) "system") as [Hs | Hs].
  - rewrite filter_cons_False by (by intros H; apply H).
    rewrite Hs. simpl. apply IH.
  - rewrite filter_cons_True by done. rewrite fmap_cons.
    cbn [fold_left]. unfold visit at 2.
    change (role (flatten m)) with (a_role m).
    change (content (flatten m)) with (text_of (a_content m)).
    apply String.eqb_neq in Hs. rewrite Hs.
    destruct (String.eqb (a_role m) "user");
      [| destruct (String.eqb (a_role m) "assistant")]; apply IH.
Qed.

(** X12. The prompt [mapAnthropicToYouParams] assembles is the prompt
    [buildConversationInput] assembles for the same exchange in the
    OpenAI shape: the request's [system] field, when it is not empty, as
    a leading system message, then the messages with the text of their
    content (the text blocks of an array joined by line feeds), those of
    role [system] left out, which the Anthropic mapper ignores. *)
Theorem anthropic_prompt_as_openai (system : option string)
  (messages : list AMsg) :
  mapAnthropicToYouParams_input system messages
  = buildConversationInput (as_openai system messages).
Proof.
  unfold mapAnthropicToYouParams_input, buildConversationInput, as_openai.
  rewrite fold_left_app.
  destruct system as [sys|]; simpl truthy_opt;
    [destruct (truthy sys) eqn:Hsys |].
  - cbn [fold_left]. unfold visit at 2. simpl String.eqb. cbn [content].
    rewrite visit_flatten. simpl default. by rewrite Hsys.
  - cbn [fold_left]. by rewrite visit_flatten.
  - cbn [fold_left]. by rewrite visit_flatten.
Qed.

(** ** The merge with the stored history *)

Lemma merge_unfold (stored : list Store.Message) (messages : list Msg) :
  stored ≠ [] →
  let lead := match find (is_role "system") messages with
              | Some m => Some m
              | None => find (is_role "system") (as_msg <$> stored)
              end in
  let dup := λ u, existsb (λ m, is_role "user" m
                                && String.eqb (content m) (content u))
                          (kept_turns stored) in
  merge stored messages
  = option_list lead ++ kept_turns stored
    ++ match lastUserMsg messages with
       | Some u => if dup u then [] else [u]
       | None => []
       end.
Proof.
  intros Hne lead dup. unfold merge.
  destruct stored as [|s0 rest]; [done |].
  change (0 <? length (s0 :: rest))%nat with true. cbv iota.
  fold (kept_turns (s0 :: rest)). fold lead.
  assert (match lead with Some m => [m] | None => [] end = option_list lead)
    as -> by (by destruct lead).
  unfold lastUserMsg.
  destruct (last (filter _ messages)) as [u|]; [| by rewrite app_nil_r].
  assert (existsb (λ m, is_role "user" m
                        && String.eqb (content m) (content u))
            (option_list lead ++ kept_turns (s0 :: rest)) = dup u) as ->.
  { rewrite existsb_app. unfold dup.
    assert (existsb (λ m, is_role "user" m
                          && String.eqb (content m) (content u))
              (option_list lead) = false) as ->; [| done].
    assert (∀ m, lead = Some m → is_role "system" m = true) as Hlead.
    { intros m. unfold lead.
      destruct (find (is_role "system") messages) as [m'|] eqn:Hf.
      - intros [= <-]. by apply find_some in Hf as [_ ?].
      - intros Hf'. by apply find_some in Hf' as [_ ?]. }
    destruct lead as [m|]; [| done]. simpl.
    specialize (Hlead m eq_refl). unfold is_role in *.
    apply String.eqb_eq in Hlead. by rewrite Hlead. }
  destruct (dup u); [by rewrite app_nil_r | by rewrite <- app_assoc].
Qed.

Lemma last_user_role (messages : list Msg) (u : Msg) :
  lastUserMsg messages = Some u → is_role "user" u = true.
Proof.
  unfold lastUserMsg. intros H. apply last_Some_elem_of in H.
  by apply list_elem_of_filter in H as [? _].
Qed.

Lemma user_not_system (m : Msg) :
  is_role "user" m = true → is_role "system" m = false.
Proof.
  unfold is_role. intros H. apply String.eqb_eq in H. by rewrite H.
Qed.

Lemma dup_spec (u : Msg) (l : list Msg) :
  existsb (λ m, is_role "user" m && String.eqb (content m) (content u)) l
  = true
  ↔ ∃ m, m ∈ l ∧ is_role "user" m = true ∧ content m = content u.
Proof.
  rewrite existsb_exists. split.
  - intros (m & Hin & Hm). apply andb_true_iff in Hm as [Hr Hc].
    exists m. rewrite list_elem_of_In. by apply String.eqb_eq in Hc.
  - intros (m & Hin & Hr & Hc). exists m.
    rewrite <- list_elem_of_In, Hr, Hc. split; [done |].
    apply String.eqb_refl.
Qed.

(** X13. The merge of a request with a stored conversation that is not
    empty, as [/v1/chat/completions] and [callChat] do it. The merged list
    has at most one system message, and only in front: the first of the
    request, or else the first stored one. Of the request nothing else is
    taken over but its last user message: the stored turns follow in
    their order, then that message, unless a stored user turn has the
    same content; then it is left out, the merged list ends with the
    stored turns, and the message both callers go on to store as the
    user's is the last stored user turn. *)
Theorem merged_history (stored : list Store.Message) (messages : list Msg) :
  stored ≠ [] →
  let full := merge stored messages in
  let others := filter (λ m, is_role "system" m = false) full in
  (∀ i m, full !! i = Some m → is_role "system" m = true → i = 0%nat)
  ∧ find (is_role "system") full
    = match find (is_role "system") messages with
      | Some m => Some m
      | None => find (is_role "system") (as_msg <$> stored)
      end
  ∧ (lastUserMsg messages = None → others = kept_turns stored)
  ∧ (∀ u, lastUserMsg messages = Some u →
       (∀ m, m ∈ kept_turns stored → is_role "user" m = true →
             content m ≠ content u) →
       others = kept_turns stored ++ [u] ∧ lastUserMsg full = Some u)
  ∧ (∀ u, lastUserMsg messages = Some u →
       (∃ m, m ∈ kept_turns stored ∧ is_role "user" m = true
             ∧ content m = content u) →
       others = kept_turns stored
       ∧ lastUserMsg full = lastUserMsg (kept_turns stored)).
Proof.
  intros Hne full others. unfold others, full.
  rewrite (merge_unfold stored messages Hne).
  set (lead := match find (is_role "system") messages with
               | Some m => Some m
               | None => find (is_role "system") (as_msg <$> stored)
               end).
  set (tail := match lastUserMsg messages with
               | Some u => if existsb _ _ then [] else [u]
               | None => []
               end).
  assert (∀ m, lead = Some m → is_role "system" m = true) as Hlead.
  { intros m. unfold lead.
    destruct (find (is_role "system") messages) as [m'|] eqn:Hf.
    - intros [= <-]. by apply find_some in Hf as [_ ?].
    - intros Hf'. by apply find_some in Hf' as [_ ?]. }
  assert (Forall (λ m, is_role "system" m = false)
            (kept_turns stored ++ tail)) as Hrest.
  { apply Forall_app. split.
    - apply Forall_forall. intros m Hm.
      by apply list_elem_of_filter in Hm as [? _].
    - unfold tail. destruct (lastUserMsg messages) as [u|] eqn:Hu; [| done].
      destruct (existsb _ _); [done |]. repeat constructor.
      by apply user_not_system, (last_user_role messages). }
  assert (filter (λ m, is_role "system" m = false)
            (option_list lead ++ kept_turns stored ++ tail)
          = kept_turns stored ++ tail) as Hothers.
  { rewrite filter_app.
    assert (filter (λ m, is_role "system" m = false) (option_list lead) = [])
      as ->.
    { destruct lead as [m|]; [| done]. simpl.
      rewrite filter_cons_False; [done |].
      by rewrite (Hlead m eq_refl). }
    simpl. generalize (kept_turns stored ++ tail), Hrest.
    induction 1 as [|x l Hx Hl IH]; [done |].
    by rewrite filter_cons_True, IH. }
  assert (∀ l : list Msg,
            lastUserMsg (option_list lead ++ l) = lastUserMsg l) as Hskip.
  { intros l. destruct lead as [m|]; [| done]. unfold lastUserMsg. simpl.
    rewrite filter_cons_False; [done |].
    specialize (Hlead m eq_refl). unfold is_role in *.
    apply String.eqb_eq in Hlead. by rewrite Hlead. }
  rewrite Hothers. repeat apply conj.
  - intros i m Hi Hs.
    destruct lead as [l0|]; simpl in Hi.
    + destruct i as [|i]; [done |]. simpl in Hi.
      rewrite Forall_forall in Hrest.
      apply list_elem_of_lookup_2, Hrest in Hi. congruence.
    + rewrite Forall_forall in Hrest.
      apply list_elem_of_lookup_2, Hrest in Hi. congruence.
  - destruct lead as [l0|] eqn:Hl0; simpl.
    + by rewrite (Hlead l0 eq_refl).
    + generalize (kept_turns stored ++ tail), Hrest.
      induction 1 as [|x l Hx Hl IH]; [done |]. simpl. by rewrite Hx.
  - intros Hnone. unfold tail. by rewrite Hnone, app_nil_r.
  - intros u Hu Hfresh. unfold tail. rewrite Hu.
    destruct (existsb _ _) eqn:Hdup.
    + apply dup_spec in Hdup as (m & Hm & Hr & Hc).
      by destruct (Hfresh m Hm Hr).
    + split; [done |]. rewrite Hskip. unfold lastUserMsg.
      rewrite filter_app, filter_cons_True
        by (by apply (last_user_role messages)).
      by rewrite filter_nil, last_snoc.
  - intros u Hu Hdup. unfold tail. rewrite Hu.
    apply dup_spec in Hdup. rewrite Hdup, app_nil_r.
    split; [done |]. by rewrite Hskip.
Qed.

Lemma merged_history_witness :
  merge stored2 [ {| role := "system"; content := "Be brief." |};
                  {| role := "user"; content := "yes" |} ]
  !! 0%nat = Some {| role := "system"; content := "Be brief." |}
  ∧ lastUserMsg
      (merge stored2 [ {| role := "system"; content := "Be brief." |};
                       {| role := "user"; content := "yes" |} ])
    = Some {| role := "user"; content := "no" |}
  ∧ lastUserMsg
      (merge stored2 [ {| role := "user"; content := "maybe" |} ])
    = Some {| role := "user"; content := "maybe" |}.
Proof.
  split; [reflexivity |]. split.
  - destruct (merged_history stored2
                [ {| role := "system"; content := "Be brief." |};
                  {| role := "user"; content := "yes" |} ])
      as (_ & _ & _ & _ & Hdup); [discriminate |].
    destruct (Hdup {| role := "user"; content := "yes" |}) as [_ ->];
      [reflexivity | | reflexivity].
    exists {| role := "user"; content := "yes" |}.
    split; [by left | by split].
  - destruct (merged_history stored2
                [ {| role := "user"; content := "maybe" |} ])
      as (_ & _ & _ & Hnew & _); [discriminate |].
    destruct (Hnew {| role := "user"; content := "maybe" |}) as [_ ->];
      [reflexivity | | reflexivity].
    intros m Hm Hr.
    apply elem_of_cons in Hm as [-> | Hm]; [discriminate |].
    apply elem_of_cons in Hm as [-> | Hm]; [discriminate |].
    apply elem_of_cons in Hm as [-> | Hm]; [discriminate |].
    apply elem_of_cons in Hm as [-> | Hm]; [discriminate |].
    inversion Hm.
Defined.

End HistoryFacts.

(** * The two streaming routes side by side *)

Module RoutesFacts.
Import Js JsFacts Stream ReaderFacts TypedFacts FlatFacts.

Section Routes.
Variable JSON_parse : string → option Parsed.

(** [JSON.parse('[DONE]')] throws, so the test for that payload, which
    only the typed route makes, changes nothing. *)
Lemma record_of_done (line : string) :
  JSON_parse "[DONE]" = None →
  record_of JSON_parse true line = record_of JSON_parse false line.
Proof.
  intros Hdone. unfold record_of.
  destruct (startsWith line "data: "); [| done].
  rewrite andb_true_l, andb_false_l.
  destruct (String.eqb_spec (slice line 6) "[DONE]") as [Heq | _];
    [by rewrite Heq, Hdone | done].
Qed.

Lemma records_done (text : string) :
  JSON_parse "[DONE]" = None →
  records JSON_parse true text = records JSON_parse false text.
Proof.
  intros Hdone. unfold records.
  induction (complete_lines text) as [|l ls IH]; [done |].
  rewrite !StreamFacts.omap_cons_eq, IH. by rewrite record_of_done.
Qed.

(** Over records without an output list the typed route adds up the
    deltas as the flat route does. *)
Lemma deltas_only (rs : list Parsed) (st : Typed.State) :
  Forall (λ p, p_output p = None) rs →
  fold_left Typed.handle_record rs st
  = {| Typed.fullContent :=
         Typed.fullContent st +:+ concat (omap delta_of rs);
       Typed.written :=
         Typed.written st ++ (Typed.delta_event <$> omap delta_of rs) |}.
Proof.
  intros Hrs. revert st.
  induction Hrs as [|p rs Hp Hrs IH]; intros st.
  - simpl. change (concat []) with "".
    rewrite str_app_nil_r, app_nil_r. by destruct st.
  - cbn [fold_left]. rewrite IH, StreamFacts.omap_cons_eq.
    unfold Typed.handle_record. rewrite Hp.
    unfold Typed.handle_delta.
    destruct (is_text_delta p) eqn:Hd.
    + rewrite (delta_of_delta p Hd).
      pose proof (delta_of_truthy p _ (delta_of_delta p Hd)) as Ht.
      rewrite Ht. unfold Typed.write.
      cbn [Typed.fullContent Typed.written].
      rewrite concat_cons, str_app_assoc, fmap_cons, <- app_assoc. done.
    + by rewrite (delta_of_other p Hd).
Qed.

Lemma typed_state_deltas (text : string) :
  JSON_parse "[DONE]" = None →
  Forall (λ p, p_output p = None) (records JSON_parse true text) →
  typed_state JSON_parse text
  = {| Typed.fullContent := concat (flat_fragments JSON_parse text);
       Typed.written :=
         Typed.delta_event <$> flat_fragments JSON_parse text |}.
Proof.
  intros Hdone Hrs. unfold typed_state, flat_fragments.
  rewrite deltas_only by done. rewrite (records_done text Hdone).
  by rewrite str_app_nil_l.
Qed.

Lemma delta_texts (fs : list string) :
  omap Typed.delta_text (Typed.delta_event <$> fs) = fs.
Proof.
  induction fs as [|f fs IH]; [done |].
  by rewrite fmap_cons, StreamFacts.omap_cons_eq, IH.
Qed.
End Routes.

(** X14. On an upstream stream whose records carry no output list, and
    that ends normally, the two routes send the client the same text
    fragments, in the same order, one per delta record, and store the same
    assistant turn: the typed-block route as the texts of its
    [content_block_delta] events, the flat-delta route as the [content] of
    its chunks. ([JSON.parse] rejects the payload [[DONE]], which only the
    typed route tests for.) *)
Theorem routes_agree_on_deltas (JSON_parse : string → option Parsed)
  (model conversationId : string) (vals : list string) :
  JSON_parse "[DONE]" = None →
  Forall (λ p, p_output p = None) (records JSON_parse true (concat vals)) →
  let typed := Typed.stream_messages JSON_parse model conversationId
                 (Typed.Opened {| values := vals; ending := Done |}) in
  let flat := Flat.handleStreamingResponse JSON_parse model conversationId
                (Some {| values := vals; ending := Done |}) in
  omap Typed.delta_text (Typed.events typed)
  = omap Flat.chunk_content (Flat.frames flat)
  ∧ omap Typed.delta_text (Typed.events typed)
    = flat_fragments JSON_parse (concat vals)
  ∧ Typed.saved typed = Flat.saved flat.
Proof.
  intros Hdone Hrs typed flat.
  set (fs := flat_fragments JSON_parse (concat vals)).
  assert (omap Flat.chunk_content (Flat.frames flat) = fs
          ∧ Flat.saved flat
            = if truthy conversationId && truthy (concat fs)
              then Some (concat fs) else None) as [Hflat Hsaved].
  { destruct (flat_stream_done JSON_parse model conversationId vals)
      as (Hframes & _ & Hs).
    fold flat in Hframes, Hs. fold fs in Hframes, Hs.
    split; [| exact Hs]. rewrite Hframes.
    rewrite contents_of_chunks
      by (intros f Hf; by eapply flat_fragments_truthy).
    simpl. by rewrite app_nil_r. }
  assert (omap Typed.delta_text (Typed.events typed) = fs
          ∧ Typed.saved typed
            = if truthy conversationId && truthy (concat fs)
              then Some (concat fs) else None) as [Htyped Hsaved'].
  { unfold typed, Typed.stream_messages, Typed.processStream. simpl.
    pose proof (typed_read_state JSON_parse
                  [ Typed.createMessageStartEvent model (Some conversationId);
                    Typed.createContentBlockStartEvent 0 ] vals) as Hst.
    destruct (read_all _ _ vals) as [st b]. simpl in Hst. subst st.
    rewrite typed_state_deltas by done. fold fs.
    unfold Typed.after. cbn [Typed.fullContent Typed.written Typed.events
                                Typed.saved].
    split; [| done].
    rewrite !omap_app, delta_texts. simpl. by rewrite app_nil_r. }
  by rewrite Htyped, Hflat, Hsaved, Hsaved'.
Qed.

Lemma routes_agree_on_deltas_witness :
  omap Typed.delta_text
    (Typed.events
       (Typed.stream_messages three_parser "advanced" "c1"
          (Typed.Opened {| values := three_values; ending := Done |})))
  = ["Hel"; "lo"; " world"]
  ∧ Typed.saved
      (Typed.stream_messages three_parser "advanced" "c1"
         (Typed.Opened {| values := three_values; ending := Done |}))
    = Flat.saved
        (Flat.handleStreamingResponse three_parser "advanced" "c1"
           (Some {| values := three_values; ending := Done |})).
Proof.
  destruct (routes_agree_on_deltas three_parser "advanced" "c1"
              three_values) as (_ & Hfrags & Hsaved).
  - reflexivity.
  - assert (records three_parser true (concat three_values)
            = [delta_record "Hel"; delta_record "lo"; delta_record " world"])
      as -> by (vm_compute; reflexivity).
    repeat constructor.
  - split; [| exact Hsaved]. rewrite Hfrags. vm_compute. reflexivity.
Defined.

(** ** What follows the last line feed *)

Lemma one_line_app (a b : string) :
  split_nl a = [a] → split_nl b = [b] → split_nl (a +:+ b) = [a +:+ b].
Proof.
  intros Ha Hb. induction a as [|c a IH]; [by rewrite str_app_nil_l |].
  rewrite str_app_cons, split_nl_cons. rewrite split_nl_cons in Ha.
  destruct (Ascii.eqb c LF); [done |].
  pose proof (split_nl_nonempty a) as Hne.
  destruct (split_nl a) as [|l ls]; [done |].
  injection Ha as -> ->. by rewrite IH.
Qed.

Lemma complete_lines_tail (text tail : string) :
  split_nl tail = [tail] →
  complete_lines (text +:+ tail) = complete_lines text.
Proof.
  intros Htail. rewrite complete_lines_app.
  assert (complete_lines (unfinished text +:+ tail) = []) as ->;
    [| by rewrite app_nil_r].
  unfold complete_lines.
  by rewrite (one_line_app _ _ (unfinished_single text) Htail).
Qed.

(** X15. What follows the last line feed of the upstream text is never
    handled: when the body ends, the rest left in the buffer is dropped.
    So a last value without a line feed changes nothing in what either
    route sends and stores, even if it holds a whole record. *)
Theorem unterminated_line_dropped (JSON_parse : string → option Parsed)
  (model conversationId : string) (vals : list string) (tail : string)
  (ending : Ending) :
  split_nl tail = [tail] →
  Typed.stream_messages JSON_parse model conversationId
    (Typed.Opened {| values := vals ++ [tail]; ending := ending |})
  = Typed.stream_messages JSON_parse model conversationId
      (Typed.Opened {| values := vals; ending := ending |})
  ∧ Flat.handleStreamingResponse JSON_parse model conversationId
      (Some {| values := vals ++ [tail]; ending := ending |})
    = Flat.handleStreamingResponse JSON_parse model conversationId
        (Some {| values := vals; ending := ending |}).
Proof.
  intros Htail.
  assert (∀ (St : Type) (h : St → string → St) (st : St),
            fst (read_all h st (vals ++ [tail])) = fst (read_all h st vals))
    as Hread.
  { intros St h st. rewrite !read_all_spec. cbn [fst].
    rewrite concat_app, concat_cons. change (concat []) with "".
    by rewrite str_app_nil_r, complete_lines_tail. }
  split.
  - unfold Typed.stream_messages, Typed.processStream. cbn [values].
    match goal with |- context [read_all ?h ?st (vals ++ [tail])] =>
      pose proof (Hread _ h st) as H end.
    destruct (read_all _ _ (vals ++ [tail])) as [st1 b1].
    destruct (read_all _ _ vals) as [st2 b2]. simpl in H. by subst st1.
  - unfold Flat.handleStreamingResponse. cbn [values].
    match goal with |- context [read_all ?h ?st (vals ++ [tail])] =>
      pose proof (Hread _ h st) as H end.
    destruct (read_all _ _ (vals ++ [tail])) as [st1 b1].
    destruct (read_all _ _ vals) as [st2 b2]. simpl in H. by subst st1.
Qed.

Lemma unterminated_line_dropped_witness :
  omap Flat.chunk_content
    (Flat.frames
       (Flat.handleStreamingResponse three_parser "advanced" "c1"
          (Some {| values := three_values ++ ["data: " +:+ delta_payload "lo"];
                   ending := Done |})))
  = ["Hel"; "lo"; " world"].
Proof.
  destruct (unterminated_line_dropped three_parser "advanced" "c1"
              three_values ("data: " +:+ delta_payload "lo") Done)
    as [_ ->]; [reflexivity |].
  vm_compute. reflexivity.
Defined.

End RoutesFacts.

(** * Replies that are not streamed *)

Module ReplyFacts.
Import Js JsFacts Stream Reply.

Lemma join_cons2 (sep a b : string) (rest : list string) :
  join sep (a :: b :: rest) = a +:+ sep +:+ join sep (b :: rest).
Proof. reflexivity. Qed.

Lemma app_empty (a b : string) : a +:+ b = "" → a = "" ∧ b = "".
Proof.
  destruct a as [|c a]; [by rewrite str_app_nil_l |].
  by rewrite str_app_cons.
Qed.

(** A joined text is empty only for no part, or one empty part. *)
Lemma join_empty (sep : string) (parts : list string) :
  truthy sep = true →
  join sep parts = "" ↔ parts = [] ∨ parts = [""].
Proof.
  intros Hsep. split.
  - destruct parts as [|a [|b rest]]; [by left | |].
    + simpl. intros ->. by right.
    + rewrite join_cons2. intros H.
      apply app_empty in H as [_ H]. apply app_empty in H as [-> _].
      done.
  - by intros [-> | ->].
Qed.

(** X16. A reply that is not streamed. The text answered is the texts of
    the [message.answer] items of the output list joined by blank lines,
    whatever else the list holds, as [extractText] computes it; without an
    output list it is the fixed text "No response content". Both routes
    store the text answered as the assistant's turn when there is a
    conversation id and the text is not empty: so the fixed text is
    stored, and nothing is stored exactly when the list holds no answer
    item, or a single one with an empty text. The token count reported for
    the completion is a quarter of the text's length, rounded down. *)
Theorem reply_not_streamed (model conversationId : string) (draw1 draw2 : Z) :
  truthy conversationId = true →
  let chat := λ output,
    handleNonStreamingResponse output model conversationId draw1 draw2 in
  let msgs := λ output, messages_not_streamed output model conversationId in
  snd (chat None) = Some "No response content"
  ∧ snd (msgs None) = Some "No response content"
  ∧ (∀ output,
       message_content (fst (fst (chat output))) = content_of output
       ∧ a_text (fst (fst (msgs output))) = content_of output
       ∧ snd (chat output) = snd (msgs output))
  ∧ (∀ items raw,
       content_of (Some items) = join (nl +:+ nl) (answer_texts items)
       ∧ extractText (Some items) raw = content_of (Some items)
       ∧ (snd (chat (Some items)) = None
          ↔ answer_texts items = [] ∨ answer_texts items = [""])
       ∧ (snd (chat (Some items)) ≠ None →
          snd (chat (Some items)) = Some (content_of (Some items))))
  ∧ (∀ output,
       let n := Z.of_nat (String.length (content_of output)) in
       let tokens := completion_tokens (fst (fst (chat output))) in
       tokens = output_tokens (fst (fst (msgs output)))
       ∧ 4 * tokens ≤ n ∧ n < 4 * tokens + 4).
Proof.
  intros Hcid chat msgs.
  assert (∀ output,
            chat output
            = (convertToOpenAIResponse output model draw1 draw2,
               conversationId,
               if truthy (content_of output)
               then Some (content_of output) else None)) as Hchat.
  { intros output. unfold chat, handleNonStreamingResponse.
    cbn [message_content convertToOpenAIResponse].
    by rewrite Hcid, andb_true_r. }
  assert (∀ output,
            snd (msgs output)
            = (if truthy (content_of output)
               then Some (content_of output) else None)
            ∧ fst (fst (msgs output))
              = convertToAnthropicResponse output model 100) as Hmsgs.
  { intros output. unfold msgs, messages_not_streamed.
    cbn [a_text convertToAnthropicResponse]. rewrite Hcid, andb_true_l.
    by destruct (truthy (content_of output)). }
  repeat apply conj.
  - by rewrite Hchat.
  - by rewrite (proj1 (Hmsgs None)).
  - intros output. rewrite Hchat.
    destruct (Hmsgs output) as [-> ->]. by repeat apply conj.
  - intros items raw. rewrite Hchat. cbn [fst snd].
    split; [done |]. split; [done |]. split.
    + rewrite <- (join_empty (nl +:+ nl)) by done. cbn [content_of].
      destruct (join _ _) eqn:Hj; [done |]. simpl. by split.
    + by destruct (truthy (content_of (Some items))).
  - intros output n tokens. unfold tokens. rewrite Hchat.
    destruct (Hmsgs output) as [_ ->].
    cbn [fst completion_tokens output_tokens convertToOpenAIResponse
         convertToAnthropicResponse]. fold n.
    split; [done |].
    pose proof (Z.div_mod n 4 ltac:(lia)).
    pose proof (Z.mod_pos_bound n 4 ltac:(lia)). lia.
Qed.

Lemma reply_not_streamed_witness :
  snd (handleNonStreamingResponse None "advanced" "c1" 7 80)
  = Some "No response content"
  ∧ snd (handleNonStreamingResponse (Some searched) "advanced" "c1" 7 80)
    = Some ("First." +:+ nl +:+ nl +:+ "Second.")
  ∧ snd (handleNonStreamingResponse
           (Some [ {| i_type := Some "web_search.results";
                      i_text := None |} ])
           "advanced" "c1" 7 80)
    = None.
Proof.
  destruct (reply_not_streamed "advanced" "c1" 7 80 eq_refl)
    as (Hnone & _ & _ & Hitems & _).
  split; [exact Hnone |]. split.
  - destruct (Hitems searched "") as (_ & _ & _ & Hsome).
    rewrite Hsome; [reflexivity |].
    intros H. vm_compute in H. discriminate H.
  - destruct (Hitems [ {| i_type := Some "web_search.results";
                          i_text := None |} ] "") as (_ & _ & Hiff & _).
    apply Hiff. by left.
Defined.

End ReplyFacts.

(** * The [you_agent] tool: it always answers, and its counts add up *)

Module ToolFacts.
Import CustomAgent CustomAgentFacts ToolAccounting.

Section Tool.
Variable API_KEYS : list string.
Variable KEY_MODE : string.
Variable T : Z.
Variable rand : nat → nat.
Variable upstream : nat → Upstream.
Variable assess : string → option (string * Z * bool).
Variable enhance : string → string * Z * bool → string → string.
Variable summaryPrompt : list CallResult → string → string → string.

Local Abbreviation next_key := (next_key API_KEYS KEY_MODE rand).
Local Abbreviation callYouApi := (callYouApi upstream).
Local Abbreviation probe :=
  (probe API_KEYS KEY_MODE rand upstream assess enhance).
Local Abbreviation issue_all := (issue_all API_KEYS KEY_MODE rand upstream).
Local Abbreviation settle_all := (settle_all API_KEYS KEY_MODE T).
Local Abbreviation generateSummary :=
  (generateSummary API_KEYS KEY_MODE rand upstream summaryPrompt).
Local Abbreviation callCustomAgent :=
  (callCustomAgent API_KEYS KEY_MODE T rand upstream assess enhance
                   summaryPrompt).

(** ** Taking a key *)

Lemma next_key_some (w : World) :
  API_KEYS ≠ [] →
  ∃ k w', next_key w = Some (k, w')
          ∧ issued w' = issued w.
Proof.
  intros Hne. unfold CustomAgent.next_key, Keys.getNextApiKey.
  destruct API_KEYS as [|k0 rest]; [done |]. simpl.
  destruct (length rest =? 0)%nat;
    [| destruct (String.eqb KEY_MODE "sequential");
       [| destruct (String.eqb KEY_MODE "random")]];
    by eexists _, _.
Qed.

Lemma next_key_none (w : World) : API_KEYS = [] → next_key w = None.
Proof.
  intros H. unfold CustomAgent.next_key, Keys.getNextApiKey.
  by rewrite H.
Qed.

Lemma next_key_issued (w w' : World) (k : Keys.Key) :
  next_key w = Some (k, w') → issued w' = issued w.
Proof.
  unfold CustomAgent.next_key.
  destruct (Keys.getNextApiKey _ _ _ _) as [[k0 ks]|]; [| done].
  by intros [= _ <-].
Qed.

(** ** The steps of the tool *)

Lemma probe_some (a : Args) (w : World) :
  API_KEYS ≠ [] → is_Some (probe a w).
Proof.
  intros Hne. unfold CustomAgent.probe.
  destruct (next_key_some w Hne) as (k & w1 & -> & _).
  unfold CustomAgent.callYouApi.
  destruct (upstream _) as [text | msg]; [| by eexists].
  destruct (assess text) as [[[d m] o]|]; by eexists.
Qed.

Lemma probe_issued (a : Args) (w w' : World) (x : string * KnowledgeInfo) :
  probe a w = Some (x, w') → length (issued w') = S (length (issued w)).
Proof.
  unfold CustomAgent.probe.
  destruct (next_key w) as [[k w1]|] eqn:Hk; [| done].
  apply next_key_issued in Hk. unfold CustomAgent.callYouApi.
  assert (∀ req, length (issued w1 ++ [req]) = S (length (issued w)))
    as Hlen by (intros; rewrite length_app, Hk; simpl; lia).
  destruct (upstream _) as [text | msg].
  - destruct (assess text) as [[[d m] o]|]; intros [= _ <-]; apply Hlen.
  - intros [= _ <-]. apply Hlen.
Qed.

Lemma issue_all_some (n : nat) (req : Request) (w : World) :
  API_KEYS ≠ [] → is_Some (issue_all n req w).
Proof.
  intros Hne. revert w. induction n as [|n IH]; intros w; [by eexists |].
  rewrite issue_all_S.
  destruct (next_key_some w Hne) as (k & w1 & -> & _).
  destruct (IH (snd (callYouApi req w1))) as [[rest w3] ->].
  by eexists.
Qed.

Lemma issue_all_issued (n : nat) (req : Request) (w w' : World)
  (outs : list (Keys.Key * Upstream)) :
  issue_all n req w = Some (outs, w') →
  length (issued w') = (length (issued w) + n)%nat ∧ length outs = n.
Proof.
  revert w w' outs. induction n as [|n IH]; intros w w' outs.
  - intros [= <- <-]. simpl. lia.
  - rewrite issue_all_S.
    destruct (next_key w) as [[k w1]|] eqn:Hk; [| done].
    apply next_key_issued in Hk.
    destruct (issue_all n req _) as [[rest w3]|] eqn:Hi; [| done].
    apply IH in Hi as [Hi Hl]. intros [= <- <-].
    rewrite Hi. simpl. rewrite length_app, Hk. simpl. lia.
Qed.

Lemma settle_all_results (outs : list (Keys.Key * Upstream)) (i : Z)
  (w : World) :
  index <$> fst (settle_all i outs w)
  = (λ j, i + Z.of_nat j) <$> List.seq 1 (length outs)
  ∧ issued (snd (settle_all i outs w)) = issued w.
Proof.
  revert i w. induction outs as [|[k o] outs IH]; intros i w; [done |].
  rewrite settle_all_cons.
  assert ((i + 1) :: ((λ j, i + 1 + Z.of_nat j)
                        <$> List.seq 1 (length outs))
          = (λ j, i + Z.of_nat j)
            <$> List.seq 1 (length ((k, o) :: outs))) as Hidx.
  { cbn [length]. rewrite <- cons_seq, fmap_cons.
    f_equal; try lia.
    rewrite <- (fmap_S_seq 1), <- list_fmap_compose.
    apply list_fmap_ext. intros _ j _. simpl. lia. }
  destruct o as [text | msg].
  - destruct (IH (i + 1) w) as [Hi Hw]. cbn [fst snd].
    split; [| done]. rewrite fmap_cons, Hi. cbn [index]. exact Hidx.
  - destruct (IH (i + 1)
                (fst (CustomAgent.record_failure T
                        (CustomAgent.mark API_KEYS KEY_MODE k w))))
      as [Hi Hw].
    cbn [fst snd]. split.
    + rewrite fmap_cons, Hi. cbn [index]. exact Hidx.
    + rewrite Hw. unfold CustomAgent.record_failure, CustomAgent.mark.
      by destruct (Breaker.recordYouAgentFailure _ _).
Qed.

Lemma generateSummary_some (rs : list CallResult) (inp lang : string)
  (w : World) :
  API_KEYS ≠ [] → is_Some (generateSummary rs inp lang w).
Proof.
  intros Hne. unfold CustomAgent.generateSummary.
  destruct (_ <? 2)%nat; [by eexists |].
  destruct (next_key_some w Hne) as (k & w1 & -> & _).
  unfold CustomAgent.callYouApi. destruct (upstream _); by eexists.
Qed.

Lemma generateSummary_issued (rs : list CallResult) (inp lang : string)
  (w w' : World) (t : option string) :
  generateSummary rs inp lang w = Some (t, w') →
  length (issued w')
  = (length (issued w)
     + if (length (filter (λ r, success r = true) rs) <? 2)%nat
       then 0 else 1)%nat.
Proof.
  unfold CustomAgent.generateSummary.
  destruct (_ <? 2)%nat; [intros [= _ <-]; lia |].
  destruct (next_key w) as [[k w1]|] eqn:Hk; [| done].
  apply next_key_issued in Hk. unfold CustomAgent.callYouApi.
  destruct (upstream _); intros [= _ <-]; simpl;
    rewrite length_app, Hk; simpl; lia.
Qed.
End Tool.





End ToolFacts.

(** * The conversation routes *)

Module ConversationRoutesFacts.
Import Js Store ConversationRoutes.

(** X19. The conversation routes over the in-memory store. A [POST]
    answers with the generated id and stores a conversation that a [GET]
    of this id then returns: with the system message as its only turn if
    one was sent, with no turn otherwise, created at the time of the
    [POST] and with its metadata. After a [DELETE] of the id a [GET] and a
    second [DELETE] answer 404; after the [DELETE] of all, every [GET]
    does. Conversations under other ids are left as they are by the [POST]
    and the [DELETE] of one id. *)
Theorem conversation_round_trip (now1 now2 : Z) (uuid : string)
  (meta : gmap string string) (system_message : option string)
  (store : gmap string Conversation) :
  truthy uuid = true →
  let posted := post_conversation now1 now2 uuid meta system_message store in
  let turns :=
    if truthy_opt system_message
    then [{| role := "system"; content := default "" system_message;
             timestamp := now2 |}]
    else [] in
  fst posted = Created uuid now1 meta
  ∧ (∀ now3,
       fst (get_conversation now3 uuid (snd posted))
       = Found uuid turns now1 now3 meta)
  ∧ (∀ now3 now4,
       let deleted := delete_conversation now3 uuid (snd posted) in
       fst deleted = Deleted uuid
       ∧ fst (get_conversation now4 uuid (snd deleted)) = NotFound
       ∧ fst (delete_conversation now4 uuid (snd deleted)) = NotFound
       ∧ ∀ other, other ≠ uuid → snd deleted !! other = store !! other)
  ∧ (∀ other, other ≠ uuid → snd posted !! other = store !! other)
  ∧ (∀ now3 id,
       fst (get_conversation now3 id
              (snd (delete_conversations (snd posted)))) = NotFound).
Proof.
  intros Huuid posted turns.
  set (conv := {| id := uuid; messages := turns; createdAt := now1;
                  updatedAt := if truthy_opt system_message
                               then now2 else now1;
                  metadata := meta |}).
  assert (posted = (Created uuid now1 meta, <[uuid := conv]> store))
    as Hposted.
  { unfold posted, post_conversation, Memory.createConversation.
    simpl truthy. cbv iota. cbn [id createdAt metadata]. f_equal.
    unfold conv, turns. destruct (truthy_opt system_message); [| done].
    unfold Memory.addMessageToConversation.
    rewrite lookup_insert_eq. unfold Memory.push_message.
    cbn [snd id messages createdAt metadata]. by rewrite insert_insert_eq. }
  rewrite Hposted. cbn [fst snd].
  assert (∀ now3, get_conversation now3 uuid (<[uuid := conv]> store)
                  = (Found uuid turns now1 now3 meta,
                     <[uuid := {| id := uuid; messages := turns;
                                  createdAt := now1; updatedAt := now3;
                                  metadata := meta |}]> store)) as Hget.
  { intros now3. unfold get_conversation, Memory.getConversation.
    rewrite Huuid. simpl negb. cbv iota. rewrite lookup_insert_eq.
    cbn [id messages createdAt updatedAt metadata].
    by rewrite insert_insert_eq. }
  split; [done |]. split; [intros now3; by rewrite Hget |].
  split; [| split].
  - intros now3 now4.
    assert (delete_conversation now3 uuid (<[uuid := conv]> store)
            = (Deleted uuid, delete uuid store)) as ->.
    { unfold delete_conversation, Memory.getConversation.
      rewrite Huuid. simpl negb. cbv iota. rewrite lookup_insert_eq.
      f_equal. unfold Housekeeping.Memory.deleteConversation. cbn [snd].
      by rewrite insert_insert_eq, delete_insert_eq. }
    cbn [fst snd].
    assert (Memory.getConversation now4 uuid (delete uuid store)
            = (None, delete uuid store)) as Hgone.
    { unfold Memory.getConversation. rewrite Huuid. simpl negb. cbv iota.
      by rewrite lookup_delete_eq. }
    repeat apply conj.
    + done.
    + unfold get_conversation. by rewrite Hgone.
    + unfold delete_conversation. by rewrite Hgone.
    + intros other Hne. by rewrite lookup_delete_ne.
  - intros other Hne. by rewrite lookup_insert_ne.
  - intros now3 id.
    unfold delete_conversations, Housekeeping.Memory.clearAllConversations.
    cbn [fst snd].
    unfold get_conversation, Memory.getConversation.
    destruct (negb (truthy id)); [done |]. by rewrite lookup_empty.
Qed.

Lemma conversation_round_trip_witness :
  fst (get_conversation 30 "id-1"
         (snd (post_conversation 10 20 "id-1" ∅ (Some "Be brief.")
                 Sample.store)))
  = Found "id-1" [{| role := "system"; content := "Be brief.";
                     timestamp := 20 |}] 10 30 ∅
  ∧ fst (get_conversation 50 "id-1"
           (snd (delete_conversation 40 "id-1"
                   (snd (post_conversation 10 20 "id-1" ∅
                           (Some "Be brief.") Sample.store)))))
    = NotFound.
Proof.
  destruct (conversation_round_trip 10 20 "id-1" ∅ (Some "Be brief.")
              Sample.store eq_refl) as (_ & Hget & Hdel & _).
  split; [apply Hget |]. apply (Hdel 40 50).
Defined.

End ConversationRoutesFacts.

(** * The custom agents of [YDC_CUSTOM_AGENTS] *)

Module CustomAgentsFacts.
Import Js JsFacts CustomAgents.

Lemma indexOf_bound (c : ascii) (s : string) : -1 ≤ indexOf c s.
Proof.
  induction s as [|d r IH]; simpl; [lia |].
  destruct (Ascii.eqb d c); [lia |]. destruct (_ <? 0); lia.
Qed.

(** The first occurrence: [indexOf] of a text that continues, after a
    part without the character, with the character. *)
Lemma indexOf_first (c : ascii) (a b : string) :
  indexOf c a = -1 →
  indexOf c (a +:+ String c b) = Z.of_nat (String.length a).
Proof.
  induction a as [|d a IH]; intros Ha.
  - rewrite str_app_nil_l. simpl. by rewrite Ascii.eqb_refl.
  - rewrite str_app_cons. simpl in *.
    destruct (Ascii.eqb d c); [lia |].
    pose proof (indexOf_bound c a).
    destruct (Z.ltb_spec (indexOf c a) 0); [| lia].
    rewrite IH by lia.
    destruct (Z.ltb_spec (Z.of_nat (String.length a)) 0); lia.
Qed.

Section Reader.
Variable trim : string → string.

Local Abbreviation step :=
  (λ (map : gmap string string) entry,
     match read_entry trim entry with
     | Some (name, id) => <[name := id]> map
     | None => map
     end).

Lemma fill_lookup (entries : list string) (map : gmap string string)
  (name : string) :
  fold_left step entries map !! name
  = match last (filter (λ e, fst e = name)
                       (omap (read_entry trim) entries)) with
    | Some e => Some (snd e)
    | None => map !! name
    end.
Proof.
  revert map. induction entries as [|entry entries IH] using rev_ind;
    intros map; [done |].
  rewrite fold_left_app, omap_app, filter_app. cbn [fold_left].
  rewrite StreamFacts.omap_cons_eq. simpl omap.
  destruct (read_entry trim entry) as [[n i]|].
  - destruct (decide (n = name)) as [-> | Hne].
    + rewrite lookup_insert_eq, filter_cons_True by done.
      by rewrite filter_nil, last_snoc.
    + rewrite lookup_insert_ne by done.
      rewrite filter_cons_False by done.
      by rewrite filter_nil, app_nil_r, IH.
  - by rewrite filter_nil, app_nil_r, IH.
Qed.
End Reader.

(** X20. The two readers of [YDC_CUSTOM_AGENTS] agree: the [Map] of
    [lib/openai-mapper.js] resolves a name to the id of the last entry
    that [lib/routes/models.js] lists under this name, so every listed
    name is resolved, and to the listed id when it is listed once. An
    entry that reads [name:id] once trimmed, the name not empty and
    without colon, is listed as this name and id, whatever colons the id
    holds; an entry without colon is listed under itself. *)
Theorem custom_agents_readers_agree (trim : string → string) (raw : string) :
  (∀ name,
     getCustomAgents trim raw !! name
     = snd <$> last (filter (λ e, fst e = name)
                       (getCustomAgents_models trim raw)))
  ∧ (∀ e, e ∈ getCustomAgents_models trim raw →
          is_Some (getCustomAgents trim raw !! fst e))
  ∧ (∀ entry name id,
       trim entry = name +:+ ":" +:+ id →
       truthy name = true → indexOf ":" name = -1 →
       read_entry trim entry = Some (name, id))
  ∧ (∀ entry,
       truthy (trim entry) = true → indexOf ":" (trim entry) = -1 →
       read_entry trim entry = Some (trim entry, trim entry)).
Proof.
  repeat apply conj.
  - intros name. unfold getCustomAgents, getCustomAgents_models.
    destruct (negb (truthy raw)); [done |].
    rewrite fill_lookup, lookup_empty. by destruct (last _).
  - intros e He. unfold getCustomAgents, getCustomAgents_models in *.
    destruct (negb (truthy raw)); [by inversion He |].
    rewrite fill_lookup.
    destruct (last (filter _ _)) as [e'|] eqn:Hl; [by eexists |].
    apply last_None in Hl.
    assert (e ∈ filter (λ e0, fst e0 = fst e)
                  (omap (read_entry trim) (split_at "," raw))) as Hin
      by (by apply list_elem_of_filter).
    rewrite Hl in Hin. by inversion Hin.
  - intros entry name id Htrim Hname Hcolon. unfold read_entry.
    rewrite Htrim.
    assert (truthy (name +:+ ":" +:+ id) = true) as ->
      by (by destruct name).
    simpl negb. cbv iota.
    change (":" +:+ id) with (String ":" id).
    rewrite (indexOf_first ":" name id Hcolon).
    assert (0 < String.length name)%nat as Hpos
      by (by apply truthy_length).
    destruct (Z.ltb_spec 0 (Z.of_nat (String.length name))); [| lia].
    f_equal. f_equal.
    + unfold KeyStatus.substring. rewrite str_length_app.
      replace (Z.to_nat (Z.min _ _)) with 0%nat by lia.
      replace (Z.to_nat (Z.abs _)) with (String.length name) by lia.
      apply KeyStatusFacts.substring_head.
    + unfold KeyStatus.substring.
      assert (String.length (name +:+ String ":" id)
              = (String.length name + 1 + String.length id)%nat) as ->
        by (rewrite str_length_app; simpl; lia).
      replace (Z.to_nat (Z.min _ _)) with (String.length (name +:+ ":"))
        by (rewrite str_length_app; simpl; lia).
      change (String ":" id) with (":" +:+ id).
      rewrite <- str_app_assoc.
      apply KeyStatusFacts.substring_tail. lia.
  - intros entry Htrim Hcolon. unfold read_entry.
    rewrite Htrim, Hcolon. done.
Qed.

Lemma custom_agents_readers_agree_witness :
  getCustomAgents_models trim_blanks "coder:abc:1, plain ,,coder:xyz"
  = [("coder", "abc:1"); ("plain", "plain"); ("coder", "xyz")]
  ∧ getCustomAgents trim_blanks "coder:abc:1, plain ,,coder:xyz" !! "coder"
    = Some "xyz"
  ∧ read_entry trim_blanks " coder:abc:1" = Some ("coder", "abc:1").
Proof.
  destruct (custom_agents_readers_agree trim_blanks
              "coder:abc:1, plain ,,coder:xyz")
    as (Hmap & _ & Hentry & _).
  split; [reflexivity |]. split.
  - rewrite Hmap. reflexivity.
  - apply Hentry; reflexivity.
Defined.

End CustomAgentsFacts.
